(** * HAR analyzer: a shallow embedding of the analysis engine

    The development follows [src/lib/harParser.ts], [src/lib/analyzer.ts],
    [src/lib/uxTimelineAnalyzer.ts] and [src/types/har.ts].

    Conventions of the embedding.
    - A JavaScript [number] read from a HAR document is a finite value and is
      represented by a rational ([Q]); comparisons on [Q] are the exact
      comparisons of the doubles, sums and differences are taken exactly.
      Values that the code obtains through [Math.max], [Math.min] or [/]
      can be [Infinity], [-Infinity] or [NaN]: these live in [Js.number].
      Negative zero is not distinguished from zero.
    - A JavaScript string is a byte string (UTF-8).
    - [startedDateTime] is represented by the epoch milliseconds that
      [new Date(s).getTime()] yields for it.
    - The inputs are well-typed for the declarations of [types/har.ts]: a
      field that is not optional there is present.
    - A thrown exception is the [Throw] outcome of the [result] type.
    - [Map] and [Set] iterate in insertion order: they are association
      lists and duplicate-free lists; the [visited] set of the chain walk,
      which is only tested and extended, is a [gset]. *)

From Stdlib Require Import QArith Qround Lqa ZArith String Ascii DecimalString.
From Stdlib Require Import List Permutation Sorted Lia.
From Stdlib Require Import DecimalZ DecimalPos.
From stdpp Require Import base list strings gmap.
Import ListNotations.

Local Open Scope string_scope.

(** ** Outcomes of fallible code *)

Inductive result (A : Type) : Type :=
| Ok (a : A)
| Throw (message : string).
Arguments Ok {A} a.
Arguments Throw {A} message.

Definition bind {A B} (m : result A) (k : A -> result B) : result B :=
  match m with
  | Ok a => k a
  | Throw e => Throw e
  end.

Notation "'let!' x ':=' m 'in' k" := (bind m (fun x => k))
  (at level 10, x name, m at level 100, k at level 200).

(** [try { body } catch { handler }] *)
Definition try_catch {A} (body : result A) (handler : string -> result A) : result A :=
  match body with
  | Ok a => Ok a
  | Throw e => handler e
  end.

(** [for (const x of xs) { s = f(s, x) }] where the body may throw. *)
Fixpoint for_of {A S} (f : S -> A -> result S) (xs : list A) (s : S) : result S :=
  match xs with
  | [] => Ok s
  | x :: xs' => let! s' := f s x in for_of f xs' s'
  end.

(** [o!.field]: the non-null assertion is erased at run time, the property
    access on [undefined] raises a [TypeError]. *)
Definition non_null {A} (o : option A) : result A :=
  match o with
  | Some a => Ok a
  | None => Throw "TypeError"
  end.

(** ** JavaScript numbers, strings and collections *)

Module Js.

Inductive number : Type :=
| Fin (q : Q)
| PosInfinity
| NegInfinity
| NaN.

Definition add (a b : number) : number :=
  match a, b with
  | NaN, _ | _, NaN => NaN
  | Fin x, Fin y => Fin (x + y)
  | PosInfinity, NegInfinity | NegInfinity, PosInfinity => NaN
  | PosInfinity, _ | _, PosInfinity => PosInfinity
  | NegInfinity, _ | _, NegInfinity => NegInfinity
  end.

Definition sub (a b : number) : number :=
  match a, b with
  | NaN, _ | _, NaN => NaN
  | Fin x, Fin y => Fin (x - y)
  | PosInfinity, PosInfinity | NegInfinity, NegInfinity => NaN
  | PosInfinity, _ | _, NegInfinity => PosInfinity
  | NegInfinity, _ | _, PosInfinity => NegInfinity
  end.

(** [a / b]: a finite non-zero value over zero is an infinity, zero over
    zero is [NaN]. *)
Definition div (a b : number) : number :=
  match a, b with
  | NaN, _ | _, NaN => NaN
  | Fin x, Fin y =>
      if Qeq_bool y 0 then
        if Qeq_bool x 0 then NaN
        else if Qle_bool 0 x then PosInfinity else NegInfinity
      else Fin (x / y)
  | Fin _, _ => Fin 0
  | _, PosInfinity | _, NegInfinity => NaN
  | PosInfinity, Fin y => if Qle_bool 0 y then PosInfinity else NegInfinity
  | NegInfinity, Fin y => if Qle_bool 0 y then NegInfinity else PosInfinity
  end.

(** [a > b]; every comparison with [NaN] is false. *)
Definition gt (a b : number) : bool :=
  match a, b with
  | NaN, _ | _, NaN => false
  | Fin x, Fin y => negb (Qle_bool x y)
  | PosInfinity, PosInfinity => false
  | PosInfinity, _ => true
  | _, PosInfinity => false
  | NegInfinity, _ => false
  | _, NegInfinity => true
  end.

(** [a === b] on numbers. *)
Definition strict_eq (a b : number) : bool :=
  match a, b with
  | Fin x, Fin y => Qeq_bool x y
  | PosInfinity, PosInfinity | NegInfinity, NegInfinity => true
  | _, _ => false
  end.

Definition max2 (a b : number) : number :=
  match a, b with
  | NaN, _ | _, NaN => NaN
  | PosInfinity, _ | _, PosInfinity => PosInfinity
  | NegInfinity, x | x, NegInfinity => x
  | Fin x, Fin y => if Qle_bool x y then Fin y else Fin x
  end.

Definition min2 (a b : number) : number :=
  match a, b with
  | NaN, _ | _, NaN => NaN
  | NegInfinity, _ | _, NegInfinity => NegInfinity
  | PosInfinity, x | x, PosInfinity => x
  | Fin x, Fin y => if Qle_bool y x then Fin y else Fin x
  end.

(** [Math.max(...xs)] is [-Infinity] and [Math.min(...xs)] is [Infinity]
    when [xs] is empty. *)
Definition Math_max (xs : list Q) : number :=
  fold_left (fun acc x => max2 acc (Fin x)) xs NegInfinity.

Definition Math_min (xs : list Q) : number :=
  fold_left (fun acc x => min2 acc (Fin x)) xs PosInfinity.

(** [Math.round] rounds half-way cases up. *)
Definition round (q : Q) : Z := Qfloor (q + (1 # 2)).

Definition Math_round (n : number) : number :=
  match n with
  | Fin q => Fin (inject_Z (round q))
  | other => other
  end.

Definition Z_toString (z : Z) : string := NilZero.string_of_int (Z.to_int z).

(** The text that a template literal inserts for [Math.round(n)]. *)
Definition round_toString (n : number) : string :=
  match n with
  | Fin q => Z_toString (round q)
  | PosInfinity => "Infinity"
  | NegInfinity => "-Infinity"
  | NaN => "NaN"
  end.

(** Truthiness of a number: zero is falsy. *)
Definition truthy (q : Q) : bool := negb (Qeq_bool q 0).

(** [o && p(o)] for an optional numeric field [o]. *)
Definition and_then (o : option Q) (p : Q -> bool) : bool :=
  match o with
  | Some q => truthy q && p q
  | None => false
  end.

(** *** Strings *)

Definition lower_ascii (c : ascii) : ascii :=
  let n := nat_of_ascii c in
  if (Nat.leb 65 n && Nat.leb n 90)%bool then ascii_of_nat (n + 32) else c.

(** [s.toLowerCase()], on the ASCII letters. *)
Fixpoint toLowerCase (s : string) : string :=
  match s with
  | EmptyString => EmptyString
  | String c s' => String (lower_ascii c) (toLowerCase s')
  end.

(** [s.includes(needle)] *)
Fixpoint includes (s needle : string) : bool :=
  String.prefix needle s ||
  match s with
  | EmptyString => false
  | String _ s' => includes s' needle
  end.

(** [s.endsWith(suffix)] *)
Definition endsWith (s suffix : string) : bool :=
  let n := String.length s in
  let k := String.length suffix in
  Nat.leb k n && String.eqb (String.substring (n - k) k s) suffix.

(** *** [Map] with string keys, in insertion order *)

Definition Map (V : Type) : Type := list (string * V).

Fixpoint Map_get {V} (m : Map V) (k : string) : option V :=
  match m with
  | [] => None
  | (k', v) :: m' => if String.eqb k k' then Some v else Map_get m' k
  end.

Definition Map_has {V} (m : Map V) (k : string) : bool :=
  match Map_get m k with Some _ => true | None => false end.

(** [m.set(k, v)]: an existing key keeps its position. *)
Fixpoint Map_set {V} (m : Map V) (k : string) (v : V) : Map V :=
  match m with
  | [] => [(k, v)]
  | (k', v') :: m' =>
      if String.eqb k k' then (k, v) :: m' else (k', v') :: Map_set m' k v
  end.

Definition Map_size {V} (m : Map V) : nat := length m.

(** [[...new Set(xs)]]: the first occurrence of each string is kept. *)
Fixpoint Set_of (xs : list string) (seen : list string) : list string :=
  match xs with
  | [] => []
  | x :: xs' =>
      if existsb (String.eqb x) seen then Set_of xs' seen
      else x :: Set_of xs' (x :: seen)
  end.

(** *** [Array.prototype.sort] with a comparator

    The sort is stable; [cmp a b > 0] places [b] before [a], every other
    answer (a negative number, zero, [NaN]) keeps [a] first. *)

Fixpoint sort_insert {A} (cmp : A -> A -> number) (x : A) (l : list A) : list A :=
  match l with
  | [] => [x]
  | y :: l' => if gt (cmp x y) (Fin 0) then y :: sort_insert cmp x l' else x :: l
  end.

Definition sort {A} (cmp : A -> A -> number) (l : list A) : list A :=
  fold_right (sort_insert cmp) [] l.

(** [xs.slice(0, n)] *)
Definition slice0 {A} (n : nat) (xs : list A) : list A := firstn n xs.

End Js.

(** ** The HAR document and the analysis records ([src/types/har.ts])

    Only the fields that the engine reads are kept.  Each record lives in
    a module of its own, so that the fields keep the names of the source. *)

Module HarHeader.
Record t := mk { name : string; value : string }.
End HarHeader.

Module HarTimings.
Record t := mk {
  blocked : option Q;
  dns : option Q;
  connect : option Q;
  ssl : option Q;
  send : Q;
  wait : Q;
  receive : Q }.
End HarTimings.

Module HarContent.
Record t := mk { size : Q; mimeType : string }.
End HarContent.

Module HarRequest.
Record t := mk { method : string; url : string; headers : list HarHeader.t }.
End HarRequest.

Module HarResponse.
Record t := mk { status : Z; content : HarContent.t; bodySize : Q }.
End HarResponse.

Module HarEntry.
Record t := mk {
  startedDateTime : Z;
  time : Q;
  request : HarRequest.t;
  response : HarResponse.t;
  timings : HarTimings.t }.
End HarEntry.

Module HarLog.
Record t := mk { entries : list HarEntry.t }.
End HarLog.

Module HarFile.
Record t := mk { log : HarLog.t }.
End HarFile.

Inductive RequestType : Type :=
| document | xhr | fetch | script | stylesheet | image | font | media | other.

Inductive SeverityLevel : Type := normal | warning | critical.

Inductive IssueType : Type :=
| slow_dns | slow_connect | slow_ssl | slow_ttfb | slow_download
| large_payload | blocking.

Module ParsedRequest.
Record t := mk {
  id : string;
  url : string;
  method : string;
  status : Z;
  type : RequestType;
  size : Q;
  time : Q;
  timings : HarTimings.t;
  startTime : Q;
  severity : SeverityLevel;
  issues : list string }.
End ParsedRequest.

Module AnalysisIssue.
Record t := mk {
  type : IssueType;
  severity : SeverityLevel;
  message : string;
  url : string;
  value : Q;
  threshold : Q }.
End AnalysisIssue.

Module RegionData.
Record t := mk {
  name : string;
  fileName : string;
  requests : list ParsedRequest.t;
  totalTime : Js.number;
  totalSize : Q;
  requestCount : nat;
  slowRequests : nat;
  issues : list AnalysisIssue.t }.
End RegionData.

(** ** Classification ([src/lib/harParser.ts]) *)

Module Threshold.
Record t := mk { warning : Q; critical : Q }.
End Threshold.

(** The property name that a request type is as a string. *)
Definition RequestType_key (type : RequestType) : string :=
  match type with
  | document => "document" | xhr => "xhr" | fetch => "fetch"
  | script => "script" | stylesheet => "stylesheet" | image => "image"
  | font => "font" | media => "media" | other => "other"
  end.

Definition THRESHOLDS_other : Threshold.t := Threshold.mk 1000 3000.

Definition THRESHOLDS : Js.Map Threshold.t :=
  [ ("api", Threshold.mk 500 1000);
    ("script", Threshold.mk 500 1500);
    ("stylesheet", Threshold.mk 500 1500);
    ("image", Threshold.mk 1000 3000);
    ("font", Threshold.mk 500 1500);
    ("document", Threshold.mk 1000 3000);
    ("other", THRESHOLDS_other);
    ("dns", Threshold.mk 100 300);
    ("connect", Threshold.mk 200 500);
    ("ssl", Threshold.mk 200 500);
    ("ttfb", Threshold.mk 500 1500);
    ("download", Threshold.mk 1000 3000) ].

Definition image_extensions : list string :=
  [".png"; ".jpg"; ".jpeg"; ".gif"; ".svg"; ".webp"; ".ico"].

Definition font_extensions : list string :=
  [".woff"; ".woff2"; ".ttf"; ".otf"; ".eot"].

(** [/\.(a|b|...)/.test(url)]: one of the alternatives occurs in [url]. *)
Definition regex_test (alternatives : list string) (url : string) : bool :=
  existsb (Js.includes url) alternatives.

Definition getRequestType (entry : HarEntry.t) : RequestType :=
  let mimeType :=
    Js.toLowerCase (HarContent.mimeType (HarResponse.content (HarEntry.response entry))) in
  let url := Js.toLowerCase (HarRequest.url (HarEntry.request entry)) in
  let initiatorType :=
    option_map (fun h => Js.toLowerCase (HarHeader.value h))
      (List.find
         (fun h => String.eqb (Js.toLowerCase (HarHeader.name h)) "x-requested-with")
         (HarRequest.headers (HarEntry.request entry))) in
  if match initiatorType with
     | Some v => String.eqb v "xmlhttprequest"
     | None => false
     end then xhr
  else if Js.includes mimeType "json" || Js.includes mimeType "xml" then fetch
  else if Js.includes mimeType "html" then document
  else if Js.includes mimeType "javascript" || Js.endsWith url ".js" then script
  else if Js.includes mimeType "css" || Js.endsWith url ".css" then stylesheet
  else if Js.includes mimeType "image" || regex_test image_extensions url then image
  else if Js.includes mimeType "font" || regex_test font_extensions url then font
  else if Js.includes mimeType "video" || Js.includes mimeType "audio" then media
  else other.

Definition getSeverity (time : Q) (type : RequestType) : SeverityLevel :=
  let thresholdKey :=
    match type with
    | xhr | fetch => "api"
    | _ => RequestType_key type
    end in
  let threshold :=
    match Js.Map_get THRESHOLDS thresholdKey with
    | Some th => th
    | None => THRESHOLDS_other
    end in
  if Qle_bool (Threshold.critical threshold) time then critical
  else if Qle_bool (Threshold.warning threshold) time then warning
  else normal.

(** The thresholds of the timing phases, [THRESHOLDS.dns.warning] and the
    like. *)
Definition phase_warning (key : string) : Q :=
  match Js.Map_get THRESHOLDS key with
  | Some th => Threshold.warning th
  | None => 0%Q
  end.

Definition issue_message (label : string) (ms : Q) : string :=
  label ++ " (" ++ Js.Z_toString (Js.round ms) ++ "ms)".

(** [if (cond) issues.push(msg)] *)
Definition push_if {A} (cond : bool) (x : A) (xs : list A) : list A :=
  if cond then (xs ++ [x])%list else xs.

Definition analyzeRequestIssues (timings : HarTimings.t) : list string :=
  let issues := [] in
  let issues :=
    match HarTimings.dns timings with
    | Some d =>
        push_if (Js.truthy d && Qle_bool (phase_warning "dns") d)
          (issue_message "DNS 查詢過慢" d) issues
    | None => issues
    end in
  let issues :=
    match HarTimings.connect timings with
    | Some d =>
        push_if (Js.truthy d && Qle_bool (phase_warning "connect") d)
          (issue_message "TCP 連線過慢" d) issues
    | None => issues
    end in
  let issues :=
    match HarTimings.ssl timings with
    | Some d =>
        push_if (Js.truthy d && Qle_bool (phase_warning "ssl") d)
          (issue_message "SSL 握手過慢" d) issues
    | None => issues
    end in
  let issues :=
    push_if (Qle_bool (phase_warning "ttfb") (HarTimings.wait timings))
      (issue_message "伺服器回應過慢 TTFB" (HarTimings.wait timings)) issues in
  let issues :=
    push_if (Qle_bool (phase_warning "download") (HarTimings.receive timings))
      (issue_message "下載時間過長" (HarTimings.receive timings)) issues in
  let issues :=
    match HarTimings.blocked timings with
    | Some d =>
        push_if (Js.truthy d && negb (Qle_bool d 100))
          (issue_message "請求被阻塞" d) issues
    | None => issues
    end in
  issues.

(** [o && o > 0 ? o : 0] for an optional phase, [x > 0 ? x : 0] for a
    mandatory one. *)
Definition positive_or_zero (q : Q) : Q := (if negb (Qle_bool q 0) then q else 0)%Q.

Definition normalize_optional (o : option Q) : option Q :=
  Some (if Js.and_then o (fun q => negb (Qle_bool q 0))
        then match o with Some q => q | None => 0 end
        else 0)%Q.

Definition normalizeTimings (timings : HarTimings.t) : HarTimings.t :=
  HarTimings.mk
    (normalize_optional (HarTimings.blocked timings))
    (normalize_optional (HarTimings.dns timings))
    (normalize_optional (HarTimings.connect timings))
    (normalize_optional (HarTimings.ssl timings))
    (positive_or_zero (HarTimings.send timings))
    (positive_or_zero (HarTimings.wait timings))
    (positive_or_zero (HarTimings.receive timings)).

Definition categorizeIssue (issue : string) : IssueType :=
  if Js.includes issue "DNS" then slow_dns
  else if Js.includes issue "TCP" then slow_connect
  else if Js.includes issue "SSL" then slow_ssl
  else if Js.includes issue "TTFB" then slow_ttfb
  else if Js.includes issue "下載" then slow_download
  else if Js.includes issue "阻塞" then blocking
  else large_payload.

(** ** Parsing and aggregation: [parseHarFile]

    [har] is the value of [JSON.parse(content)]. *)

Definition parseEntry (regionName : string) (baseTime : Z)
    (index : nat) (entry : HarEntry.t) : ParsedRequest.t :=
  let type := getRequestType entry in
  let time := HarEntry.time entry in
  let severity := getSeverity time type in
  let timings := normalizeTimings (HarEntry.timings entry) in
  ParsedRequest.mk
    (regionName ++ "-" ++ Js.Z_toString (Z.of_nat index))
    (HarRequest.url (HarEntry.request entry))
    (HarRequest.method (HarEntry.request entry))
    (HarResponse.status (HarEntry.response entry))
    type
    (if negb (Qle_bool (HarResponse.bodySize (HarEntry.response entry)) 0)
     then HarResponse.bodySize (HarEntry.response entry)
     else HarContent.size (HarResponse.content (HarEntry.response entry)))
    time
    timings
    (inject_Z (HarEntry.startedDateTime entry - baseTime))
    severity
    (analyzeRequestIssues timings).

(** The end of a request on the region's time line, [r.startTime + r.time]. *)
Definition endTime (r : ParsedRequest.t) : Q :=
  (ParsedRequest.startTime r + ParsedRequest.time r)%Q.

Definition is_normal (s : SeverityLevel) : bool :=
  match s with normal => true | _ => false end.

Definition requestIssues (r : ParsedRequest.t) : list AnalysisIssue.t :=
  map (fun issue =>
         AnalysisIssue.mk (categorizeIssue issue) (ParsedRequest.severity r)
           issue (ParsedRequest.url r) (ParsedRequest.time r) 0)
      (ParsedRequest.issues r).

Definition parseHarFile (har : HarFile.t) (regionName fileName : string)
    : result RegionData.t :=
  let entries := HarLog.entries (HarFile.log har) in
  match entries with
  | [] => Throw "HAR 檔案中沒有請求記錄"
  | first :: _ =>
      let baseTime := HarEntry.startedDateTime first in
      let requests := imap (parseEntry regionName baseTime) entries in
      let slowRequests :=
        length (List.filter (fun r => negb (is_normal (ParsedRequest.severity r))) requests) in
      let totalTime := Js.Math_max (map endTime requests) in
      let totalSize :=
        fold_left
          (fun sum r =>
             (sum + (if negb (Qle_bool (ParsedRequest.size r) 0)
                     then ParsedRequest.size r else 0))%Q)
          requests 0%Q in
      let issues :=
        flat_map requestIssues
          (List.filter
             (fun r => negb (Nat.eqb (length (ParsedRequest.issues r)) 0))
             requests) in
      Ok (RegionData.mk regionName fileName requests totalTime totalSize
            (length requests) slowRequests issues)
  end.

(** ** The platform

    The URL parser behind [new URL(url)] and the serializer
    [JSON.stringify] belong to the JavaScript runtime; the engine is
    verified for every implementation of them. *)

Module URL.
Record t := mk { origin : string; pathname : string; hostname : string }.
End URL.

Module Json.
Local Unset Elimination Schemes.
Inductive t : Type :=
| Str (s : string)
| Num (n : Js.number)
| Arr (items : list t)
| Obj (fields : list (string * t)).
End Json.

Class Platform : Type := {
  (** [new URL(url)]; throws a [TypeError] on a string that is not a URL *)
  new_URL : string -> result URL.t;
  JSON_stringify : Json.t -> string }.

(** ** Cross-region comparison ([src/lib/analyzer.ts]) *)

Module RegionTiming.
(** The value that [regionMap] keeps for a region. *)
Record t := mk { time : Q; timings : HarTimings.t }.
End RegionTiming.

Module RegionResult.
Record t := mk { name : string; time : Q; timings : HarTimings.t }.
End RegionResult.

Module ComparisonResult.
Record t := mk {
  url : string;
  regions : list RegionResult.t;
  maxDiff : Js.number;
  slowestRegion : string;
  fastestRegion : string }.
End ComparisonResult.

Definition UrlMap : Type := Js.Map (Js.Map RegionTiming.t).

Section Comparator.
Context `{Platform}.

Definition getBaseUrl (url : string) : result string :=
  try_catch
    (let! parsed := new_URL url in
     Ok (URL.origin parsed ++ URL.pathname parsed))
    (fun _ => Ok url).

(** The body of the inner loop that fills [urlMap]. *)
Definition recordRequest (regionName : string) (urlMap : UrlMap)
    (request : ParsedRequest.t) : result UrlMap :=
  let! baseUrl := getBaseUrl (ParsedRequest.url request) in
  let urlMap :=
    if negb (Js.Map_has urlMap baseUrl) then Js.Map_set urlMap baseUrl []
    else urlMap in
  let! regionMap := non_null (Js.Map_get urlMap baseUrl) in
  let existing := Js.Map_get regionMap regionName in
  if match existing with
     | None => true
     | Some e => negb (Qle_bool (ParsedRequest.time request) (RegionTiming.time e))
     end
  then
    Ok (Js.Map_set urlMap baseUrl
          (Js.Map_set regionMap regionName
             (RegionTiming.mk (ParsedRequest.time request)
                (ParsedRequest.timings request))))
  else Ok urlMap.

Definition recordRegion (urlMap : UrlMap) (region : RegionData.t) : result UrlMap :=
  for_of (recordRequest (RegionData.name region)) (RegionData.requests region) urlMap.

Definition buildUrlMap (regions : list RegionData.t) : result UrlMap :=
  for_of recordRegion regions [].

Definition regionResultsOf (regionMap : Js.Map RegionTiming.t) : list RegionResult.t :=
  map (fun entry =>
         RegionResult.mk (fst entry) (RegionTiming.time (snd entry))
           (RegionTiming.timings (snd entry)))
      regionMap.

(** [maxDiff / minTime], the relative spread. *)
Definition spreadRatio (maxDiff minTime : Js.number) : Js.number :=
  Js.div maxDiff minTime.

(** The rule that keeps a comparison: [maxDiff > 100 || maxDiff / minTime > 0.5]. *)
Definition significant (maxDiff minTime : Js.number) : bool :=
  Js.gt maxDiff (Js.Fin 100) || Js.gt (spreadRatio maxDiff minTime) (Js.Fin 0.5).

(** The body of the loop over [urlMap]. *)
Definition compareUrl (comparisons : list ComparisonResult.t)
    (entry : string * Js.Map RegionTiming.t) : result (list ComparisonResult.t) :=
  let url := fst entry in
  let regionMap := snd entry in
  if Nat.ltb (Js.Map_size regionMap) 2 then Ok comparisons
  else
    let regionResults := regionResultsOf regionMap in
    let times := map RegionResult.time regionResults in
    let maxTime := Js.Math_max times in
    let minTime := Js.Math_min times in
    let maxDiff := Js.sub maxTime minTime in
    if significant maxDiff minTime then
      let! slowest :=
        non_null (List.find
                    (fun r => Js.strict_eq (Js.Fin (RegionResult.time r)) maxTime)
                    regionResults) in
      let! fastest :=
        non_null (List.find
                    (fun r => Js.strict_eq (Js.Fin (RegionResult.time r)) minTime)
                    regionResults) in
      Ok (comparisons ++
          [ComparisonResult.mk url regionResults maxDiff
             (RegionResult.name slowest) (RegionResult.name fastest)])%list
    else Ok comparisons.

Definition byMaxDiffDesc (a b : ComparisonResult.t) : Js.number :=
  Js.sub (ComparisonResult.maxDiff b) (ComparisonResult.maxDiff a).

Definition compareRegions (regions : list RegionData.t)
    : result (list ComparisonResult.t) :=
  if Nat.ltb (length regions) 2 then Ok []
  else
    let! urlMap := buildUrlMap regions in
    let! comparisons := for_of compareUrl urlMap [] in
    Ok (Js.sort byMaxDiffDesc comparisons).

End Comparator.

(** ** API dependency chains ([src/lib/uxTimelineAnalyzer.ts]) *)

Module ApiChainNode.
Record t := mk {
  request : ParsedRequest.t;
  startTime : Q;
  endTime : Q;
  dependsOn : option string }.
End ApiChainNode.

Module ApiChain.
Record t := mk {
  id : string;
  nodes : list ApiChainNode.t;
  totalDuration : Q;
  chainLength : nat;
  bottleneck : option ApiChainNode.t }.
End ApiChain.

Module UX_THRESHOLDS.
Definition apiGapThreshold : Q := 50.
Definition blockingTimeWarning : Q := 200.
Definition blockingTimeCritical : Q := 500.
Definition waitingPeriodMin : Q := 100.
End UX_THRESHOLDS.

Definition isApiRequest (r : ParsedRequest.t) : bool :=
  match ParsedRequest.type r with
  | xhr | fetch => true
  | _ => false
  end.

Definition visited_has (visited : gset string) (id : string) : bool :=
  bool_decide (id ∈ visited).

(** The predicate of the [find] that looks for the next link of a chain. *)
Definition followsWithinGap (visited : gset string) (currentEndTime : Q)
    (r : ParsedRequest.t) : bool :=
  negb (visited_has visited (ParsedRequest.id r))
  && Qle_bool currentEndTime (ParsedRequest.startTime r)
  && Qle_bool (ParsedRequest.startTime r)
       (currentEndTime + UX_THRESHOLDS.apiGapThreshold).

(** The [while] loop of [buildChain].  [visited] is the set shared with
    the caller, so its final value is returned with the nodes.  The result
    is [None] when the loop is still running after [fuel] iterations. *)
Fixpoint chainLoop (fuel : nat) (allApiRequests : list ParsedRequest.t)
    (currentRequest : option ParsedRequest.t) (prevId : option string)
    (nodes : list ApiChainNode.t) (visited : gset string)
    : option (list ApiChainNode.t * gset string) :=
  match currentRequest with
  | None => Some (nodes, visited)
  | Some current =>
      if visited_has visited (ParsedRequest.id current) then Some (nodes, visited)
      else
        match fuel with
        | O => None
        | S fuel' =>
            let visited := {[ParsedRequest.id current]} ∪ visited in
            let node :=
              ApiChainNode.mk current (ParsedRequest.startTime current)
                (ParsedRequest.startTime current + ParsedRequest.time current)
                prevId in
            let nodes := (nodes ++ [node])%list in
            let prevId := Some (ParsedRequest.id current) in
            let currentEndTime :=
              (ParsedRequest.startTime current + ParsedRequest.time current)%Q in
            chainLoop fuel' allApiRequests
              (List.find (followsWithinGap visited currentEndTime) allApiRequests)
              prevId nodes visited
        end
  end.

Definition slower (slowest node : ApiChainNode.t) : ApiChainNode.t :=
  if negb (Qle_bool (ParsedRequest.time (ApiChainNode.request node))
             (ParsedRequest.time (ApiChainNode.request slowest)))
  then node else slowest.

Definition chainOf (startRequest : ParsedRequest.t) (nodes : list ApiChainNode.t)
    : ApiChain.t :=
  let totalDuration :=
    match nodes, last nodes with
    | first :: _, Some final =>
        (ApiChainNode.endTime final - ApiChainNode.startTime first)%Q
    | _, _ => 0%Q
    end in
  let bottleneck :=
    match nodes with
    | [] => None
    | first :: _ => Some (fold_left slower nodes first)
    end in
  ApiChain.mk ("chain-" ++ ParsedRequest.id startRequest) nodes totalDuration
    (length nodes) bottleneck.

(** Every iteration of the loop marks a request that was not marked, so
    one more iteration than there are requests is enough fuel. *)
Definition buildChain (startRequest : ParsedRequest.t)
    (allApiRequests : list ParsedRequest.t) (visited : gset string)
    : option (ApiChain.t * gset string) :=
  match chainLoop (S (length allApiRequests)) allApiRequests (Some startRequest)
          None [] visited with
  | Some (nodes, visited') => Some (chainOf startRequest nodes, visited')
  | None => None
  end.

(** The [for] loop of [analyzeApiChains] over the sorted requests. *)
Fixpoint chainWalk (apiRequests todo : list ParsedRequest.t)
    (chains : list ApiChain.t) (visited : gset string) : option (list ApiChain.t) :=
  match todo with
  | [] => Some chains
  | request :: todo' =>
      if visited_has visited (ParsedRequest.id request)
      then chainWalk apiRequests todo' chains visited
      else
        match buildChain request apiRequests visited with
        | Some (chain, visited') =>
            let chains :=
              if Nat.ltb 1 (length (ApiChain.nodes chain))
              then (chains ++ [chain])%list else chains in
            chainWalk apiRequests todo' chains visited'
        | None => None
        end
  end.

Definition byStartTime (a b : ParsedRequest.t) : Js.number :=
  Js.Fin (ParsedRequest.startTime a - ParsedRequest.startTime b).

Definition byTotalDurationDesc (a b : ApiChain.t) : Js.number :=
  Js.Fin (ApiChain.totalDuration b - ApiChain.totalDuration a).

Definition sortedApiRequests (requests : list ParsedRequest.t) : list ParsedRequest.t :=
  Js.sort byStartTime (List.filter isApiRequest requests).

Definition analyzeApiChains (requests : list ParsedRequest.t)
    : option (list ApiChain.t) :=
  let apiRequests := sortedApiRequests requests in
  if Nat.eqb (length apiRequests) 0 then Some []
  else
    match chainWalk apiRequests apiRequests [] ∅ with
    | Some chains => Some (Js.sort byTotalDurationDesc chains)
    | None => None
    end.

(** ** Recommendations ([src/lib/analyzer.ts]) *)

Module Priority.
Inductive t : Type := high | medium | low.
End Priority.

Module Category.
Inductive t : Type := dns | connection | server | payload | caching | cdn.
End Category.

Module Recommendation.
Record t := mk {
  priority : Priority.t;
  category : Category.t;
  title : string;
  description : string;
  affectedUrls : list string;
  affectedRegions : list string }.
End Recommendation.

Module Breakdown.
Record t := mk {
  dns : option Q;
  connect : option Q;
  ssl : option Q;
  wait : option Q;
  receive : option Q }.
End Breakdown.

Module IssueDetail.
Record t := mk {
  url : string;
  value : Q;
  region : string;
  breakdown : Breakdown.t }.
End IssueDetail.

Module AnalysisResult.
Record t := mk {
  regions : list RegionData.t;
  comparisons : list ComparisonResult.t;
  recommendations : list Recommendation.t }.
End AnalysisResult.

(** [for (const x of xs) ys.push(f(x))] where [f] may throw. *)
Fixpoint map_result {A B} (f : A -> result B) (xs : list A) : result (list B) :=
  match xs with
  | [] => Ok []
  | x :: xs' =>
      let! y := f x in
      let! ys := map_result f xs' in
      Ok (y :: ys)
  end.

Definition Q_of_nat (n : nat) : Q := inject_Z (Z.of_nat n).

Definition num_of_nat (n : nat) : Js.number := Js.Fin (Q_of_nat n).

(** [xs.reduce((sum, x) => sum + value(x), 0)] *)
Definition sumOf {A} (value : A -> Q) (xs : list A) : Q :=
  fold_left (fun sum x => (sum + value x)%Q) xs 0%Q.

Definition byValueDesc (a b : IssueDetail.t) : Js.number :=
  Js.Fin (IssueDetail.value b - IssueDetail.value a).

(** The requests of all regions that one issue family selects, in the
    order of the two nested loops. *)
Definition collectIssues (select : string -> ParsedRequest.t -> option IssueDetail.t)
    (regions : list RegionData.t) : list IssueDetail.t :=
  flat_map
    (fun region =>
       flat_map
         (fun request =>
            match select (RegionData.name region) request with
            | Some detail => [detail]
            | None => []
            end)
         (RegionData.requests region))
    regions.

Definition selectDns (region : string) (request : ParsedRequest.t) : option IssueDetail.t :=
  let t := ParsedRequest.timings request in
  match HarTimings.dns t with
  | Some d =>
      if Js.truthy d && negb (Qle_bool d 100)
      then Some (IssueDetail.mk (ParsedRequest.url request) d region
                   (Breakdown.mk (Some d) None None None None))
      else None
  | None => None
  end.

Definition selectConnect (region : string) (request : ParsedRequest.t) : option IssueDetail.t :=
  let t := ParsedRequest.timings request in
  match HarTimings.connect t with
  | Some c =>
      if Js.truthy c && negb (Qle_bool c 200)
      then Some (IssueDetail.mk (ParsedRequest.url request) c region
                   (Breakdown.mk None (Some c) (HarTimings.ssl t) None None))
      else None
  | None => None
  end.

Definition selectTtfb (region : string) (request : ParsedRequest.t) : option IssueDetail.t :=
  let t := ParsedRequest.timings request in
  if negb (Qle_bool (HarTimings.wait t) 500)
  then Some (IssueDetail.mk (ParsedRequest.url request) (HarTimings.wait t) region
               (Breakdown.mk None None None (Some (HarTimings.wait t)) None))
  else None.

Definition selectDownload (region : string) (request : ParsedRequest.t) : option IssueDetail.t :=
  let t := ParsedRequest.timings request in
  if negb (Qle_bool (HarTimings.receive t) 1000)
  then Some (IssueDetail.mk (ParsedRequest.url request) (HarTimings.receive t) region
               (Breakdown.mk None None None None (Some (HarTimings.receive t))))
  else None.

(** [x || 0] for an optional number. *)
Definition or_zero (o : option Q) : Q :=
  match o with
  | Some q => if Js.truthy q then q else 0%Q
  | None => 0%Q
  end.

(** [slowestCounts]: how often each region is the slowest one. *)
Definition countSlowest (slowestCounts : Js.Map nat) (comp : ComparisonResult.t)
    : Js.Map nat :=
  let count :=
    match Js.Map_get slowestCounts (ComparisonResult.slowestRegion comp) with
    | Some n => n
    | None => O
    end in
  Js.Map_set slowestCounts (ComparisonResult.slowestRegion comp) (count + 1)%nat.

Definition byCountDesc (a b : string * nat) : Js.number :=
  Js.Fin (inject_Z (Z.of_nat (snd b) - Z.of_nat (snd a))).

Definition sumMaxDiff (comparisons : list ComparisonResult.t) : Js.number :=
  fold_left (fun sum c => Js.add sum (ComparisonResult.maxDiff c)) comparisons
    (Js.Fin 0).

Section Synthesizer.
Context `{Platform}.

(** [getDomain] of [src/lib/utils.ts] *)
Definition getDomain (url : string) : result string :=
  try_catch
    (let! parsed := new_URL url in Ok (URL.hostname parsed))
    (fun _ => Ok url).

Definition average (sorted : list IssueDetail.t) : Js.number :=
  Js.div (Js.Fin (sumOf IssueDetail.value sorted)) (num_of_nat (length sorted)).

Definition priorityAbove (limit maxValue : Q) : Priority.t :=
  if negb (Qle_bool maxValue limit) then Priority.high else Priority.medium.

Definition detailRow (metric : string) (i : IssueDetail.t) : Json.t :=
  Json.Obj [ ("url", Json.Str (IssueDetail.url i));
             (metric, Json.Num (Js.Math_round (Js.Fin (IssueDetail.value i))));
             ("region", Json.Str (IssueDetail.region i)) ].

Definition statsOf (count : nat) (avg : Js.number) (maxValue : Q)
    : list (string * Json.t) :=
  [ ("count", Json.Num (num_of_nat count));
    ("avgTime", Json.Num (Js.Math_round avg));
    ("maxTime", Json.Num (Js.Math_round (Js.Fin maxValue))) ].

Definition titleOf (label : string) (avg : Js.number) (maxValue : Q) : string :=
  label ++ "：平均 " ++ Js.round_toString avg ++ "ms，最高 "
    ++ Js.round_toString (Js.Fin maxValue) ++ "ms".

Definition affectedRegionsOf (sorted : list IssueDetail.t) : list string :=
  Js.Set_of (map IssueDetail.region sorted) [].

Definition dnsRecommendation (dnsIssues : list IssueDetail.t)
    : result (list Recommendation.t) :=
  if Nat.ltb 0 (length dnsIssues) then
    let sorted := Js.sort byValueDesc dnsIssues in
    let avgDns := average sorted in
    let! first := non_null (head sorted) in
    let maxDns := IssueDetail.value first in
    let! domains := map_result (fun i => getDomain (IssueDetail.url i)) sorted in
    let affectedDomains := Js.Set_of domains [] in
    Ok [ Recommendation.mk (priorityAbove 300 maxDns) Category.dns
           (titleOf "DNS 查詢過慢" avgDns maxDns)
           (JSON_stringify
              (Json.Obj
                 [ ("type", Json.Str "dns");
                   ("stats",
                    Json.Obj
                      (statsOf (length dnsIssues) avgDns maxDns ++
                       [("domains",
                         Json.Arr (map Json.Str (Js.slice0 5 affectedDomains)))])%list);
                   ("details",
                    Json.Arr (map (detailRow "dns") (Js.slice0 50 sorted))) ]))
           (map IssueDetail.url (Js.slice0 50 sorted))
           (affectedRegionsOf sorted) ]
  else Ok [].

Definition connectRow (i : IssueDetail.t) : Json.t :=
  Json.Obj [ ("url", Json.Str (IssueDetail.url i));
             ("connect", Json.Num (Js.Math_round (Js.Fin (IssueDetail.value i))));
             ("ssl",
              Json.Num
                match Breakdown.ssl (IssueDetail.breakdown i) with
                | Some s => if Js.truthy s then Js.Math_round (Js.Fin s) else Js.Fin 0
                | None => Js.Fin 0
                end);
             ("region", Json.Str (IssueDetail.region i)) ].

Definition connectRecommendation (connectIssues : list IssueDetail.t)
    : result (list Recommendation.t) :=
  if Nat.ltb 0 (length connectIssues) then
    let sorted := Js.sort byValueDesc connectIssues in
    let avgConnect := average sorted in
    let! first := non_null (head sorted) in
    let maxConnect := IssueDetail.value first in
    Ok [ Recommendation.mk (priorityAbove 500 maxConnect) Category.connection
           (titleOf "TCP 連線過慢" avgConnect maxConnect)
           (JSON_stringify
              (Json.Obj
                 [ ("type", Json.Str "connection");
                   ("stats", Json.Obj (statsOf (length connectIssues) avgConnect maxConnect));
                   ("details", Json.Arr (map connectRow (Js.slice0 50 sorted))) ]))
           (map IssueDetail.url (Js.slice0 50 sorted))
           (affectedRegionsOf sorted) ]
  else Ok [].

(** The TTFB family also groups the issues by base URL into a local map
    that no result reads; the grouping calls [getBaseUrl] only. *)
Definition ttfbRecommendation (ttfbIssues : list IssueDetail.t)
    : result (list Recommendation.t) :=
  if Nat.ltb 0 (length ttfbIssues) then
    let sorted := Js.sort byValueDesc ttfbIssues in
    let avgTtfb := average sorted in
    let! first := non_null (head sorted) in
    let maxTtfb := IssueDetail.value first in
    let! _ := map_result (fun i => getBaseUrl (IssueDetail.url i)) sorted in
    Ok [ Recommendation.mk (priorityAbove 1500 maxTtfb) Category.server
           (titleOf "伺服器回應過慢 (TTFB)" avgTtfb maxTtfb)
           (JSON_stringify
              (Json.Obj
                 [ ("type", Json.Str "ttfb");
                   ("stats", Json.Obj (statsOf (length ttfbIssues) avgTtfb maxTtfb));
                   ("details", Json.Arr (map (detailRow "ttfb") (Js.slice0 50 sorted))) ]))
           (map IssueDetail.url (Js.slice0 50 sorted))
           (affectedRegionsOf sorted) ]
  else Ok [].

Definition downloadRecommendation (downloadIssues : list IssueDetail.t)
    : result (list Recommendation.t) :=
  if Nat.ltb 0 (length downloadIssues) then
    let sorted := Js.sort byValueDesc downloadIssues in
    let avgDownload := average sorted in
    let! first := non_null (head sorted) in
    let maxDownload := IssueDetail.value first in
    Ok [ Recommendation.mk (priorityAbove 3000 maxDownload) Category.payload
           (titleOf "下載時間過長" avgDownload maxDownload)
           (JSON_stringify
              (Json.Obj
                 [ ("type", Json.Str "download");
                   ("stats",
                    Json.Obj (statsOf (length downloadIssues) avgDownload maxDownload));
                   ("details",
                    Json.Arr (map (detailRow "download") (Js.slice0 50 sorted))) ]))
           (map IssueDetail.url (Js.slice0 50 sorted))
           (affectedRegionsOf sorted) ]
  else Ok [].

Definition timeOfRegion (c : ComparisonResult.t) (region : string) : Js.number :=
  Js.Math_round
    (Js.Fin
       (or_zero
          (option_map RegionResult.time
             (List.find (fun r => String.eqb (RegionResult.name r) region)
                (ComparisonResult.regions c))))).

Definition regionRow (problematicRegion : string) (c : ComparisonResult.t) : Json.t :=
  Json.Obj [ ("url", Json.Str (ComparisonResult.url c));
             ("thisRegion", Json.Num (timeOfRegion c problematicRegion));
             ("fastest", Json.Num (timeOfRegion c (ComparisonResult.fastestRegion c)));
             ("fastestRegion", Json.Str (ComparisonResult.fastestRegion c));
             ("diff", Json.Num (Js.Math_round (ComparisonResult.maxDiff c))) ].

(** The evidence payload of the region family, before serialization. *)
Definition regionEvidence (problematicRegion : string) (count : nat)
    (avgDiff : Js.number) (totalComparisons : nat)
    (regionComparisons : list ComparisonResult.t) : Json.t :=
  Json.Obj
    [ ("type", Json.Str "region");
      ("stats",
       Json.Obj [ ("region", Json.Str problematicRegion);
                  ("slowCount", Json.Num (num_of_nat count));
                  ("avgDiff", Json.Num (Js.Math_round avgDiff));
                  ("totalComparisons", Json.Num (num_of_nat totalComparisons)) ]);
      ("details",
       Json.Arr (map (regionRow problematicRegion) (Js.slice0 50 regionComparisons))) ].

Definition regionTitle (problematicRegion : string) (count : nat)
    (avgDiff : Js.number) : string :=
  problematicRegion ++ " 地區在 " ++ Js.Z_toString (Z.of_nat count)
    ++ " 個請求中明顯較慢（平均慢 " ++ Js.round_toString avgDiff ++ "ms）".

Definition regionRecommendation (comparisons : list ComparisonResult.t)
    : list Recommendation.t :=
  if Nat.ltb 0 (length comparisons) then
    let slowestCounts := fold_left countSlowest comparisons [] in
    let sortedRegions := Js.sort byCountDesc slowestCounts in
    match sortedRegions with
    | (problematicRegion, count) :: _ =>
        if Nat.leb 3 count then
          let regionComparisons :=
            List.filter
              (fun c => String.eqb (ComparisonResult.slowestRegion c) problematicRegion)
              comparisons in
          let avgDiff :=
            Js.div (sumMaxDiff regionComparisons)
              (num_of_nat (length regionComparisons)) in
          [ Recommendation.mk Priority.high Category.cdn
              (regionTitle problematicRegion count avgDiff)
              (JSON_stringify
                 (regionEvidence problematicRegion count avgDiff
                    (length comparisons) regionComparisons))
              (map ComparisonResult.url (Js.slice0 50 regionComparisons))
              [problematicRegion] ]
        else []
    | [] => []
    end
  else [].

(** The loop over the requests also fills [sslIssues], which nothing
    reads; the four families that are reported are collected here. *)
Definition generateRecommendations (regions : list RegionData.t)
    (comparisons : list ComparisonResult.t) : result (list Recommendation.t) :=
  let dnsIssues := collectIssues selectDns regions in
  let connectIssues := collectIssues selectConnect regions in
  let ttfbIssues := collectIssues selectTtfb regions in
  let downloadIssues := collectIssues selectDownload regions in
  let! dnsPart := dnsRecommendation dnsIssues in
  let! connectPart := connectRecommendation connectIssues in
  let! ttfbPart := ttfbRecommendation ttfbIssues in
  let! downloadPart := downloadRecommendation downloadIssues in
  Ok (dnsPart ++ connectPart ++ ttfbPart ++ downloadPart
        ++ regionRecommendation comparisons)%list.

Definition analyzeHarFiles (regions : list RegionData.t) : result AnalysisResult.t :=
  let! comparisons := compareRegions regions in
  let! recommendations := generateRecommendations regions comparisons in
  Ok (AnalysisResult.mk regions comparisons recommendations).

End Synthesizer.

(** ** The rest of the UX timeline ([src/lib/uxTimelineAnalyzer.ts])

    The declarations of the records below are not in the source tree; their
    fields are those of the object literals that the functions build. *)

Inductive MilestoneType : Type :=
| html_loaded | render_blocking_done | first_api_response | critical_resources_done.

Module Milestone.
Record t := mk {
  type : MilestoneType;
  label : string;
  time : Js.number;
  requests : list ParsedRequest.t;
  description : string }.
End Milestone.

Module Impact.
Inductive t : Type := high | medium | low.
End Impact.

Module BlockingResource.
Record t := mk {
  request : ParsedRequest.t;
  blockingType : RequestType;
  isInHead : bool;
  blockingDuration : Q;
  impact : Impact.t }.
End BlockingResource.

Module WaitingPeriod.
Record t := mk {
  startTime : Q;
  endTime : Q;
  duration : Q;
  reason : string;
  relatedRequests : list ParsedRequest.t;
  severity : SeverityLevel }.
End WaitingPeriod.

Module Summary.
Record t := mk {
  timeToFirstPaint : Js.number;
  timeToInteractive : Js.number;
  totalBlockingTime : Q;
  longestApiChain : Js.number;
  criticalPath : list ParsedRequest.t }.
End Summary.

Module UXTimelineResult.
Record t := mk {
  milestones : list Milestone.t;
  blockingResources : list BlockingResource.t;
  apiChains : list ApiChain.t;
  waitingPeriods : list WaitingPeriod.t;
  summary : Summary.t }.
End UXTimelineResult.

Definition isDocument (r : ParsedRequest.t) : bool :=
  match ParsedRequest.type r with document => true | _ => false end.

Definition isScriptOrStylesheet (r : ParsedRequest.t) : bool :=
  match ParsedRequest.type r with script | stylesheet => true | _ => false end.

Definition isCriticalResource (r : ParsedRequest.t) : bool :=
  match ParsedRequest.type r with
  | document | script | stylesheet | xhr | fetch => true
  | _ => false
  end.

(** [htmlRequest ? htmlRequest.startTime + htmlRequest.time : 0] *)
Definition htmlEndTimeOf (requests : list ParsedRequest.t) : Q :=
  match List.find isDocument requests with
  | Some htmlRequest => endTime htmlRequest
  | None => 0%Q
  end.

(** [apiRequests.reduce((earliest, current) => ...)], without an initial
    value: the first element starts the reduction. *)
Definition earlierEnd (earliest current : ParsedRequest.t) : ParsedRequest.t :=
  if negb (Qle_bool (endTime earliest) (endTime current)) then current else earliest.

Definition byTime (a b : Milestone.t) : Js.number :=
  Js.sub (Milestone.time a) (Milestone.time b).

Definition identifyMilestones (requests : list ParsedRequest.t) : list Milestone.t :=
  let milestones := [] in
  let htmlRequest := List.find isDocument requests in
  let milestones :=
    match htmlRequest with
    | Some html =>
        (milestones ++
         [Milestone.mk html_loaded "HTML 載入完成" (Js.Fin (endTime html)) [html]
            ("主文件 " ++ Js.Z_toString (Js.round (ParsedRequest.time html))
               ++ "ms 載入完成")])%list
    | None => milestones
    end in
  let htmlEndTime := htmlEndTimeOf requests in
  let renderBlockingResources :=
    List.filter
      (fun r => isScriptOrStylesheet r
                && Qle_bool (ParsedRequest.startTime r) (htmlEndTime + 100))
      requests in
  let milestones :=
    if Nat.ltb 0 (length renderBlockingResources) then
      let lastBlockingTime := Js.Math_max (map endTime renderBlockingResources) in
      (milestones ++
       [Milestone.mk render_blocking_done "渲染阻塞資源完成" lastBlockingTime
          renderBlockingResources
          (Js.Z_toString (Z.of_nat (length renderBlockingResources))
             ++ " 個阻塞資源載入完成")])%list
    else milestones in
  let apiRequests := List.filter isApiRequest requests in
  let milestones :=
    match apiRequests with
    | first :: others =>
        let firstApi := fold_left earlierEnd others first in
        (milestones ++
         [Milestone.mk first_api_response "首個 API 回應" (Js.Fin (endTime firstApi))
            [firstApi]
            ("首個資料請求 " ++ Js.Z_toString (Js.round (ParsedRequest.time firstApi))
               ++ "ms 完成")])%list
    | [] => milestones
    end in
  let criticalResources := List.filter isCriticalResource requests in
  let milestones :=
    if Nat.ltb 0 (length criticalResources) then
      let lastCriticalTime := Js.Math_max (map endTime criticalResources) in
      let lastCritical :=
        List.find (fun r => Js.strict_eq (Js.Fin (endTime r)) lastCriticalTime)
          criticalResources in
      (milestones ++
       [Milestone.mk critical_resources_done "關鍵資源完成" lastCriticalTime
          match lastCritical with Some r => [r] | None => [] end
          "所有關鍵資源載入完成"])%list
    else milestones in
  Js.sort byTime milestones.

Definition impactOf (blockingDuration : Q) : Impact.t :=
  if Qle_bool UX_THRESHOLDS.blockingTimeCritical blockingDuration then Impact.high
  else if Qle_bool UX_THRESHOLDS.blockingTimeWarning blockingDuration then Impact.medium
  else Impact.low.

Definition byBlockingDurationDesc (a b : BlockingResource.t) : Js.number :=
  Js.Fin (BlockingResource.blockingDuration b - BlockingResource.blockingDuration a).

Definition identifyBlockingResources (requests : list ParsedRequest.t)
    : list BlockingResource.t :=
  let htmlEndTime := htmlEndTimeOf requests in
  let potentialBlocking :=
    List.filter
      (fun r => isScriptOrStylesheet r
                && Qle_bool (ParsedRequest.startTime r) (htmlEndTime + 50))
      requests in
  let blockingResources :=
    map (fun request =>
           BlockingResource.mk request (ParsedRequest.type request)
             (Qle_bool (ParsedRequest.startTime request) htmlEndTime)
             (ParsedRequest.time request)
             (impactOf (ParsedRequest.time request)))
        potentialBlocking in
  Js.sort byBlockingDurationDesc blockingResources.

Definition byDurationDesc (a b : WaitingPeriod.t) : Js.number :=
  Js.Fin (WaitingPeriod.duration b - WaitingPeriod.duration a).

Definition blockingPeriod (blocking : BlockingResource.t) : WaitingPeriod.t :=
  WaitingPeriod.mk
    (ParsedRequest.startTime (BlockingResource.request blocking))
    (ParsedRequest.startTime (BlockingResource.request blocking)
     + ParsedRequest.time (BlockingResource.request blocking))
    (BlockingResource.blockingDuration blocking)
    ((match BlockingResource.blockingType blocking with
      | script => "JavaScript"
      | _ => "CSS"
      end) ++ " 阻塞渲染")
    [BlockingResource.request blocking]
    match BlockingResource.impact blocking with
    | Impact.high => critical
    | Impact.medium => warning
    | Impact.low => normal
    end.

Definition apiPeriod (api : ParsedRequest.t) : WaitingPeriod.t :=
  WaitingPeriod.mk (ParsedRequest.startTime api)
    (ParsedRequest.startTime api + ParsedRequest.time api)
    (ParsedRequest.time api) "API 回應緩慢" [api] (ParsedRequest.severity api).

Definition identifyWaitingPeriods (requests : list ParsedRequest.t)
    (blockingResources : list BlockingResource.t) : list WaitingPeriod.t :=
  let periods :=
    map blockingPeriod
      (List.filter
         (fun blocking =>
            Qle_bool UX_THRESHOLDS.waitingPeriodMin
              (BlockingResource.blockingDuration blocking))
         blockingResources) in
  let slowApis :=
    List.filter
      (fun r => isApiRequest r && negb (Qle_bool (ParsedRequest.time r) 500))
      requests in
  let periods := (periods ++ map apiPeriod slowApis)%list in
  Js.sort byDurationDesc periods.

Definition milestoneOfType (wanted : MilestoneType) (m : Milestone.t) : bool :=
  match wanted, Milestone.type m with
  | html_loaded, html_loaded
  | render_blocking_done, render_blocking_done
  | first_api_response, first_api_response
  | critical_resources_done, critical_resources_done => true
  | _, _ => false
  end.

Definition isCriticalPath (r : ParsedRequest.t) : bool :=
  match ParsedRequest.type r with
  | document | script | stylesheet => true
  | _ => false
  end.

Definition calculateSummary (milestones : list Milestone.t)
    (blockingResources : list BlockingResource.t) (apiChains : list ApiChain.t)
    (requests : list ParsedRequest.t) : Summary.t :=
  let baseTime :=
    if Nat.ltb 0 (length requests)
    then Js.Math_min (map ParsedRequest.startTime requests)
    else Js.Fin 0 in
  let renderBlockingMilestone :=
    List.find (milestoneOfType render_blocking_done) milestones in
  let criticalMilestone :=
    List.find (milestoneOfType critical_resources_done) milestones in
  let timeToFirstPaint :=
    match renderBlockingMilestone with
    | Some m => Js.sub (Milestone.time m) baseTime
    | None => Js.Fin 0
    end in
  let timeToInteractive :=
    match criticalMilestone with
    | Some m => Js.sub (Milestone.time m) baseTime
    | None => Js.Fin 0
    end in
  let totalBlockingTime := sumOf BlockingResource.blockingDuration blockingResources in
  let longestApiChain :=
    if Nat.ltb 0 (length apiChains)
    then Js.Math_max (map ApiChain.totalDuration apiChains)
    else Js.Fin 0 in
  let criticalPath := Js.sort byStartTime (List.filter isCriticalPath requests) in
  Summary.mk timeToFirstPaint timeToInteractive totalBlockingTime longestApiChain
    criticalPath.

(** The result is [None] when the chain walk is still running after its
    fuel (see [chainLoop]). *)
Definition analyzeUXTimeline (region : RegionData.t) : option UXTimelineResult.t :=
  let requests := RegionData.requests region in
  let milestones := identifyMilestones requests in
  let blockingResources := identifyBlockingResources requests in
  match analyzeApiChains requests with
  | Some apiChains =>
      let waitingPeriods := identifyWaitingPeriods requests blockingResources in
      let summary := calculateSummary milestones blockingResources apiChains requests in
      Some (UXTimelineResult.mk milestones blockingResources apiChains waitingPeriods
              summary)
  | None => None
  end.

(** * Specification-side definitions and sample inputs *)

(** The severity table of the specification, as (warning, critical) in
    milliseconds: api requests 500/1000, script, stylesheet and font
    500/1500, image, document and other 1000/3000.  A [media] request has
    no row of its own and is measured against the row of [other]. *)
Definition spec_thresholds (type : RequestType) : Q * Q :=
  match type with
  | xhr | fetch => (500, 1000)
  | script | stylesheet | font => (500, 1500)
  | image | document | other | media => (1000, 3000)
  end%Q.

Definition noTimings : HarTimings.t := HarTimings.mk None None None None 0 0 0.

Definition sampleEntry (startedDateTime : Z) (time : Q) (url mimeType : string)
    (timings : HarTimings.t) : HarEntry.t :=
  HarEntry.mk startedDateTime time (HarRequest.mk "GET" url [])
    (HarResponse.mk 200 (HarContent.mk 0 mimeType) 0) timings.

Definition harOf (entries : list HarEntry.t) : HarFile.t :=
  HarFile.mk (HarLog.mk entries).

(** A capture in chronological order. *)
Definition chronologicalHar : HarFile.t :=
  harOf [ sampleEntry 1700000000000 200 "https://example.com/" "text/html" noTimings;
          sampleEntry 1700000000210 2000 "https://example.com/app.js"
            "application/javascript" noTimings ].

(** A capture whose second entry started half a second before the first. *)
Definition unorderedHar : HarFile.t :=
  harOf [ sampleEntry 1700000001000 200 "https://example.com/" "text/html" noTimings;
          sampleEntry 1700000000500 100 "https://example.com/api/data"
            "application/json" noTimings ].


(** Two entries with the same MIME type, URL, duration and headers, and
    different DNS phases. *)
Definition fastDnsEntry : HarEntry.t :=
  sampleEntry 1700000000000 300 "https://example.com/api/data" "application/json"
    (HarTimings.mk None (Some 20%Q) None None 0 0 0).

Definition slowDnsEntry : HarEntry.t :=
  sampleEntry 1700000000000 300 "https://example.com/api/data" "application/json"
    (HarTimings.mk None (Some 150%Q) None None 0 0 0).

(** The entry [fastDnsEntry] as another capture would record it: a later
    start, another method, status and sizes; MIME type, URL, headers,
    duration and timings are the same. *)
Definition fastDnsEntryAgain : HarEntry.t :=
  HarEntry.mk 1700000005000 300
    (HarRequest.mk "POST" "https://example.com/api/data" [])
    (HarResponse.mk 201 (HarContent.mk 512 "application/json") 256)
    (HarTimings.mk None (Some 20%Q) None None 0 0 0).

(** A URL parser for the samples.  It accepts the absolute [http] and
    [https] URLs of the form [scheme://host[:port][/path][?query][#fragment]]
    and rejects every other string. *)
Fixpoint splitAt (stop : ascii -> bool) (s : string) : string * string :=
  match s with
  | EmptyString => (EmptyString, EmptyString)
  | String c s' =>
      if stop c then (EmptyString, s)
      else let (before, after) := splitAt stop s' in (String c before, after)
  end.

Definition isOneOf (cs : list ascii) (c : ascii) : bool :=
  existsb (Ascii.eqb c) cs.

Definition sampleParseAuthority (scheme rest : string) : result URL.t :=
  let (host, afterHost) := splitAt (isOneOf ["/"; "?"; "#"]%char) rest in
  let (path, _) := splitAt (isOneOf ["?"; "#"]%char) afterHost in
  if String.eqb host "" then Throw "TypeError: Invalid URL"
  else
    Ok (URL.mk (scheme ++ "://" ++ host)
          (if String.eqb path "" then "/" else path)
          (fst (splitAt (isOneOf [":"]%char) host))).

Definition sample_new_URL (url : string) : result URL.t :=
  if String.prefix "https://" url
  then sampleParseAuthority "https" (String.substring 8 (String.length url - 8) url)
  else if String.prefix "http://" url
  then sampleParseAuthority "http" (String.substring 7 (String.length url - 7) url)
  else Throw "TypeError: Invalid URL".

Definition quoted (s : string) : string :=
  String (ascii_of_nat 34) s ++ String (ascii_of_nat 34) EmptyString.

Definition joinWith (separator : string) (parts : list string) : string :=
  match parts with
  | [] => ""
  | p :: ps => fold_left (fun acc x => acc ++ separator ++ x) ps p
  end.

(** A serializer for the samples; the payloads of the engine hold strings
    without special characters and whole numbers. *)
Fixpoint sample_stringify (j : Json.t) : string :=
  match j with
  | Json.Str s => quoted s
  | Json.Num (Js.Fin q) => Js.Z_toString (Qfloor q)
  | Json.Num _ => "null"
  | Json.Arr items => "[" ++ joinWith "," (map sample_stringify items) ++ "]"
  | Json.Obj fields =>
      "{" ++ joinWith ","
               (map (fun field =>
                       match field with
                       | (key, v) => quoted key ++ ":" ++ sample_stringify v
                       end)
                    fields)
          ++ "}"
  end.

Definition samplePlatform : Platform :=
  {| new_URL := sample_new_URL; JSON_stringify := sample_stringify |}.

(** A canonical URL is observed in a region when one of the region's
    requests has it as its base URL. *)
Definition observedIn `{Platform} (key : string) (region : RegionData.t) : Prop :=
  ∃ request,
    request ∈ RegionData.requests region
    ∧ getBaseUrl (ParsedRequest.url request) = Ok key.

(** The representative durations that a comparison lists for its regions. *)
Definition timesOf (regionResults : list RegionResult.t) : list Q :=
  map RegionResult.time regionResults.

(** The spread of a list of durations, [Math.max(...times) - Math.min(...times)]. *)
Definition spreadOf (times : list Q) : Js.number :=
  Js.sub (Js.Math_max times) (Js.Math_min times).

(** The region that [parseHarFile] returns for a sample capture (the
    samples are not empty, the second branch is not taken for them). *)
Definition regionOf (har : HarFile.t) (regionName fileName : string) : RegionData.t :=
  match parseHarFile har regionName fileName with
  | Ok region => region
  | Throw _ => RegionData.mk regionName fileName [] Js.NegInfinity 0 0 0 []
  end.



(** In how many comparisons a region is the slowest party. *)
Definition isSlowest (region : string) (c : ComparisonResult.t) : bool :=
  String.eqb (ComparisonResult.slowestRegion c) region.

Definition slowestCount (region : string) (comparisons : list ComparisonResult.t) : nat :=
  length (List.filter (isSlowest region) comparisons).

(** The average disparity of a region: the mean of [maxDiff] over the
    comparisons in which the region is the slowest party. *)
Definition averageDisparity (region : string) (comparisons : list ComparisonResult.t)
    : Js.number :=
  Js.div (sumMaxDiff (List.filter (isSlowest region) comparisons))
    (num_of_nat (slowestCount region comparisons)).

(** ** Chain construction, in the words of the specification *)

(** [next] starts within the gap after [current]: its start lies in the
    closed window from the end of [current] to 50 ms after it. *)
Definition inWindow (current next : ParsedRequest.t) : Prop :=
  (endTime current <= ParsedRequest.startTime next)%Q
  ∧ (ParsedRequest.startTime next <= endTime current + 50)%Q.

Definition unvisited (visited : gset string) (r : ParsedRequest.t) : Prop :=
  ParsedRequest.id r ∉ visited.

(** [extends candidates visited current tail visited']: starting from the
    chain end [current], with the requests of [visited] taken, the chain is
    extended by [tail]: each link is a candidate that is not yet visited,
    starts within the window of its predecessor, and starts no later than
    any other such candidate; the extension stops when no candidate
    qualifies.  [visited'] is the visited set afterwards. *)
Inductive extends (candidates : list ParsedRequest.t)
    : gset string → ParsedRequest.t → list ParsedRequest.t → gset string → Prop :=
| extends_stop visited current :
    (∀ r, r ∈ candidates → unvisited visited r → ¬ inWindow current r) →
    extends candidates visited current [] visited
| extends_step visited current next tail visited' :
    next ∈ candidates →
    unvisited visited next →
    inWindow current next →
    (∀ r, r ∈ candidates → unvisited visited r → inWindow current r →
          (ParsedRequest.startTime next <= ParsedRequest.startTime r)%Q) →
    extends candidates ({[ParsedRequest.id next]} ∪ visited) next tail visited' →
    extends candidates visited current (next :: tail) visited'.

(** [walks candidates visited todo chains]: walking [todo] in order, every
    request that is not yet visited starts a chain, which is extended as
    far as it goes; [chains] are the chains in the order of their starts,
    each as the list of its requests. *)
Inductive walks (candidates : list ParsedRequest.t)
    : gset string → list ParsedRequest.t → list (list ParsedRequest.t) → Prop :=
| walks_done visited : walks candidates visited [] []
| walks_skip visited r todo chains :
    ¬ unvisited visited r →
    walks candidates visited todo chains →
    walks candidates visited (r :: todo) chains
| walks_start visited r todo tail visited' chains :
    unvisited visited r →
    extends candidates ({[ParsedRequest.id r]} ∪ visited) r tail visited' →
    walks candidates visited' todo chains →
    walks candidates visited (r :: todo) ((r :: tail) :: chains).

Definition chainRequests (chain : ApiChain.t) : list ParsedRequest.t :=
  map ApiChainNode.request (ApiChain.nodes chain).

Definition chainIds (chain : ApiChain.t) : list string :=
  map ParsedRequest.id (chainRequests chain).

Definition moreThanOneNode (chain : ApiChain.t) : bool :=
  Nat.ltb 1 (length (ApiChain.nodes chain)).

(** The nodes of a chain carry the start and the end of their requests,
    and the chain's total duration is the end of its last node minus the
    start of its first. *)
Definition chainWellFormed (chain : ApiChain.t) : Prop :=
  Forall (fun n =>
            ApiChainNode.startTime n = ParsedRequest.startTime (ApiChainNode.request n)
            ∧ ApiChainNode.endTime n = endTime (ApiChainNode.request n))
         (ApiChain.nodes chain)
  ∧ ∃ first final,
      head (ApiChain.nodes chain) = Some first
      ∧ last (ApiChain.nodes chain) = Some final
      ∧ ApiChain.totalDuration chain
        = (ApiChainNode.endTime final - ApiChainNode.startTime first)%Q.

(** An API call of the samples, [offset] ms after the start of the capture. *)
Definition apiCall (offset : Z) (time : Q) (path : string) : HarEntry.t :=
  sampleEntry (1700000000000 + offset) time ("https://example.com" ++ path)
    "application/json" noTimings.

(** Three endpoints that Tokyo serves 300, 400 and 500 ms slower than
    Taipei, and one that only Tokyo calls. *)
Definition taipeiRegion : RegionData.t :=
  regionOf (harOf [apiCall 0 100 "/a?r=tw"; apiCall 10 100 "/b"; apiCall 20 100 "/c"])
    "Taipei" "taipei.har".

Definition tokyoRegion : RegionData.t :=
  regionOf
    (harOf [apiCall 0 400 "/a?r=jp"; apiCall 10 500 "/b"; apiCall 20 600 "/c";
            apiCall 30 50 "/only-here"])
    "Tokyo" "tokyo.har".

(** Four API calls: the second starts 40 ms after the end of the first,
    the others start more than 50 ms after the end of any other call. *)
Definition chainedRegion : RegionData.t :=
  regionOf
    (harOf [apiCall 0 100 "/a"; apiCall 140 30 "/b"; apiCall 300 10 "/c";
            apiCall 231 5 "/d"])
    "Taipei" "taipei.har".

(** * Properties *)

Local Open Scope list_scope.
Local Open Scope nat_scope.

(** ** Numbers *)

Lemma Qle_bool_false_lt (x y : Q) : Qle_bool x y = false -> (y < x)%Q.
Proof.
  intros E. apply Qnot_le_lt. intros L.
  apply Qle_bool_iff in L. congruence.
Qed.

Lemma Qle_bool_true_le (x y : Q) : Qle_bool x y = true -> (x <= y)%Q.
Proof. apply Qle_bool_iff. Qed.

Lemma Qle_bool_of_le (x y : Q) : (x <= y)%Q -> Qle_bool x y = true.
Proof. apply Qle_bool_iff. Qed.

Lemma Qle_bool_of_lt (x y : Q) : (y < x)%Q -> Qle_bool x y = false.
Proof.
  intros L. destruct (Qle_bool x y) eqn:E; [|done].
  apply Qle_bool_iff in E. lra.
Qed.

(** The largest element so far, as the fold of [Math.max] carries it. *)
Lemma max_fold_spec (xs : list Q) (a : Q) :
  ∃ m, fold_left (fun acc x => Js.max2 acc (Js.Fin x)) xs (Js.Fin a) = Js.Fin m
       ∧ m ∈ a :: xs
       ∧ ∀ y, y ∈ a :: xs → (y <= m)%Q.
Proof.
  revert a. induction xs as [|x xs IH]; intros a; simpl.
  - exists a. split; [done|]. split; [left|].
    intros y Hy. apply list_elem_of_singleton in Hy as ->. lra.
  - destruct (Qle_bool a x) eqn:E.
    + destruct (IH x) as (m & Hm & Hin & Hle).
      exists m. split; [done|]. split; [by right|].
      intros y Hy. apply elem_of_cons in Hy as [->|Hy]; [|by apply Hle].
      apply Qle_bool_true_le in E. specialize (Hle x ltac:(left)). lra.
    + destruct (IH a) as (m & Hm & Hin & Hle).
      exists m. split; [done|]. split.
      * apply elem_of_cons in Hin as [->|Hin]; [left|right; by right].
      * intros y Hy. apply elem_of_cons in Hy as [->|Hy]; [apply Hle; left|].
        apply elem_of_cons in Hy as [->|Hy]; [|apply Hle; by right].
        apply Qle_bool_false_lt in E. specialize (Hle a ltac:(left)). lra.
Qed.

Lemma min_fold_spec (xs : list Q) (a : Q) :
  ∃ m, fold_left (fun acc x => Js.min2 acc (Js.Fin x)) xs (Js.Fin a) = Js.Fin m
       ∧ m ∈ a :: xs
       ∧ ∀ y, y ∈ a :: xs → (m <= y)%Q.
Proof.
  revert a. induction xs as [|x xs IH]; intros a; simpl.
  - exists a. split; [done|]. split; [left|].
    intros y Hy. apply list_elem_of_singleton in Hy as ->. lra.
  - destruct (Qle_bool x a) eqn:E.
    + destruct (IH x) as (m & Hm & Hin & Hle).
      exists m. split; [done|]. split; [by right|].
      intros y Hy. apply elem_of_cons in Hy as [->|Hy]; [|by apply Hle].
      apply Qle_bool_true_le in E. specialize (Hle x ltac:(left)). lra.
    + destruct (IH a) as (m & Hm & Hin & Hle).
      exists m. split; [done|]. split.
      * apply elem_of_cons in Hin as [->|Hin]; [left|right; by right].
      * intros y Hy. apply elem_of_cons in Hy as [->|Hy]; [apply Hle; left|].
        apply elem_of_cons in Hy as [->|Hy]; [|apply Hle; by right].
        apply Qle_bool_false_lt in E. specialize (Hle a ltac:(left)). lra.
Qed.

(** [Math.max] of a non-empty list is one of its elements, and the
    largest. *)
Lemma Math_max_nonempty (x : Q) (xs : list Q) :
  ∃ m, Js.Math_max (x :: xs) = Js.Fin m
       ∧ m ∈ x :: xs
       ∧ ∀ y, y ∈ x :: xs → (y <= m)%Q.
Proof. unfold Js.Math_max. simpl. apply max_fold_spec. Qed.

Lemma Math_min_nonempty (x : Q) (xs : list Q) :
  ∃ m, Js.Math_min (x :: xs) = Js.Fin m
       ∧ m ∈ x :: xs
       ∧ ∀ y, y ∈ x :: xs → (m <= y)%Q.
Proof. unfold Js.Math_min. simpl. apply min_fold_spec. Qed.

(** ** Severity *)

(** C3. Severity is read off the threshold table of the request's type with
    inclusive bounds: a duration at or above the critical threshold is
    critical, one at or above the warning threshold and below the critical
    one is a warning, anything below is normal; in particular a duration
    equal to the warning threshold is a warning and one equal to the
    critical threshold is critical.  Every parsed request gets the severity
    of its total duration and type. *)
Theorem getSeverity_inclusive_thresholds (time : Q) (type : RequestType) :
  let w := fst (spec_thresholds type) in
  let c := snd (spec_thresholds type) in
  ((c <= time)%Q → getSeverity time type = critical)
  ∧ ((w <= time)%Q → (time < c)%Q → getSeverity time type = warning)
  ∧ ((time < w)%Q → getSeverity time type = normal)
  ∧ getSeverity w type = warning
  ∧ getSeverity c type = critical
  ∧ ∀ regionName baseTime index entry,
      let r := parseEntry regionName baseTime index entry in
      ParsedRequest.time r = HarEntry.time entry
      ∧ ParsedRequest.severity r
        = getSeverity (ParsedRequest.time r) (ParsedRequest.type r).
Proof.
  simpl.
  assert (Hgen : ∀ t,
    getSeverity t type =
      if Qle_bool (snd (spec_thresholds type)) t then critical
      else if Qle_bool (fst (spec_thresholds type)) t then warning
      else normal) by (intros t; destruct type; reflexivity).
  repeat split.
  - intros Hc. rewrite Hgen, (Qle_bool_of_le _ _ Hc). done.
  - intros Hw Hc. rewrite Hgen, (Qle_bool_of_lt _ _ Hc), (Qle_bool_of_le _ _ Hw). done.
  - intros Hw. rewrite Hgen.
    assert (fst (spec_thresholds type) <= snd (spec_thresholds type))%Q
      by (destruct type; simpl; lra).
    rewrite !Qle_bool_of_lt; [done|lra..].
  - destruct type; reflexivity.
  - destruct type; reflexivity.
Qed.

(** ** Parsing *)

Lemma parseHarFile_requests har regionName fileName region :
  parseHarFile har regionName fileName = Ok region →
  ∃ first rest,
    HarLog.entries (HarFile.log har) = first :: rest
    ∧ RegionData.requests region
      = imap (parseEntry regionName (HarEntry.startedDateTime first)) (first :: rest)
    ∧ RegionData.totalTime region
      = Js.Math_max (map endTime (RegionData.requests region)).
Proof.
  unfold parseHarFile. destruct (HarLog.entries (HarFile.log har)) as [|first rest]; [done|].
  intros [= <-]. exists first, rest. done.
Qed.

Lemma startTime_imap regionName baseTime (entries : list HarEntry.t) :
  map ParsedRequest.startTime (imap (parseEntry regionName baseTime) entries)
  = map (fun e => inject_Z (HarEntry.startedDateTime e - baseTime)) entries.
Proof.
  change (map ParsedRequest.startTime) with (fmap (M:=list) ParsedRequest.startTime).
  rewrite fmap_imap. apply imap_const.
Qed.

(** C1, as the code has it.  The start offsets of a parsed capture are
    taken from the first entry of the document: each [startTime] is the
    entry's start minus the start of the first entry, and the first request
    has offset 0.  When no entry starts before the first one, every offset
    is at least 0, so that 0 is the smallest offset of the region. *)
Theorem startTime_relative_to_first_entry har regionName fileName region :
  parseHarFile har regionName fileName = Ok region →
  ∃ first rest,
    HarLog.entries (HarFile.log har) = first :: rest
    ∧ map ParsedRequest.startTime (RegionData.requests region)
      = map (fun e =>
               inject_Z (HarEntry.startedDateTime e - HarEntry.startedDateTime first))
            (first :: rest)
    ∧ (∃ r0 rs, RegionData.requests region = r0 :: rs
                ∧ (ParsedRequest.startTime r0 == 0)%Q)
    ∧ ((∀ e, e ∈ first :: rest →
             (HarEntry.startedDateTime first <= HarEntry.startedDateTime e)%Z) →
       ∀ r, r ∈ RegionData.requests region → (0 <= ParsedRequest.startTime r)%Q).
Proof.
  intros Hparse.
  destruct (parseHarFile_requests _ _ _ _ Hparse) as (first & rest & Hentries & Hreqs & _).
  exists first, rest. split; [done|].
  assert (Hmap : map ParsedRequest.startTime (RegionData.requests region)
                 = map (fun e => inject_Z (HarEntry.startedDateTime e
                                           - HarEntry.startedDateTime first))
                       (first :: rest))
    by (rewrite Hreqs; apply startTime_imap).
  split; [done|]. split.
  - rewrite Hreqs. simpl. eexists _, _. split; [reflexivity|].
    simpl. rewrite Z.sub_diag. reflexivity.
  - intros Hfirst r Hr.
    assert (Hin : ParsedRequest.startTime r
                  ∈ map ParsedRequest.startTime (RegionData.requests region))
      by (apply list_elem_of_fmap; eauto).
    rewrite Hmap in Hin. apply list_elem_of_fmap in Hin as (e & -> & He).
    specialize (Hfirst e He).
    change 0%Q with (inject_Z 0). rewrite <- Zle_Qle. lia.
Qed.

(** The chronological sample capture satisfies the ordering condition, and
    its offsets are 0 and 210. *)
Lemma startTime_relative_to_first_entry_witness :
  ∃ region,
    parseHarFile chronologicalHar "tw" "tw.har" = Ok region
    ∧ ∃ first rest,
        HarLog.entries (HarFile.log chronologicalHar) = first :: rest
        ∧ map ParsedRequest.startTime (RegionData.requests region)
          = map (fun e =>
                   inject_Z (HarEntry.startedDateTime e
                             - HarEntry.startedDateTime first))
                (first :: rest)
        ∧ (∃ r0 rs, RegionData.requests region = r0 :: rs
                    ∧ (ParsedRequest.startTime r0 == 0)%Q)
        ∧ ((∀ e, e ∈ first :: rest →
                 (HarEntry.startedDateTime first <= HarEntry.startedDateTime e)%Z) →
           ∀ r, r ∈ RegionData.requests region → (0 <= ParsedRequest.startTime r)%Q).
Proof.
  eexists. split; [reflexivity|].
  apply (startTime_relative_to_first_entry chronologicalHar "tw" "tw.har").
  reflexivity.
Defined.

(** C1 fails as stated: in the capture whose second entry started 500 ms
    before the first, the second request has the offset -500. *)
Lemma startTime_negative_when_unordered :
  ∃ region,
    parseHarFile unorderedHar "tw" "tw.har" = Ok region
    ∧ map ParsedRequest.startTime (RegionData.requests region) = [0%Q; (-500)%Q]
    ∧ ∃ r, r ∈ RegionData.requests region ∧ (ParsedRequest.startTime r < 0)%Q.
Proof.
  eexists. split; [reflexivity|]. split; [reflexivity|].
  eexists. split; [right; left|]. reflexivity.
Qed.



(** ** Classification *)

Lemma Qle_bool_Qeq (c x y : Q) : (x == y)%Q → Qle_bool c x = Qle_bool c y.
Proof.
  intros E. destruct (Qle_bool c y) eqn:Hy.
  - apply Qle_bool_iff. apply Qle_bool_iff in Hy. lra.
  - apply Qle_bool_of_lt. apply Qle_bool_false_lt in Hy. lra.
Qed.

Lemma getSeverity_Qeq (x y : Q) (type : RequestType) :
  (x == y)%Q → getSeverity x type = getSeverity y type.
Proof.
  intros E. unfold getSeverity.
  by rewrite !(Qle_bool_Qeq _ x y E).
Qed.

(** C8, as the code has it.  The request type is a function of the MIME
    type, the URL and the request headers; the severity is a function of
    the type and the duration; the issues are a function of the timing
    breakdown.  Two entries that agree on MIME type, URL, headers, duration
    and timings are classified alike, whatever their region, position,
    start, method, status or sizes. *)
Theorem classification_is_determined
    (regionName1 regionName2 : string) (baseTime1 baseTime2 : Z)
    (index1 index2 : nat) (e1 e2 : HarEntry.t) :
  HarContent.mimeType (HarResponse.content (HarEntry.response e1))
    = HarContent.mimeType (HarResponse.content (HarEntry.response e2)) →
  HarRequest.url (HarEntry.request e1) = HarRequest.url (HarEntry.request e2) →
  HarRequest.headers (HarEntry.request e1) = HarRequest.headers (HarEntry.request e2) →
  (HarEntry.time e1 == HarEntry.time e2)%Q →
  HarEntry.timings e1 = HarEntry.timings e2 →
  let r1 := parseEntry regionName1 baseTime1 index1 e1 in
  let r2 := parseEntry regionName2 baseTime2 index2 e2 in
  ParsedRequest.type r1 = ParsedRequest.type r2
  ∧ ParsedRequest.severity r1 = ParsedRequest.severity r2
  ∧ ParsedRequest.issues r1 = ParsedRequest.issues r2.
Proof.
  intros Hmime Hurl Hheaders Htime Htimings. simpl.
  assert (Htype : getRequestType e1 = getRequestType e2)
    by (unfold getRequestType; rewrite Hmime, Hurl, Hheaders; reflexivity).
  split; [exact Htype|]. split.
  - rewrite Htype. by apply getSeverity_Qeq.
  - by rewrite Htimings.
Qed.

Lemma classification_is_determined_witness :
  let r1 := parseEntry "tw" 1700000000000 0 fastDnsEntry in
  let r2 := parseEntry "us" 1700000004000 7 fastDnsEntryAgain in
  ParsedRequest.type r1 = ParsedRequest.type r2
  ∧ ParsedRequest.severity r1 = ParsedRequest.severity r2
  ∧ ParsedRequest.issues r1 = ParsedRequest.issues r2.
Proof.
  apply (classification_is_determined "tw" "us" 1700000000000 1700000004000 0 7
           fastDnsEntry fastDnsEntryAgain); reflexivity.
Defined.

(** C8 fails as stated: two entries with the same MIME type, URL, duration
    and headers get different issue lists when their DNS phases differ. *)
Lemma issues_depend_on_timings :
  HarContent.mimeType (HarResponse.content (HarEntry.response fastDnsEntry))
    = HarContent.mimeType (HarResponse.content (HarEntry.response slowDnsEntry))
  ∧ HarRequest.url (HarEntry.request fastDnsEntry)
    = HarRequest.url (HarEntry.request slowDnsEntry)
  ∧ HarEntry.time fastDnsEntry = HarEntry.time slowDnsEntry
  ∧ HarRequest.headers (HarEntry.request fastDnsEntry)
    = HarRequest.headers (HarEntry.request slowDnsEntry)
  ∧ ParsedRequest.issues (parseEntry "tw" 1700000000000 0 fastDnsEntry) = []
  ∧ ParsedRequest.issues (parseEntry "tw" 1700000000000 0 slowDnsEntry)
    = ["DNS 查詢過慢 (150ms)"].
Proof. repeat split; reflexivity. Qed.

(** ** Loops and maps *)

(** A loop whose body keeps an invariant of the processed prefix and of
    the state neither throws nor breaks the invariant. *)
Lemma for_of_prefix_invariant {A S} (f : S → A → result S)
    (Inv : list A → S → Prop) (xs done : list A) (s : S) :
  Inv done s →
  (∀ pre x s, (∃ post, done ++ xs = pre ++ x :: post) → Inv pre s →
              ∃ s', f s x = Ok s' ∧ Inv (pre ++ [x]) s') →
  ∃ s', for_of f xs s = Ok s' ∧ Inv (done ++ xs) s'.
Proof.
  revert done s. induction xs as [|x xs IH]; intros done s Hinv Hstep.
  - exists s. by rewrite app_nil_r.
  - destruct (Hstep done x s) as (s1 & Hf & Hinv1); [by exists xs|done|].
    simpl. rewrite Hf. simpl.
    destruct (IH (done ++ [x]) s1 Hinv1) as (s2 & Hfor & Hinv2).
    + intros pre y t Hpost. rewrite <- app_assoc in Hpost. by apply Hstep.
    + exists s2. split; [done|]. by rewrite <- app_assoc in Hinv2.
Qed.

Lemma for_of_invariant {A S} (f : S → A → result S) (Inv : S → Prop)
    (xs : list A) (s : S) :
  Inv s →
  (∀ x s, x ∈ xs → Inv s → ∃ s', f s x = Ok s' ∧ Inv s') →
  ∃ s', for_of f xs s = Ok s' ∧ Inv s'.
Proof.
  intros Hinv Hstep.
  apply (for_of_prefix_invariant f (fun _ => Inv) xs [] s Hinv).
  intros pre x t [post Hpost] Ht. apply Hstep; [|done].
  simpl in Hpost. rewrite Hpost. apply elem_of_app. right. left.
Qed.

Lemma Map_get_elem {V} (m : Js.Map V) k v : Js.Map_get m k = Some v → (k, v) ∈ m.
Proof.
  induction m as [|[k' v'] m IH]; simpl; [done|].
  destruct (String.eqb_spec k k') as [->|Hne].
  - intros [= ->]. left.
  - intros Hget. right. by apply IH.
Qed.

Lemma Map_get_None {V} (m : Js.Map V) k : Js.Map_get m k = None → k ∉ map fst m.
Proof.
  induction m as [|[k' v'] m IH]; simpl.
  - intros _. apply not_elem_of_nil.
  - destruct (String.eqb_spec k k') as [->|Hne]; [done|].
    intros Hget. apply not_elem_of_cons. split; [done|]. by apply IH.
Qed.

Lemma Map_set_elem {V} (m : Js.Map V) k v x :
  x ∈ Js.Map_set m k v → x = (k, v) ∨ x ∈ m.
Proof.
  induction m as [|[k' v'] m IH]; simpl.
  - intros Hx. apply list_elem_of_singleton in Hx. by left.
  - destruct (String.eqb_spec k k') as [->|Hne]; intros Hx.
    + apply elem_of_cons in Hx as [->|Hx]; [by left|]. right. by right.
    + apply elem_of_cons in Hx as [->|Hx]; [right; left|].
      destruct (IH Hx) as [->|Hin]; [by left|]. right. by right.
Qed.

Lemma Map_get_set {V} (m : Js.Map V) k v : Js.Map_get (Js.Map_set m k v) k = Some v.
Proof.
  induction m as [|[k0 v0] m IH]; simpl.
  - by rewrite String.eqb_refl.
  - destruct (String.eqb_spec k k0) as [->|Hne]; simpl.
    + by rewrite String.eqb_refl.
    + by rewrite (proj2 (String.eqb_neq k k0) Hne).
Qed.

Lemma Map_set_keys {V} (m : Js.Map V) k v :
  map fst (Js.Map_set m k v)
  = if Js.Map_has m k then map fst m else (map fst m ++ [k])%list.
Proof.
  unfold Js.Map_has. induction m as [|[k0 v0] m IH]; simpl; [done|].
  destruct (String.eqb_spec k k0) as [->|Hne]; simpl; [done|].
  rewrite IH. by destruct (Js.Map_get m k).
Qed.

Lemma Map_set_keys_NoDup {V} (m : Js.Map V) k v :
  NoDup (map fst m) → NoDup (map fst (Js.Map_set m k v)).
Proof.
  intros Hnd. rewrite Map_set_keys. unfold Js.Map_has.
  destruct (Js.Map_get m k) eqn:Hget; [done|].
  apply NoDup_app. split; [done|]. split.
  - intros x Hx Hk. apply list_elem_of_singleton in Hk as ->.
    by apply (Map_get_None m k).
  - apply NoDup_singleton.
Qed.

(** ** Sorting *)

Lemma sort_insert_Permutation {A} (cmp : A → A → Js.number) (x : A) (l : list A) :
  Js.sort_insert cmp x l ≡ₚ x :: l.
Proof.
  induction l as [|y l IH]; simpl; [done|].
  destruct (Js.gt (cmp x y) (Js.Fin 0)); [|done].
  rewrite IH. apply Permutation_swap.
Qed.

Lemma sort_Permutation {A} (cmp : A → A → Js.number) (l : list A) :
  Js.sort cmp l ≡ₚ l.
Proof.
  induction l as [|x l IH]; simpl; [done|].
  unfold Js.sort in IH. by rewrite sort_insert_Permutation, IH.
Qed.

Lemma elem_of_sort {A} (cmp : A → A → Js.number) (l : list A) (x : A) :
  x ∈ Js.sort cmp l ↔ x ∈ l.
Proof. by rewrite sort_Permutation. Qed.

Lemma gt_Fin_false (x y : Q) : Js.gt (Js.Fin x) (Js.Fin y) = false ↔ (x <= y)%Q.
Proof.
  simpl. rewrite negb_false_iff. apply Qle_bool_iff.
Qed.

(** [a] may stay in front of [b]: the comparator does not ask for a swap. *)
Definition keepsOrder {A} (cmp : A → A → Js.number) (a b : A) : Prop :=
  Js.gt (cmp a b) (Js.Fin 0) = false.

Section SortedOutput.
Context {A : Type} (cmp : A → A → Js.number).
Hypothesis cmp_total : ∀ a b, keepsOrder cmp a b ∨ keepsOrder cmp b a.
Hypothesis cmp_trans : ∀ a b c, keepsOrder cmp a b → keepsOrder cmp b c → keepsOrder cmp a c.

Lemma sort_insert_sorted (x : A) (l : list A) :
  StronglySorted (keepsOrder cmp) l →
  StronglySorted (keepsOrder cmp) (Js.sort_insert cmp x l).
Proof.
  induction l as [|y l IH]; simpl; intros Hs.
  - repeat constructor.
  - apply StronglySorted_inv in Hs as [Hl Hy].
    destruct (Js.gt (cmp x y) (Js.Fin 0)) eqn:E.
    + constructor; [by apply IH|].
      rewrite sort_insert_Permutation. constructor; [|done].
      destruct (cmp_total x y) as [Hxy|Hyx]; [|done].
      unfold keepsOrder in Hxy. congruence.
    + constructor; [by constructor|]. constructor; [done|].
      eapply Forall_impl; [exact Hy|]. intros z Hz. by apply (cmp_trans x y z).
Qed.

Lemma sort_sorted (l : list A) : StronglySorted (keepsOrder cmp) (Js.sort cmp l).
Proof.
  induction l as [|x l IH]; simpl; [constructor|].
  by apply sort_insert_sorted.
Qed.

End SortedOutput.

(** ** The comparator *)

Section ComparatorProperties.
Context `{Platform}.

Lemma getBaseUrl_cases (url : string) :
  match new_URL url with
  | Ok parsed => getBaseUrl url = Ok (URL.origin parsed ++ URL.pathname parsed)%string
  | Throw _ => getBaseUrl url = Ok url
  end.
Proof. unfold getBaseUrl. by destruct (new_URL url). Qed.

Lemma getBaseUrl_Ok (url : string) : ∃ key, getBaseUrl url = Ok key.
Proof.
  pose proof (getBaseUrl_cases url) as Hc.
  destruct (new_URL url); eauto.
Qed.

(** C9. [getBaseUrl] never throws.  A string that the URL parser rejects
    is its own key, unchanged, so that two such strings have the same key
    exactly when they are equal; a string that parses is reduced to its
    origin followed by its path. *)
Theorem getBaseUrl_never_throws (url : string) :
  (∃ key, getBaseUrl url = Ok key)
  ∧ (∀ message, new_URL url = Throw message → getBaseUrl url = Ok url)
  ∧ (∀ parsed, new_URL url = Ok parsed →
       getBaseUrl url = Ok (URL.origin parsed ++ URL.pathname parsed)%string)
  ∧ (∀ other message message',
       new_URL url = Throw message → new_URL other = Throw message' →
       (getBaseUrl url = getBaseUrl other ↔ url = other)).
Proof.
  split; [apply getBaseUrl_Ok|].
  pose proof (getBaseUrl_cases url) as Hc.
  split; [|split].
  - intros message Hm. by rewrite Hm in Hc.
  - intros parsed Hp. by rewrite Hp in Hc.
  - intros other message message' Hm Hm'.
    pose proof (getBaseUrl_cases other) as Hc'.
    rewrite Hm in Hc. rewrite Hm' in Hc'. rewrite Hc, Hc'.
    split; [by intros [= ->]|by intros ->].
Qed.

(** *** The map from canonical URLs to regions *)

(** Every region that [urlMap] lists under a key observed the key, and no
    region is listed twice under one key. *)
Definition urlMapSound (regions : list RegionData.t) (urlMap : UrlMap) : Prop :=
  ∀ key regionMap, (key, regionMap) ∈ urlMap →
    NoDup (map fst regionMap)
    ∧ ∀ name t, (name, t) ∈ regionMap →
        ∃ region, region ∈ regions ∧ RegionData.name region = name
                  ∧ observedIn key region.

Lemma recordRequest_sound regions region request urlMap :
  region ∈ regions → request ∈ RegionData.requests region →
  urlMapSound regions urlMap →
  ∃ urlMap', recordRequest (RegionData.name region) urlMap request = Ok urlMap'
             ∧ urlMapSound regions urlMap'.
Proof.
  intros Hregion Hrequest Hsound. unfold recordRequest.
  destruct (getBaseUrl_Ok (ParsedRequest.url request)) as [key Hkey].
  rewrite Hkey. simpl.
  set (urlMap1 := if negb (Js.Map_has urlMap key) then Js.Map_set urlMap key [] else urlMap).
  assert (Hsound1 : urlMapSound regions urlMap1).
  { subst urlMap1. destruct (Js.Map_has urlMap key); simpl; [done|].
    intros k rm Hin. apply Map_set_elem in Hin as [[= -> ->]|Hin]; [|by apply Hsound].
    split; [constructor|]. intros name t Hnil. by inversion Hnil. }
  assert (Hget : ∃ regionMap, Js.Map_get urlMap1 key = Some regionMap) .
  { subst urlMap1. unfold Js.Map_has.
    destruct (Js.Map_get urlMap key) eqn:Hg; simpl; [eauto|].
    rewrite Map_get_set. eauto. }
  destruct Hget as [regionMap Hget]. rewrite Hget. simpl.
  pose proof (Map_get_elem _ _ _ Hget) as Hin.
  destruct (Hsound1 _ _ Hin) as [Hnodup Hobs].
  match goal with
  | |- ∃ _, (if ?c then _ else _) = _ ∧ _ => destruct c
  end; [|eauto].
  eexists. split; [reflexivity|].
  intros k rm Hk. apply Map_set_elem in Hk as [[= -> ->]|Hk]; [|by apply Hsound1].
  split; [by apply Map_set_keys_NoDup|].
  intros name t Ht. apply Map_set_elem in Ht as [[= -> ->]|Ht]; [|exact (Hobs _ _ Ht)].
  exists region. split; [done|]. split; [done|]. by exists request.
Qed.

Lemma buildUrlMap_sound regions :
  ∃ urlMap, buildUrlMap regions = Ok urlMap ∧ urlMapSound regions urlMap.
Proof.
  unfold buildUrlMap. apply for_of_invariant.
  - intros key rm Hin. by inversion Hin.
  - intros region urlMap Hregion Hsound. unfold recordRegion.
    apply for_of_invariant; [done|].
    intros request urlMap' Hrequest Hsound'. by apply recordRequest_sound.
Qed.

(** *** The loop over the canonical URLs *)

Lemma find_time_eq (rs : list RegionResult.t) (m : Q) :
  m ∈ timesOf rs →
  ∃ r, List.find (fun r => Js.strict_eq (Js.Fin (RegionResult.time r)) (Js.Fin m)) rs
       = Some r.
Proof.
  unfold timesOf. induction rs as [|a rs IH]; simpl; [by intros ?%elem_of_nil|].
  intros Hin. destruct (Qeq_bool (RegionResult.time a) m) eqn:E; [eauto|].
  apply elem_of_cons in Hin as [->|Hin]; [|by apply IH].
  assert (Qeq_bool (RegionResult.time a) (RegionResult.time a) = true)
    by (apply Qeq_bool_iff; reflexivity).
  congruence.
Qed.

Lemma timesOf_nonempty (regionMap : Js.Map RegionTiming.t) :
  2 ≤ length regionMap →
  ∃ t ts, timesOf (regionResultsOf regionMap) = t :: ts.
Proof.
  destruct regionMap as [|e regionMap]; simpl; [lia|]. eauto.
Qed.

(** What one turn of the loop does: a URL listed for fewer than two
    regions, or without a significant spread, adds nothing; any other URL
    adds one comparison at the end. *)
Lemma compareUrl_step comparisons key (regionMap : Js.Map RegionTiming.t) :
  let regionResults := regionResultsOf regionMap in
  let times := timesOf regionResults in
  ∃ comparisons',
    compareUrl comparisons (key, regionMap) = Ok comparisons'
    ∧ (((length regionMap < 2
         ∨ significant (spreadOf times) (Js.Math_min times) = false)
        ∧ comparisons' = comparisons)
       ∨ (2 ≤ length regionMap
          ∧ significant (spreadOf times) (Js.Math_min times) = true
          ∧ ∃ c, comparisons' = comparisons ++ [c]
                 ∧ ComparisonResult.url c = key
                 ∧ ComparisonResult.regions c = regionResults
                 ∧ ComparisonResult.maxDiff c = spreadOf times)).
Proof.
  intros regionResults times. unfold compareUrl. simpl fst. simpl snd.
  unfold Js.Map_size.
  destruct (Nat.ltb_spec (length regionMap) 2) as [Hlt|Hge].
  { exists comparisons. split; [done|]. left. split; [by left|done]. }
  fold regionResults. change (map RegionResult.time regionResults) with times.
  fold (spreadOf times).
  destruct (significant (spreadOf times) (Js.Math_min times)) eqn:Hsig.
  2:{ exists comparisons. split; [done|]. left. split; [by right|done]. }
  destruct (timesOf_nonempty regionMap Hge) as (t & ts & Htimes).
  fold regionResults in Htimes. fold times in Htimes.
  destruct (Math_max_nonempty t ts) as (M & HM & HMin & _).
  destruct (Math_min_nonempty t ts) as (m & Hm & Hmin & _).
  rewrite <- Htimes in HM, Hm, HMin, Hmin. rewrite HM, Hm.
  destruct (find_time_eq regionResults M HMin) as [slowest ->].
  destruct (find_time_eq regionResults m Hmin) as [fastest ->].
  simpl. eexists. split; [reflexivity|]. right.
  split; [done|]. split; [done|]. eexists. split; [reflexivity|].
  simpl. unfold spreadOf. by rewrite HM, Hm.
Qed.

(** A comparison is sound for [urlMap] when it reports one of its keys that
    is listed for two regions or more, with the regions of that key. *)
Definition comparisonSound (urlMap : UrlMap) (c : ComparisonResult.t) : Prop :=
  ∃ regionMap,
    (ComparisonResult.url c, regionMap) ∈ urlMap
    ∧ 2 ≤ length regionMap
    ∧ ComparisonResult.regions c = regionResultsOf regionMap
    ∧ ComparisonResult.maxDiff c = spreadOf (timesOf (ComparisonResult.regions c))
    ∧ significant (ComparisonResult.maxDiff c)
        (Js.Math_min (timesOf (ComparisonResult.regions c))) = true.

(** The comparisons are complete for the entries [seen] when every entry
    with two regions or more and a significant spread is reported. *)
Definition comparisonsComplete (seen : UrlMap) (comparisons : list ComparisonResult.t)
    : Prop :=
  ∀ key regionMap, (key, regionMap) ∈ seen →
    2 ≤ length regionMap →
    significant (spreadOf (timesOf (regionResultsOf regionMap)))
      (Js.Math_min (timesOf (regionResultsOf regionMap))) = true →
    ∃ c, c ∈ comparisons
         ∧ ComparisonResult.url c = key
         ∧ ComparisonResult.regions c = regionResultsOf regionMap.

Lemma compareUrl_loop (urlMap : UrlMap) :
  ∃ comparisons,
    for_of compareUrl urlMap [] = Ok comparisons
    ∧ Forall (comparisonSound urlMap) comparisons
    ∧ comparisonsComplete urlMap comparisons.
Proof.
  apply (for_of_prefix_invariant compareUrl
           (fun seen comparisons =>
              Forall (comparisonSound urlMap) comparisons
              ∧ comparisonsComplete seen comparisons) urlMap []).
  - split; [constructor|]. intros key rm Hin. by inversion Hin.
  - intros pre [key rm] comparisons [post Hpost] [Hsound Hcomplete].
    simpl in Hpost.
    destruct (compareUrl_step comparisons key rm) as (comparisons' & Hstep & Hcases).
    exists comparisons'. split; [done|].
    destruct Hcases as [[Hskip ->]|(Hge & Hsig & c & -> & Hurl & Hregions & Hdiff)].
    + split; [done|]. intros k m Hin Hlen Hs.
      apply elem_of_app in Hin as [Hin|Hin]; [by apply Hcomplete|].
      apply list_elem_of_singleton in Hin as [= -> ->].
      destruct Hskip as [Hlt|Hfalse]; [lia|congruence].
    + split.
      * apply Forall_app. split; [done|]. apply Forall_singleton.
        exists rm. rewrite Hurl, Hregions, Hdiff. split; [|done].
        rewrite Hpost. apply elem_of_app. right. left.
      * intros k m Hin Hlen Hs.
        apply elem_of_app in Hin as [Hin|Hin].
        -- destruct (Hcomplete k m Hin Hlen Hs) as (c' & Hc' & Hrest).
           exists c'. split; [|done]. apply elem_of_app. by left.
        -- apply list_elem_of_singleton in Hin as [= -> ->].
           exists c. split; [|done]. apply elem_of_app. right. left.
Qed.


Lemma compareRegions_sound regions :
  ∃ comparisons,
    compareRegions regions = Ok comparisons
    ∧ (length regions < 2 → comparisons = [])
    ∧ (2 ≤ length regions →
       ∃ urlMap, buildUrlMap regions = Ok urlMap
                 ∧ urlMapSound regions urlMap
                 ∧ Forall (comparisonSound urlMap) comparisons
                 ∧ comparisonsComplete urlMap comparisons).
Proof.
  unfold compareRegions. destruct (Nat.ltb_spec (length regions) 2) as [Hlt|Hge].
  { exists []. split; [done|]. split; [done|]. lia. }
  destruct (buildUrlMap_sound regions) as (urlMap & Hbuild & Hsound).
  destruct (compareUrl_loop urlMap) as (comparisons & Hloop & Hcs & Hcc).
  rewrite Hbuild. simpl. rewrite Hloop. simpl.
  eexists. split; [reflexivity|]. split; [lia|]. intros _.
  exists urlMap. split; [done|]. split; [done|]. split.
  - apply Forall_forall. intros c Hc. apply elem_of_sort in Hc.
    by apply (proj1 (Forall_forall _ _) Hcs).
  - intros key rm Hin Hlen Hsig.
    destruct (Hcc key rm Hin Hlen Hsig) as (c & Hc & Hrest).
    exists c. split; [by apply elem_of_sort|done].
Qed.

(** C6. The comparator never throws.  With fewer than two regions it
    returns the empty list.  Every comparison it returns lists two region
    entries or more, under pairwise different region names, each the name
    of a supplied region in which the comparison's URL was observed; hence
    a canonical URL observed in one region only is never reported. *)
Theorem compareRegions_two_regions_or_more (regions : list RegionData.t) :
  ∃ comparisons,
    compareRegions regions = Ok comparisons
    ∧ (length regions < 2 → comparisons = [])
    ∧ (∀ c, c ∈ comparisons →
         2 ≤ length (ComparisonResult.regions c)
         ∧ NoDup (map RegionResult.name (ComparisonResult.regions c))
         ∧ ∀ entry, entry ∈ ComparisonResult.regions c →
             ∃ region, region ∈ regions
                       ∧ RegionData.name region = RegionResult.name entry
                       ∧ observedIn (ComparisonResult.url c) region)
    ∧ (∀ key,
         (∀ a b, a ∈ regions → b ∈ regions → observedIn key a → observedIn key b →
                 RegionData.name a = RegionData.name b) →
         ∀ c, c ∈ comparisons → ComparisonResult.url c ≠ key).
Proof.
  destruct (compareRegions_sound regions) as (comparisons & Hcmp & Hfew & Hmany).
  exists comparisons. split; [done|]. split; [done|].
  assert (Hentries : ∀ c, c ∈ comparisons →
            2 ≤ length (ComparisonResult.regions c)
            ∧ NoDup (map RegionResult.name (ComparisonResult.regions c))
            ∧ ∀ entry, entry ∈ ComparisonResult.regions c →
                ∃ region, region ∈ regions
                          ∧ RegionData.name region = RegionResult.name entry
                          ∧ observedIn (ComparisonResult.url c) region).
  { intros c Hc.
    destruct (Nat.ltb_spec (length regions) 2) as [Hlt|Hge].
    { rewrite (Hfew Hlt) in Hc. by inversion Hc. }
    destruct (Hmany Hge) as (urlMap & _ & Hsound & Hcs & _).
    destruct (proj1 (Forall_forall _ _) Hcs c Hc) as (rm & Hin & Hlen & Hregions & _).
    destruct (Hsound _ _ Hin) as [Hnodup Hobs].
    rewrite Hregions. unfold regionResultsOf. split; [by rewrite length_map|].
    split.
    - rewrite map_map. simpl. exact Hnodup.
    - intros entry Hentry. apply list_elem_of_fmap in Hentry as ([name t] & -> & Hnt).
      simpl. exact (Hobs _ _ Hnt). }
  split; [exact Hentries|].
  intros key Hone c Hc Hurl.
  destruct (Hentries c Hc) as (Hlen & Hnodup & Hobs).
  destruct (ComparisonResult.regions c) as [|e1 [|e2 rest]]; simpl in Hlen; [lia..|].
  destruct (Hobs e1 ltac:(left)) as (a & Ha & Hna & Hoa).
  destruct (Hobs e2 ltac:(right; left)) as (b & Hb & Hnb & Hob).
  rewrite Hurl in Hoa, Hob.
  pose proof (Hone a b Ha Hb Hoa Hob) as Hsame.
  simpl in Hnodup. apply NoDup_cons in Hnodup as [Hnotin _].
  apply Hnotin. rewrite <- Hna, Hsame, Hnb. left.
Qed.



End ComparatorProperties.


(** ** The synthesizer *)

Lemma Map_get_set_ne {V} (m : Js.Map V) k v k' :
  k' ≠ k → Js.Map_get (Js.Map_set m k v) k' = Js.Map_get m k'.
Proof.
  intros Hne. induction m as [|[k0 v0] m IH]; simpl.
  - by rewrite (proj2 (String.eqb_neq k' k) Hne).
  - destruct (String.eqb_spec k k0) as [->|Hne0]; simpl.
    + by rewrite (proj2 (String.eqb_neq k' k0) Hne).
    + by rewrite IH.
Qed.

Lemma Map_elem_get {V} (m : Js.Map V) k v :
  NoDup (map fst m) → (k, v) ∈ m → Js.Map_get m k = Some v.
Proof.
  induction m as [|[k0 v0] m IH]; simpl; intros Hnd Hin; [by inversion Hin|].
  apply NoDup_cons in Hnd as [Hnotin Hnd].
  apply elem_of_cons in Hin as [[= -> ->]|Hin].
  - by rewrite String.eqb_refl.
  - destruct (String.eqb_spec k k0) as [->|Hne]; [|by apply IH].
    exfalso. apply Hnotin. apply list_elem_of_fmap. by exists (k0, v).
Qed.

Lemma map_result_Ok {A B} (f : A → result B) (xs : list A) :
  (∀ x, ∃ y, f x = Ok y) → ∃ ys, map_result f xs = Ok ys.
Proof.
  intros Hf. induction xs as [|x xs [ys IH]]; simpl; [eauto|].
  destruct (Hf x) as [y ->]. simpl. rewrite IH. simpl. eauto.
Qed.

Lemma slowestCount_snoc region seen c :
  slowestCount region (seen ++ [c])
  = slowestCount region seen + (if isSlowest region c then 1 else 0).
Proof.
  unfold slowestCount. rewrite List.filter_app, length_app. simpl.
  by destruct (isSlowest region c).
Qed.

(** [slowestCounts] holds, for the comparisons seen so far, each region
    that was slowest at least once with the number of times it was. *)
Definition countsAgree (slowestCounts : Js.Map nat) (seen : list ComparisonResult.t)
    : Prop :=
  NoDup (map fst slowestCounts)
  ∧ ∀ region,
      match Js.Map_get slowestCounts region with
      | Some n => n = slowestCount region seen ∧ 0 < n
      | None => slowestCount region seen = 0
      end.

Lemma countSlowest_agrees slowestCounts seen c :
  countsAgree slowestCounts seen →
  countsAgree (countSlowest slowestCounts c) (seen ++ [c]).
Proof.
  intros [Hnd Hget]. unfold countSlowest. split; [by apply Map_set_keys_NoDup|].
  intros region. rewrite slowestCount_snoc. unfold isSlowest.
  destruct (String.eqb_spec (ComparisonResult.slowestRegion c) region) as [<-|Hne].
  - rewrite Map_get_set. specialize (Hget (ComparisonResult.slowestRegion c)).
    destruct (Js.Map_get slowestCounts (ComparisonResult.slowestRegion c)); lia.
  - rewrite Map_get_set_ne by done. specialize (Hget region).
    destruct (Js.Map_get slowestCounts region); lia.
Qed.

Lemma slowestCounts_agree comparisons slowestCounts seen :
  countsAgree slowestCounts seen →
  countsAgree (fold_left countSlowest comparisons slowestCounts) (seen ++ comparisons).
Proof.
  revert slowestCounts seen.
  induction comparisons as [|c comparisons IH]; intros m seen Hm; simpl.
  - by rewrite app_nil_r.
  - replace (seen ++ c :: comparisons) with ((seen ++ [c]) ++ comparisons)
      by (by rewrite <- app_assoc).
    apply IH. by apply countSlowest_agrees.
Qed.

Lemma byCountDesc_keeps (a b : string * nat) :
  keepsOrder byCountDesc a b ↔ snd b ≤ snd a.
Proof.
  unfold keepsOrder, byCountDesc. rewrite gt_Fin_false.
  change 0%Q with (inject_Z 0). rewrite <- Zle_Qle. lia.
Qed.

Lemma StronglySorted_weaken {A} (R R' : A → A → Prop) (l : list A) :
  (∀ a b, R a b → R' a b) → StronglySorted R l → StronglySorted R' l.
Proof.
  intros HR Hs. induction Hs as [|x l Hs IH Hx]; constructor; [done|].
  eapply Forall_impl; [exact Hx|]. intros y. apply HR.
Qed.

Lemma sortedRegions_sorted (slowestCounts : Js.Map nat) :
  StronglySorted (fun a b => snd b ≤ snd a) (Js.sort byCountDesc slowestCounts).
Proof.
  apply (StronglySorted_weaken (keepsOrder byCountDesc)).
  - intros a b. apply byCountDesc_keeps.
  - apply sort_sorted.
    + intros a b. rewrite !byCountDesc_keeps. lia.
    + intros a b c. rewrite !byCountDesc_keeps. lia.
Qed.

Section SynthesizerProperties.
Context `{Platform}.

(** The recommendation of the region family for [region]. *)
Definition regionRecommendationFor (region : string)
    (comparisons : list ComparisonResult.t) : Recommendation.t :=
  let regionComparisons := List.filter (isSlowest region) comparisons in
  Recommendation.mk Priority.high Category.cdn
    (regionTitle region (slowestCount region comparisons)
       (averageDisparity region comparisons))
    (JSON_stringify
       (regionEvidence region (slowestCount region comparisons)
          (averageDisparity region comparisons) (length comparisons)
          regionComparisons))
    (map ComparisonResult.url (Js.slice0 50 regionComparisons))
    [region].

Lemma regionRecommendation_cases (comparisons : list ComparisonResult.t) :
  (regionRecommendation comparisons = []
   ∧ ∀ region, slowestCount region comparisons < 3)
  ∨ (∃ region,
       3 ≤ slowestCount region comparisons
       ∧ (∀ other, slowestCount other comparisons ≤ slowestCount region comparisons)
       ∧ regionRecommendation comparisons = [regionRecommendationFor region comparisons]).
Proof.
  unfold regionRecommendation.
  destruct (Nat.ltb_spec 0 (length comparisons)) as [_|Hempty].
  2:{ left. split; [done|]. intros region.
      destruct comparisons; simpl in Hempty; [|lia]. unfold slowestCount. simpl. lia. }
  set (slowestCounts := fold_left countSlowest comparisons []).
  assert (Hagree : countsAgree slowestCounts comparisons).
  { apply (slowestCounts_agree comparisons [] []). split; [constructor|]. by intros region. }
  destruct Hagree as [Hnd Hget].
  pose proof (sortedRegions_sorted slowestCounts) as Hsorted.
  pose proof (sort_Permutation byCountDesc slowestCounts) as Hperm.
  destruct (Js.sort byCountDesc slowestCounts) as [|[region count] rest] eqn:Hsort.
  { left. split; [done|]. intros region.
    apply Permutation_nil_l in Hperm. specialize (Hget region).
    rewrite <- Hperm in Hget. simpl in Hget. lia. }
  assert (Hcount : count = slowestCount region comparisons).
  { pose proof (Hget region) as Hr.
    rewrite (Map_elem_get slowestCounts region count) in Hr; [lia|done|].
    rewrite <- Hperm. left. }
  assert (Hmax : ∀ other, slowestCount other comparisons ≤ count).
  { intros other. pose proof (Hget other) as Ho.
    destruct (Js.Map_get slowestCounts other) as [n|] eqn:Hn; [|lia].
    apply Map_get_elem in Hn. rewrite <- Hperm in Hn.
    apply StronglySorted_inv in Hsorted as [_ Hrest].
    apply elem_of_cons in Hn as [[= -> ->]|Hn]; [lia|].
    pose proof (proj1 (Forall_forall _ _) Hrest _ Hn) as Hle. simpl in Hle. lia. }
  destruct (Nat.leb_spec 3 count) as [Hge|Hlt].
  - right. exists region. subst count. split; [lia|]. split; [done|]. reflexivity.
  - left. split; [done|]. intros region'. specialize (Hmax region'). lia.
Qed.

Lemma getDomain_Ok (url : string) : ∃ domain, getDomain url = Ok domain.
Proof. unfold getDomain. destruct (new_URL url); simpl; eauto. Qed.


Definition notRegionFamily (r : Recommendation.t) : Prop :=
  Recommendation.category r ≠ Category.cdn.








End SynthesizerProperties.

(** ** API chains *)

Lemma find_first {A} (p : A → bool) (l : list A) (x : A) :
  List.find p l = Some x →
  p x = true ∧ ∃ l1 l2, l = l1 ++ x :: l2 ∧ ∀ y, y ∈ l1 → p y = false.
Proof.
  induction l as [|a l IH]; simpl; [done|].
  destruct (p a) eqn:E.
  - intros [= ->]. split; [done|]. exists [], l. split; [done|].
    intros y Hy. by inversion Hy.
  - intros Hfind. destruct (IH Hfind) as (Hp & l1 & l2 & -> & Hl1).
    split; [done|]. exists (a :: l1), l2. split; [done|].
    intros y Hy. apply elem_of_cons in Hy as [->|Hy]; [done|by apply Hl1].
Qed.

Lemma find_nothing {A} (p : A → bool) (l : list A) :
  List.find p l = None → ∀ y, y ∈ l → p y = false.
Proof.
  induction l as [|a l IH]; simpl; intros Hfind y Hy; [by inversion Hy|].
  destruct (p a) eqn:E; [done|].
  apply elem_of_cons in Hy as [->|Hy]; [done|by apply IH].
Qed.

Lemma StronglySorted_after {A} (R : A → A → Prop) (l1 l2 : list A) (x : A) :
  StronglySorted R (l1 ++ x :: l2) → Forall (R x) l2.
Proof.
  induction l1 as [|a l1 IH]; simpl; intros Hs.
  - by apply StronglySorted_inv in Hs as [_ Hx].
  - apply StronglySorted_inv in Hs as [Hs _]. by apply IH.
Qed.

Definition byStart (a b : ParsedRequest.t) : Prop :=
  (ParsedRequest.startTime a <= ParsedRequest.startTime b)%Q.

Lemma byStartTime_keeps (a b : ParsedRequest.t) :
  keepsOrder byStartTime a b ↔ byStart a b.
Proof.
  unfold keepsOrder, byStartTime, byStart. rewrite gt_Fin_false. split; lra.
Qed.

Lemma sortedApiRequests_sorted requests :
  StronglySorted byStart (sortedApiRequests requests).
Proof.
  apply (StronglySorted_weaken (keepsOrder byStartTime)).
  - intros a b. apply byStartTime_keeps.
  - apply sort_sorted.
    + intros a b. rewrite !byStartTime_keeps. unfold byStart. lra.
    + intros a b c. rewrite !byStartTime_keeps. unfold byStart. lra.
Qed.

Lemma visited_has_true visited id : visited_has visited id = true ↔ id ∈ visited.
Proof. unfold visited_has. apply bool_decide_eq_true. Qed.

Lemma visited_has_false visited id : visited_has visited id = false ↔ id ∉ visited.
Proof. unfold visited_has. apply bool_decide_eq_false. Qed.

Lemma followsWithinGap_true visited current r :
  followsWithinGap visited (endTime current) r = true
  ↔ unvisited visited r ∧ inWindow current r.
Proof.
  unfold followsWithinGap, unvisited, inWindow, UX_THRESHOLDS.apiGapThreshold.
  rewrite !andb_true_iff, negb_true_iff, visited_has_false, !Qle_bool_iff.
  tauto.
Qed.

(** The requests that the walk can still visit. *)
Definition remaining (candidates : list ParsedRequest.t) (visited : gset string) : nat :=
  length (List.filter (fun r => negb (visited_has visited (ParsedRequest.id r))) candidates).

Lemma remaining_le candidates visited id :
  remaining candidates ({[id]} ∪ visited) ≤ remaining candidates visited.
Proof.
  unfold remaining. induction candidates as [|a l IH]; simpl; [lia|].
  destruct (visited_has visited (ParsedRequest.id a)) eqn:E; simpl.
  - apply visited_has_true in E.
    assert (visited_has ({[id]} ∪ visited) (ParsedRequest.id a) = true) as ->
      by (apply visited_has_true; set_solver).
    simpl. lia.
  - destruct (visited_has ({[id]} ∪ visited) (ParsedRequest.id a)); simpl; lia.
Qed.

Lemma remaining_decreases candidates visited r :
  r ∈ candidates → unvisited visited r →
  remaining candidates ({[ParsedRequest.id r]} ∪ visited) < remaining candidates visited.
Proof.
  unfold unvisited. intros Hin Hr. induction candidates as [|a l IH]; [by inversion Hin|].
  apply elem_of_cons in Hin as [<-|Hin].
  - pose proof (remaining_le l visited (ParsedRequest.id r)) as Hle.
    unfold remaining in *. simpl.
    assert (visited_has visited (ParsedRequest.id r) = false) as ->
      by (by apply visited_has_false).
    assert (visited_has ({[ParsedRequest.id r]} ∪ visited) (ParsedRequest.id r) = true)
      as -> by (apply visited_has_true; set_solver).
    simpl. lia.
  - specialize (IH Hin). unfold remaining in *. simpl.
    destruct (visited_has visited (ParsedRequest.id a)) eqn:E; simpl.
    + apply visited_has_true in E.
      assert (visited_has ({[ParsedRequest.id r]} ∪ visited) (ParsedRequest.id a) = true)
        as -> by (apply visited_has_true; set_solver).
      simpl. lia.
    + destruct (visited_has ({[ParsedRequest.id r]} ∪ visited) (ParsedRequest.id a));
        simpl; lia.
Qed.

Lemma remaining_bound candidates visited : remaining candidates visited ≤ length candidates.
Proof. unfold remaining. apply List.filter_length_le. Qed.

(** The nodes that the loop appends for the requests of a chain. *)
Fixpoint nodesOf (prevId : option string) (rs : list ParsedRequest.t)
    : list ApiChainNode.t :=
  match rs with
  | [] => []
  | r :: rs' =>
      ApiChainNode.mk r (ParsedRequest.startTime r)
        (ParsedRequest.startTime r + ParsedRequest.time r) prevId
      :: nodesOf (Some (ParsedRequest.id r)) rs'
  end.

Lemma chainLoop_None fuel candidates prevId nodes visited :
  chainLoop fuel candidates None prevId nodes visited = Some (nodes, visited).
Proof. by destruct fuel. Qed.

(** With enough fuel the loop ends, and the chain it builds is the greedy
    extension of the specification. *)
Lemma chainLoop_extends candidates :
  StronglySorted byStart candidates →
  ∀ fuel current prevId nodes visited,
    unvisited visited current →
    remaining candidates ({[ParsedRequest.id current]} ∪ visited) < fuel →
    ∃ tail visited',
      chainLoop fuel candidates (Some current) prevId nodes visited
      = Some (nodes ++ nodesOf prevId (current :: tail), visited')
      ∧ extends candidates ({[ParsedRequest.id current]} ∪ visited) current tail visited'.
Proof.
  intros Hsorted fuel. induction fuel as [|fuel IH];
    intros current prevId nodes visited Hcur Hfuel; [lia|].
  simpl. rewrite (proj2 (visited_has_false _ _) Hcur).
  set (visited1 := {[ParsedRequest.id current]} ∪ visited) in *.
  change (ParsedRequest.startTime current + ParsedRequest.time current)%Q
    with (endTime current).
  destruct (List.find (followsWithinGap visited1 (endTime current)) candidates)
    as [next|] eqn:Hfind.
  - destruct (find_first _ _ _ Hfind) as (Hp & l1 & l2 & Hsplit & Hl1).
    apply followsWithinGap_true in Hp as [Hnext Hwin].
    assert (Hin : next ∈ candidates)
      by (rewrite Hsplit; apply elem_of_app; right; left).
    destruct (IH next (Some (ParsedRequest.id current))
                (nodes ++ [ApiChainNode.mk current (ParsedRequest.startTime current)
                             (endTime current) prevId])
                visited1 Hnext) as (tail & visited' & Hloop & Hext).
    { pose proof (remaining_decreases candidates visited1 next Hin Hnext). lia. }
    exists (next :: tail), visited'. split.
    + rewrite Hloop. by rewrite <- app_assoc.
    + apply extends_step; [done..| |done].
      intros r Hr Hunv Hrwin. rewrite Hsplit in Hr, Hsorted.
      apply elem_of_app in Hr as [Hr|Hr].
      * specialize (Hl1 r Hr).
        assert (followsWithinGap visited1 (endTime current) r = true)
          by (by apply followsWithinGap_true).
        congruence.
      * apply elem_of_cons in Hr as [->|Hr]; [apply Qle_refl|].
        apply StronglySorted_after in Hsorted.
        by apply (proj1 (Forall_forall _ _) Hsorted).
  - rewrite chainLoop_None. exists [], visited1. split; [done|].
    apply extends_stop. intros r Hr Hunv Hwin.
    pose proof (find_nothing _ _ Hfind r Hr) as Hfalse.
    assert (followsWithinGap visited1 (endTime current) r = true)
      by (by apply followsWithinGap_true).
    congruence.
Qed.

Lemma nodesOf_requests prevId rs : map ApiChainNode.request (nodesOf prevId rs) = rs.
Proof.
  revert prevId. induction rs as [|r rs IH]; intros prevId; simpl; [done|].
  by rewrite IH.
Qed.

Lemma nodesOf_times prevId rs :
  Forall (fun n =>
            ApiChainNode.startTime n = ParsedRequest.startTime (ApiChainNode.request n)
            ∧ ApiChainNode.endTime n = endTime (ApiChainNode.request n))
         (nodesOf prevId rs).
Proof.
  revert prevId. induction rs as [|r rs IH]; intros prevId; simpl; constructor; [done|].
  apply IH.
Qed.

Lemma chainOf_wellFormed start prevId r rs :
  chainWellFormed (chainOf start (nodesOf prevId (r :: rs))).
Proof.
  split; [apply nodesOf_times|].
  unfold chainOf. simpl ApiChain.nodes. simpl ApiChain.totalDuration.
  destruct (last (nodesOf prevId (r :: rs))) as [final|] eqn:Hlast.
  - simpl nodesOf in *. eexists _, final. rewrite Hlast. done.
  - apply last_None in Hlast. done.
Qed.

Lemma buildChain_extends candidates start visited :
  StronglySorted byStart candidates →
  unvisited visited start →
  ∃ tail visited',
    buildChain start candidates visited
    = Some (chainOf start (nodesOf None (start :: tail)), visited')
    ∧ extends candidates ({[ParsedRequest.id start]} ∪ visited) start tail visited'.
Proof.
  intros Hsorted Hstart. unfold buildChain.
  destruct (chainLoop_extends candidates Hsorted (S (length candidates)) start None []
              visited Hstart) as (tail & visited' & Hloop & Hext).
  { pose proof (remaining_bound candidates ({[ParsedRequest.id start]} ∪ visited)). lia. }
  rewrite Hloop. simpl. eauto.
Qed.

(** The walk never runs out of fuel; it builds the chains of the
    specification and keeps those with more than one node. *)
Lemma chainWalk_walks candidates :
  StronglySorted byStart candidates →
  ∀ todo chains visited,
    ∃ built,
      chainWalk candidates todo chains visited
      = Some (chains ++ List.filter moreThanOneNode built)
      ∧ walks candidates visited todo (map chainRequests built)
      ∧ Forall chainWellFormed built.
Proof.
  intros Hsorted todo. induction todo as [|r todo IH]; intros chains visited; simpl.
  - exists []. rewrite app_nil_r. split; [done|]. split; constructor.
  - destruct (visited_has visited (ParsedRequest.id r)) eqn:Hv.
    + destruct (IH chains visited) as (built & Hwalk & Hspec & Hwf).
      exists built. split; [done|]. split; [|done].
      apply walks_skip; [|done]. apply visited_has_true in Hv. unfold unvisited. tauto.
    + apply visited_has_false in Hv.
      destruct (buildChain_extends candidates r visited Hsorted Hv)
        as (tail & visited' & -> & Hext).
      set (chain := chainOf r (nodesOf None (r :: tail))).
      destruct (IH (if Nat.ltb 1 (length (ApiChain.nodes chain))
                    then chains ++ [chain] else chains) visited')
        as (built & Hwalk & Hspec & Hwf).
      exists (chain :: built). split; [|split].
      * rewrite Hwalk. simpl List.filter.
        change (moreThanOneNode chain) with (Nat.ltb 1 (length (ApiChain.nodes chain))).
        destruct (Nat.ltb 1 (length (ApiChain.nodes chain))); [|done].
        by rewrite <- app_assoc.
      * simpl. replace (chainRequests chain) with (r :: tail)
          by (unfold chainRequests, chain; simpl; by rewrite nodesOf_requests).
        by eapply walks_start.
      * constructor; [apply chainOf_wellFormed|done].
Qed.

Lemma analyzeApiChains_walks requests :
  ∃ built,
    analyzeApiChains requests
    = Some (Js.sort byTotalDurationDesc (List.filter moreThanOneNode built))
    ∧ walks (sortedApiRequests requests) ∅ (sortedApiRequests requests)
        (map chainRequests built)
    ∧ Forall chainWellFormed built.
Proof.
  unfold analyzeApiChains.
  destruct (chainWalk_walks (sortedApiRequests requests)
              (sortedApiRequests_sorted requests) (sortedApiRequests requests) [] ∅)
    as (built & Hwalk & Hspec & Hwf).
  destruct (Nat.eqb_spec (length (sortedApiRequests requests)) 0) as [Hnone|Hsome].
  - exists []. destruct (sortedApiRequests requests); [|done].
    split; [done|]. split; constructor.
  - exists built. rewrite Hwalk. done.
Qed.


(** *** Every request is visited once *)

Definition idsOf (rs : list ParsedRequest.t) : list string := map ParsedRequest.id rs.

Lemma extends_ids candidates visited current tail visited' :
  extends candidates visited current tail visited' →
  NoDup (idsOf tail)
  ∧ (∀ i, i ∈ idsOf tail → i ∉ visited)
  ∧ visited' = visited ∪ list_to_set (idsOf tail).
Proof.
  induction 1 as [visited current _
                 |visited current next tail visited' _ Hnext _ _ _ (Hnd & Hfresh & ->)].
  - split; [constructor|]. split; [by intros i ?%elem_of_nil|].
    simpl. by rewrite (right_id_L ∅ (∪)).
  - unfold unvisited in Hnext. simpl. split; [|split].
    + constructor; [|done]. intros Hin. apply Hfresh in Hin. set_solver.
    + intros i Hi. apply elem_of_cons in Hi as [->|Hi]; [done|].
      apply Hfresh in Hi. set_solver.
    + rewrite (comm_L (∪) {[ParsedRequest.id next]} visited).
      by rewrite <- (assoc_L (∪)).
Qed.

Lemma walks_ids candidates visited todo chains :
  walks candidates visited todo chains →
  NoDup (idsOf (concat chains)) ∧ ∀ i, i ∈ idsOf (concat chains) → i ∉ visited.
Proof.
  induction 1 as [visited
                 |visited r todo chains _ _ IH
                 |visited r todo tail visited' chains Hr Hext _ (Hnd & Hfresh)].
  - split; [constructor|]. by intros i ?%elem_of_nil.
  - done.
  - destruct (extends_ids _ _ _ _ _ Hext) as (Hnd_tail & Hfresh_tail & ->).
    unfold unvisited in Hr. unfold idsOf in *. simpl.
    rewrite map_app. split.
    + constructor.
      * intros Hin. apply elem_of_app in Hin as [Hin|Hin].
        -- apply Hfresh_tail in Hin. set_solver.
        -- apply Hfresh in Hin. set_solver.
      * apply NoDup_app. split; [done|]. split; [|done].
        intros i Hi Hi'. apply Hfresh in Hi'. apply Hi'.
        apply elem_of_union. right. by apply elem_of_list_to_set.
    + intros i Hi. apply elem_of_cons in Hi as [->|Hi]; [done|].
      apply elem_of_app in Hi as [Hi|Hi].
      * apply Hfresh_tail in Hi. set_solver.
      * apply Hfresh in Hi. set_solver.
Qed.

Lemma idsOf_concat (built : list ApiChain.t) :
  idsOf (concat (map chainRequests built)) = flat_map chainIds built.
Proof.
  unfold idsOf, chainIds. induction built as [|c built IH]; simpl; [done|].
  by rewrite map_app, IH.
Qed.

Lemma NoDup_flat_map_filter {A B} (f : A → list B) (p : A → bool) (l : list A) :
  NoDup (flat_map f l) → NoDup (flat_map f (List.filter p l)).
Proof.
  induction l as [|x l IH]; simpl; [done|].
  intros Hnd. apply NoDup_app in Hnd as (Hx & Hdisj & Hl).
  destruct (p x); simpl; [|by apply IH].
  apply NoDup_app. split; [done|]. split; [|by apply IH].
  intros y Hy Hy'. apply (Hdisj y Hy).
  apply list_elem_of_In, in_flat_map in Hy' as (a & Ha & Hya).
  apply List.filter_In in Ha as [Ha _].
  apply list_elem_of_In, in_flat_map. eauto.
Qed.

Lemma NoDup_flat_map_lookup {A B} (f : A → list B) (l : list A) i j a b y :
  NoDup (flat_map f l) → l !! i = Some a → l !! j = Some b → i ≠ j →
  y ∈ f a → y ∈ f b → False.
Proof.
  revert i j. induction l as [|x l IH]; intros i j Hnd Hi Hj Hne Ha Hb; [done|].
  simpl in Hnd. apply NoDup_app in Hnd as (_ & Hdisj & Hl).
  assert (Hlater : ∀ k c, l !! k = Some c → y ∈ f c → y ∈ flat_map f l).
  { intros k c Hk Hc. apply list_elem_of_In, in_flat_map. exists c.
    split; apply list_elem_of_In; [by eapply list_elem_of_lookup_2|done]. }
  destruct i as [|i], j as [|j]; simpl in Hi, Hj; [done| | |].
  - injection Hi as ->. apply (Hdisj y Ha). by eapply Hlater.
  - injection Hj as ->. apply (Hdisj y Hb). by eapply Hlater.
  - apply (IH i j); [done..|lia|done|done].
Qed.

(** C10. The walk ends, and the chains it reports share no node: the ids
    of the requests of all reported chains are pairwise different, so that
    no request is a node of two chains, or twice a node of one. *)
Theorem analyzeApiChains_disjoint (requests : list ParsedRequest.t) :
  ∃ reported,
    analyzeApiChains requests = Some reported
    ∧ NoDup (flat_map chainIds reported)
    ∧ ∀ i j a b r,
        reported !! i = Some a → reported !! j = Some b → i ≠ j →
        r ∈ chainRequests a → r ∈ chainRequests b → False.
Proof.
  destruct (analyzeApiChains_walks requests) as (built & Hrun & Hwalk & _).
  eexists. split; [exact Hrun|].
  assert (Hnd : NoDup (flat_map chainIds
                         (Js.sort byTotalDurationDesc
                            (List.filter moreThanOneNode built)))).
  { apply walks_ids in Hwalk as [Hnd _]. rewrite idsOf_concat in Hnd.
    rewrite (Permutation_flat_map chainIds
               (sort_Permutation byTotalDurationDesc (List.filter moreThanOneNode built))).
    by apply NoDup_flat_map_filter. }
  split; [exact Hnd|].
  intros i j a b r Hi Hj Hne Ha Hb.
  apply (NoDup_flat_map_lookup chainIds _ i j a b (ParsedRequest.id r) Hnd Hi Hj Hne);
    unfold chainIds; apply list_elem_of_fmap; eauto.
Qed.


(** * Further properties of the engine *)

(** ** Text of numbers and issue messages *)

Lemma Z_toString_inj (a b : Z) : Js.Z_toString a = Js.Z_toString b → a = b.
Proof.
  unfold Js.Z_toString. intros Heq. apply DecimalZ.to_int_inj.
  assert (Hnn : ∀ z, Z.to_int z ≠ Decimal.Pos Decimal.Nil
                     ∧ Z.to_int z ≠ Decimal.Neg Decimal.Nil).
  { intros [|p|p]; simpl; split; try discriminate; intros [= Hp];
      by apply (DecimalPos.Unsigned.to_uint_nonnil p). }
  destruct (Hnn a) as [Ha1 Ha2]. destruct (Hnn b) as [Hb1 Hb2].
  pose proof (NilZero.isi (Z.to_int a) Ha1 Ha2) as Ia.
  pose proof (NilZero.isi (Z.to_int b) Hb1 Hb2) as Ib.
  rewrite Heq in Ia. congruence.
Qed.

(** [c] is one of the characters of [s]. *)
Fixpoint occurs (c : ascii) (s : string) : bool :=
  match s with
  | EmptyString => false
  | String a s' => Ascii.eqb c a || occurs c s'
  end.

Lemma occurs_app c (a b : string) : occurs c (a ++ b)%string = occurs c a || occurs c b.
Proof.
  induction a as [|x a IH]; simpl; [done|]. by rewrite IH, orb_assoc.
Qed.

Lemma includes_unfold (s needle : string) :
  Js.includes s needle
  = String.prefix needle s
    || match s with
       | EmptyString => false
       | String _ s' => Js.includes s' needle
       end.
Proof. by destruct s. Qed.

Lemma prefix_occurs c (needle s : string) :
  String.prefix needle s = true → occurs c needle = true → occurs c s = true.
Proof.
  revert s. induction needle as [|a needle IH]; intros s; [done|].
  destruct s as [|b s]; [done|]. simpl.
  destruct (ascii_dec a b) as [->|Hne]; [|done].
  intros Hp Hocc. apply orb_true_iff in Hocc as [Hc|Hc].
  - by rewrite Hc.
  - rewrite (IH s Hp Hc). apply orb_true_r.
Qed.

(** A string that lacks one of the characters of [needle] does not include
    [needle]. *)
Lemma includes_occurs c (s needle : string) :
  occurs c needle = true → occurs c s = false → Js.includes s needle = false.
Proof.
  intros Hneedle. induction s as [|a s IH]; intros Hocc.
  - rewrite includes_unfold. destruct needle; [done|]. by simpl.
  - simpl in Hocc. apply orb_false_iff in Hocc as [Hca Hs].
    rewrite includes_unfold, (IH Hs), orb_false_r.
    destruct (String.prefix needle (String a s)) eqn:Hp; [|done].
    pose proof (prefix_occurs c _ _ Hp Hneedle) as Hc. simpl in Hc.
    by rewrite Hca, Hs in Hc.
Qed.

Lemma prefix_app (needle rest : string) : String.prefix needle (needle ++ rest) = true.
Proof.
  induction needle as [|a needle IH]; simpl; [by destruct rest|].
  destruct (ascii_dec a a); [done|congruence].
Qed.

Lemma includes_at_start (needle rest : string) :
  Js.includes (needle ++ rest) needle = true.
Proof. by rewrite includes_unfold, prefix_app. Qed.

Lemma includes_later (before s needle : string) :
  Js.includes s needle = true → Js.includes (before ++ s) needle = true.
Proof.
  intros Hs. induction before as [|a before IH]; [done|].
  change (String a before ++ s)%string with (String a (before ++ s)%string).
  rewrite includes_unfold, IH. apply orb_true_r.
Qed.

Definition isDigitOrMinus (c : ascii) : bool :=
  existsb (Ascii.eqb c) ["0"; "1"; "2"; "3"; "4"; "5"; "6"; "7"; "8"; "9"; "-"]%char.

Lemma occurs_uint c (d : Decimal.uint) :
  isDigitOrMinus c = false → occurs c (NilEmpty.string_of_uint d) = false.
Proof.
  intros Hc. unfold isDigitOrMinus in Hc. simpl in Hc.
  repeat (apply orb_false_iff in Hc as [? Hc]).
  induction d; simpl; rewrite ?IHd; try done;
    by match goal with H : ?x = false |- ?x || false = false => rewrite H end.
Qed.

(** The decimal text of an integer holds digits and the sign only. *)
Lemma occurs_Z_toString c (z : Z) :
  isDigitOrMinus c = false → occurs c (Js.Z_toString z) = false.
Proof.
  intros Hc. unfold Js.Z_toString, NilZero.string_of_int, NilZero.string_of_uint.
  assert (H0 : occurs c "0" = false).
  { pose proof (occurs_uint c (Decimal.D0 Decimal.Nil) Hc) as H0. exact H0. }
  assert (Hm : Ascii.eqb c "-" = false).
  { unfold isDigitOrMinus in Hc. simpl in Hc.
    repeat (apply orb_false_iff in Hc as [? Hc]). done. }
  destruct (Z.to_int z) as [d|d]; destruct d; simpl occurs; rewrite ?Hm; simpl;
    try exact H0; try apply (occurs_uint c _ Hc);
    try (by apply orb_false_iff; split;
           [ unfold isDigitOrMinus in Hc; simpl in Hc;
             repeat (apply orb_false_iff in Hc as [? Hc]); done
           | apply (occurs_uint c _ Hc) ]).
Qed.


(** ** Issues and their categories *)

(** The categories of the issues of a timing breakdown, phase by phase. *)
Definition issueCategories (timings : HarTimings.t) : list IssueType :=
  (if Js.and_then (HarTimings.dns timings) (Qle_bool 100) then [slow_dns] else [])
  ++ (if Js.and_then (HarTimings.connect timings) (Qle_bool 200)
      then [slow_connect] else [])
  ++ (if Js.and_then (HarTimings.ssl timings) (Qle_bool 200) then [slow_ssl] else [])
  ++ (if Qle_bool 500 (HarTimings.wait timings) then [slow_ttfb] else [])
  ++ (if Qle_bool 1000 (HarTimings.receive timings) then [slow_download] else [])
  ++ (if Js.and_then (HarTimings.blocked timings) (fun q => negb (Qle_bool q 100))
      then [blocking] else []).

Lemma map_push_if {A B} (f : A → B) (cond : bool) (x : A) (xs : list A) :
  map f (push_if cond x xs) = map f xs ++ (if cond then [f x] else []).
Proof. unfold push_if. destruct cond; [apply map_app|by rewrite app_nil_r]. Qed.

Lemma map_push_optional {A B} (f : A → B) (o : option Q) (p : Q → bool)
    (x : Q → A) (b : B) (xs : list A) :
  (∀ d, f (x d) = b) →
  map f match o with
        | Some d => push_if (Js.truthy d && p d) (x d) xs
        | None => xs
        end
  = map f xs ++ (if Js.and_then o p then [b] else []).
Proof.
  intros Hb. destruct o as [d|]; simpl; [|by rewrite app_nil_r].
  by rewrite map_push_if, Hb.
Qed.

(** [needle] is not in the message, for it holds the character [c]. *)
Ltac absent c :=
  apply (includes_occurs c); [reflexivity|];
  unfold issue_message;
  rewrite !occurs_app, occurs_Z_toString by reflexivity; reflexivity.

Ltac categorize :=
  unfold categorizeIssue;
  repeat match goal with
         | |- context [Js.includes (issue_message ?label ?ms) ?needle] =>
             first
               [ replace (Js.includes (issue_message label ms) needle) with true
                   by (unfold issue_message; reflexivity)
               | replace (Js.includes (issue_message label ms) needle) with false
                   by (symmetry; first [absent "D"%char | absent "C"%char
                                       | absent "S"%char | absent "T"%char
                                       | absent "228"%char]) ]
         end;
  reflexivity.

Lemma categorize_dns ms : categorizeIssue (issue_message "DNS 查詢過慢" ms) = slow_dns.
Proof. categorize. Qed.

Lemma categorize_connect ms :
  categorizeIssue (issue_message "TCP 連線過慢" ms) = slow_connect.
Proof. categorize. Qed.

Lemma categorize_ssl ms : categorizeIssue (issue_message "SSL 握手過慢" ms) = slow_ssl.
Proof. categorize. Qed.

Lemma categorize_ttfb ms :
  categorizeIssue (issue_message "伺服器回應過慢 TTFB" ms) = slow_ttfb.
Proof. categorize. Qed.

Lemma categorize_download ms :
  categorizeIssue (issue_message "下載時間過長" ms) = slow_download.
Proof. categorize. Qed.

Lemma categorize_blocked ms :
  categorizeIssue (issue_message "請求被阻塞" ms) = blocking.
Proof. categorize. Qed.

Lemma categories_of_issues (timings : HarTimings.t) :
  map categorizeIssue (analyzeRequestIssues timings) = issueCategories timings.
Proof.
  unfold analyzeRequestIssues, issueCategories.
  rewrite (map_push_optional _ _ (fun q => negb (Qle_bool q 100)) _ blocking)
    by apply categorize_blocked.
  rewrite !map_push_if, categorize_download, categorize_ttfb.
  rewrite (map_push_optional _ (HarTimings.ssl timings) _ _ slow_ssl)
    by apply categorize_ssl.
  rewrite (map_push_optional _ (HarTimings.connect timings) _ _ slow_connect)
    by apply categorize_connect.
  rewrite (map_push_optional _ (HarTimings.dns timings) _ _ slow_dns)
    by apply categorize_dns.
  simpl. by rewrite <- !app_assoc.
Qed.

Lemma issueCategories_phases (timings : HarTimings.t) :
  large_payload ∉ issueCategories timings.
Proof.
  unfold issueCategories. rewrite !elem_of_app.
  repeat match goal with |- context [if ?c then _ else _] => destruct c end;
    rewrite ?elem_of_nil, ?list_elem_of_singleton; intuition discriminate.
Qed.

(** X1. Every issue that [analyzeRequestIssues] reports is filed under the
    category of its own phase: the categories of the issues of a timing
    breakdown are those of the phases at or above their thresholds, in the
    order DNS, connect, SSL, TTFB, download, blocking, and never
    [large_payload]. *)
Theorem issues_are_categorized_by_phase (timings : HarTimings.t) :
  map categorizeIssue (analyzeRequestIssues timings) = issueCategories timings
  ∧ large_payload ∉ map categorizeIssue (analyzeRequestIssues timings).
Proof.
  split; [apply categories_of_issues|].
  rewrite categories_of_issues. apply issueCategories_phases.
Qed.


(** ** Normalized timings *)

Definition nonNegativePhase (o : option Q) : Prop := ∃ q, o = Some q ∧ (0 <= q)%Q.

Lemma positive_or_zero_spec (q : Q) :
  (0 <= positive_or_zero q)%Q
  ∧ ((0 < q)%Q → positive_or_zero q = q)
  ∧ ((q <= 0)%Q → positive_or_zero q = 0%Q).
Proof.
  unfold positive_or_zero. destruct (Qle_bool q 0) eqn:E; simpl.
  - apply Qle_bool_iff in E. split; [lra|]. split; [lra|done].
  - apply Qle_bool_false_lt in E. split; [lra|]. split; [done|lra].
Qed.

Lemma normalize_optional_spec (o : option Q) :
  nonNegativePhase (normalize_optional o)
  ∧ (∀ q, o = Some q → (0 < q)%Q → normalize_optional o = Some q)
  ∧ (∀ q, o = Some q → (q <= 0)%Q → normalize_optional o = Some 0%Q)
  ∧ (o = None → normalize_optional o = Some 0%Q).
Proof.
  unfold normalize_optional, nonNegativePhase, Js.and_then, Js.truthy.
  destruct o as [q|]; simpl.
  - destruct (Qeq_bool q 0) eqn:Ez, (Qle_bool q 0) eqn:El; simpl.
    + split; [exists 0%Q; split; [done|lra]|].
      apply Qle_bool_iff in El.
      split; [intros ? [= <-] ?; lra|]. split; [done|done].
    + apply Qeq_bool_iff in Ez. apply Qle_bool_false_lt in El. lra.
    + split; [exists 0%Q; split; [done|lra]|].
      apply Qle_bool_iff in El.
      split; [intros ? [= <-] ?; lra|]. split; [done|done].
    + apply Qle_bool_false_lt in El.
      split; [exists q; split; [done|lra]|].
      split; [by intros ? [= <-] ?|]. split; [intros ? [= <-] ?; lra|done].
  - split; [exists 0%Q; split; [done|lra]|]. split; [done|]. split; done.
Qed.

Lemma normalize_optional_idem (o : option Q) :
  normalize_optional (normalize_optional o) = normalize_optional o.
Proof.
  destruct (normalize_optional_spec o) as ([q [Hq Hpos]] & _).
  rewrite Hq. destruct (Qlt_le_dec 0 q) as [Hlt|Hle].
  - by apply (normalize_optional_spec (Some q)).
  - destruct (normalize_optional_spec (Some q)) as (_ & _ & Hz & _).
    rewrite (Hz q eq_refl Hle).
    unfold normalize_optional, Js.and_then, Js.truthy in Hq.
    destruct o as [x|]; simpl in Hq.
    + destruct (negb (Qeq_bool x 0) && negb (Qle_bool x 0)) eqn:E.
      * injection Hq as <-. apply andb_true_iff in E as [_ E].
        apply negb_true_iff, Qle_bool_false_lt in E. lra.
      * by injection Hq as <-.
    + by injection Hq as <-.
Qed.

Lemma positive_or_zero_idem (q : Q) :
  positive_or_zero (positive_or_zero q) = positive_or_zero q.
Proof.
  destruct (positive_or_zero_spec q) as (_ & Hpos & Hzero).
  destruct (Qlt_le_dec 0 q) as [Hlt|Hle].
  - rewrite (Hpos Hlt). exact (Hpos Hlt).
  - rewrite (Hzero Hle). reflexivity.
Qed.

(** What normalization does to a phase: the result is defined and not
    negative; a positive value is kept, every other value and a missing
    one become 0. *)
Definition optionalPhaseCleaned (before after : option Q) : Prop :=
  nonNegativePhase after
  ∧ (∀ q, before = Some q → (0 < q)%Q → after = Some q)
  ∧ (∀ q, before = Some q → (q <= 0)%Q → after = Some 0%Q)
  ∧ (before = None → after = Some 0%Q).

Definition phaseCleaned (before after : Q) : Prop :=
  (0 <= after)%Q
  ∧ ((0 < before)%Q → after = before)
  ∧ ((before <= 0)%Q → after = 0%Q).

(** X2. Normalization leaves no phase undefined or negative, keeps every
    positive phase as it is, turns every other phase into 0, and changes
    nothing when it is applied again. *)
Theorem normalizeTimings_nonnegative (timings : HarTimings.t) :
  let n := normalizeTimings timings in
  optionalPhaseCleaned (HarTimings.blocked timings) (HarTimings.blocked n)
  ∧ optionalPhaseCleaned (HarTimings.dns timings) (HarTimings.dns n)
  ∧ optionalPhaseCleaned (HarTimings.connect timings) (HarTimings.connect n)
  ∧ optionalPhaseCleaned (HarTimings.ssl timings) (HarTimings.ssl n)
  ∧ phaseCleaned (HarTimings.send timings) (HarTimings.send n)
  ∧ phaseCleaned (HarTimings.wait timings) (HarTimings.wait n)
  ∧ phaseCleaned (HarTimings.receive timings) (HarTimings.receive n)
  ∧ normalizeTimings n = n.
Proof.
  cbv zeta. unfold normalizeTimings.
  cbn [HarTimings.blocked HarTimings.dns HarTimings.connect HarTimings.ssl
         HarTimings.send HarTimings.wait HarTimings.receive].
  do 4 (split; [apply normalize_optional_spec|]).
  do 3 (split; [apply positive_or_zero_spec|]).
  by rewrite !normalize_optional_idem, !positive_or_zero_idem.
Qed.

(** ** Severity grows with the duration *)

Definition severityRank (s : SeverityLevel) : nat :=
  match s with normal => 0 | warning => 1 | critical => 2 end.

(** X3. A longer request of the same type is never rated milder. *)
Theorem getSeverity_monotone (type : RequestType) (shorter longer : Q) :
  (shorter <= longer)%Q →
  severityRank (getSeverity shorter type) ≤ severityRank (getSeverity longer type).
Proof.
  intros Hle.
  assert (Hgen : ∀ t,
    getSeverity t type =
      if Qle_bool (snd (spec_thresholds type)) t then critical
      else if Qle_bool (fst (spec_thresholds type)) t then warning
      else normal) by (intros t; destruct type; reflexivity).
  rewrite !Hgen.
  destruct (Qle_bool (snd (spec_thresholds type)) shorter) eqn:E1,
           (Qle_bool (snd (spec_thresholds type)) longer) eqn:E2,
           (Qle_bool (fst (spec_thresholds type)) shorter) eqn:E3,
           (Qle_bool (fst (spec_thresholds type)) longer) eqn:E4;
    simpl; try lia;
    repeat match goal with
           | H : Qle_bool _ _ = true |- _ => apply Qle_bool_iff in H
           | H : Qle_bool _ _ = false |- _ => apply Qle_bool_false_lt in H
           end; lra.
Qed.

Lemma getSeverity_monotone_witness :
  severityRank (getSeverity 400 xhr) ≤ severityRank (getSeverity 700 xhr).
Proof. apply (getSeverity_monotone xhr 400 700). done. Defined.


(** ** The aggregates of a region *)

Lemma append_inj_r (p a b : string) : (p ++ a)%string = (p ++ b)%string → a = b.
Proof. induction p as [|c p IH]; simpl; [done|]. intros [= Heq]. by apply IH. Qed.

(** X4. The ids of a region are its name followed by the positions of the
    requests, and no two requests of a region share an id. *)
Theorem parseHarFile_ids_are_unique har regionName fileName region :
  parseHarFile har regionName fileName = Ok region →
  NoDup (map ParsedRequest.id (RegionData.requests region))
  ∧ ∀ i r, RegionData.requests region !! i = Some r →
           ParsedRequest.id r
           = (regionName ++ "-" ++ Js.Z_toString (Z.of_nat i))%string.
Proof.
  intros Hparse.
  destruct (parseHarFile_requests _ _ _ _ Hparse) as (first & rest & _ & Hreqs & _).
  assert (Hid : ∀ i r, RegionData.requests region !! i = Some r →
                       ParsedRequest.id r
                       = (regionName ++ "-" ++ Js.Z_toString (Z.of_nat i))%string).
  { intros i r Hr. rewrite Hreqs, list_lookup_imap in Hr.
    destruct ((first :: rest) !! i); simpl in Hr; [|done]. by injection Hr as <-. }
  split; [|exact Hid].
  apply NoDup_alt. intros i j id Hi Hj.
  change (map ParsedRequest.id) with (fmap (M:=list) ParsedRequest.id) in Hi, Hj.
  rewrite list_lookup_fmap in Hi, Hj.
  destruct (RegionData.requests region !! i) as [ri|] eqn:Ei; [|done].
  destruct (RegionData.requests region !! j) as [rj|] eqn:Ej; [|done].
  simpl in Hi, Hj. injection Hi as Hi. injection Hj as Hj.
  rewrite (Hid _ _ Ei) in Hi. rewrite (Hid _ _ Ej) in Hj. rewrite <- Hj in Hi.
  apply append_inj_r, append_inj_r, Z_toString_inj in Hi. lia.
Qed.

Lemma parseHarFile_ids_are_unique_witness :
  ∃ region,
    parseHarFile chronologicalHar "tw" "tw.har" = Ok region
    ∧ NoDup (map ParsedRequest.id (RegionData.requests region))
    ∧ ∀ i r, RegionData.requests region !! i = Some r →
             ParsedRequest.id r
             = ("tw" ++ "-" ++ Js.Z_toString (Z.of_nat i))%string.
Proof.
  eexists. split; [reflexivity|].
  apply (parseHarFile_ids_are_unique chronologicalHar "tw" "tw.har"). reflexivity.
Defined.

Lemma parseHarFile_fields har regionName fileName region :
  parseHarFile har regionName fileName = Ok region →
  RegionData.requestCount region = length (RegionData.requests region)
  ∧ RegionData.slowRequests region
    = length (List.filter (fun r => negb (is_normal (ParsedRequest.severity r)))
                (RegionData.requests region))
  ∧ RegionData.totalSize region
    = fold_left
        (fun sum r =>
           (sum + (if negb (Qle_bool (ParsedRequest.size r) 0)
                   then ParsedRequest.size r else 0))%Q)
        (RegionData.requests region) 0%Q
  ∧ RegionData.issues region
    = flat_map requestIssues
        (List.filter (fun r => negb (Nat.eqb (length (ParsedRequest.issues r)) 0))
           (RegionData.requests region))
  ∧ RegionData.name region = regionName
  ∧ RegionData.fileName region = fileName.
Proof.
  unfold parseHarFile. destruct (HarLog.entries (HarFile.log har)); [done|].
  intros [= <-]. done.
Qed.

Lemma positive_sum_nonnegative {A} (value : A → Q) (xs : list A) (start : Q) :
  (0 <= start)%Q →
  (0 <= fold_left
          (fun sum x => (sum + (if negb (Qle_bool (value x) 0) then value x else 0))%Q)
          xs start)%Q.
Proof.
  revert start. induction xs as [|x xs IH]; intros start Hstart; simpl; [done|].
  apply IH. destruct (Qle_bool (value x) 0) eqn:E; simpl; [lra|].
  apply Qle_bool_false_lt in E. lra.
Qed.

(** X5. The counters of a region: as many requests as the capture has
    entries, no more slow requests than requests, none exactly when every
    request is rated normal, and a total size that is never negative,
    whatever sizes the capture declares. *)
Theorem parseHarFile_counters har regionName fileName region :
  parseHarFile har regionName fileName = Ok region →
  RegionData.requestCount region = length (HarLog.entries (HarFile.log har))
  ∧ RegionData.requestCount region = length (RegionData.requests region)
  ∧ RegionData.slowRequests region ≤ RegionData.requestCount region
  ∧ (RegionData.slowRequests region = 0
     ↔ ∀ r, r ∈ RegionData.requests region → ParsedRequest.severity r = normal)
  ∧ (0 <= RegionData.totalSize region)%Q.
Proof.
  intros Hparse.
  destruct (parseHarFile_fields _ _ _ _ Hparse) as (Hcount & Hslow & Hsize & _).
  destruct (parseHarFile_requests _ _ _ _ Hparse) as (first & rest & Hentries & Hreqs & _).
  split; [by rewrite Hcount, Hentries, Hreqs, length_imap|]. split; [done|].
  split; [rewrite Hcount, Hslow; apply List.filter_length_le|]. split.
  - rewrite Hslow. split.
    + intros Hzero r Hr. apply length_zero_iff_nil in Hzero.
      destruct (ParsedRequest.severity r) eqn:Hs; [done| |];
        (assert (Hin : In r (List.filter
                               (fun r => negb (is_normal (ParsedRequest.severity r)))
                               (RegionData.requests region)))
           by (apply List.filter_In; split; [by apply list_elem_of_In|by rewrite Hs]);
         rewrite Hzero in Hin; destruct Hin).
    + intros Hall. apply length_zero_iff_nil.
      destruct (List.filter _ _) as [|r l] eqn:Hf; [done|].
      assert (Hin : In r (r :: l)) by (by left). rewrite <- Hf in Hin.
      apply List.filter_In in Hin as [Hin Hsev].
      rewrite (Hall r) in Hsev; [done|by apply list_elem_of_In].
  - rewrite Hsize. by apply positive_sum_nonnegative.
Qed.

Lemma parseHarFile_counters_witness :
  ∃ region,
    parseHarFile chronologicalHar "tw" "tw.har" = Ok region
    ∧ RegionData.requestCount region
      = length (HarLog.entries (HarFile.log chronologicalHar))
    ∧ RegionData.requestCount region = length (RegionData.requests region)
    ∧ RegionData.slowRequests region ≤ RegionData.requestCount region
    ∧ (RegionData.slowRequests region = 0
       ↔ ∀ r, r ∈ RegionData.requests region → ParsedRequest.severity r = normal)
    ∧ (0 <= RegionData.totalSize region)%Q.
Proof.
  eexists. split; [reflexivity|].
  apply (parseHarFile_counters chronologicalHar "tw" "tw.har"). reflexivity.
Defined.

(** X6. The issue list of a region holds exactly the issues of its requests:
    every entry carries the message of an issue of a request together with
    that request's URL, severity and duration, its category is the one of
    the message's phase and never [large_payload], and every issue of
    every request has its entry. *)
Theorem parseHarFile_issues_of_requests har regionName fileName region :
  parseHarFile har regionName fileName = Ok region →
  (∀ issue, issue ∈ RegionData.issues region →
     ∃ r, r ∈ RegionData.requests region
          ∧ AnalysisIssue.message issue ∈ ParsedRequest.issues r
          ∧ AnalysisIssue.url issue = ParsedRequest.url r
          ∧ AnalysisIssue.severity issue = ParsedRequest.severity r
          ∧ AnalysisIssue.value issue = ParsedRequest.time r
          ∧ AnalysisIssue.type issue = categorizeIssue (AnalysisIssue.message issue)
          ∧ AnalysisIssue.type issue ≠ large_payload)
  ∧ (∀ r message, r ∈ RegionData.requests region →
       message ∈ ParsedRequest.issues r →
       ∃ issue, issue ∈ RegionData.issues region
                ∧ AnalysisIssue.message issue = message
                ∧ AnalysisIssue.url issue = ParsedRequest.url r).
Proof.
  intros Hparse.
  destruct (parseHarFile_fields _ _ _ _ Hparse) as (_ & _ & _ & Hissues & _).
  destruct (parseHarFile_requests _ _ _ _ Hparse) as (first & rest & _ & Hreqs & _).
  rewrite Hissues. split.
  - intros issue Hin. apply list_elem_of_In, in_flat_map in Hin as (r & Hr & Hin).
    apply List.filter_In in Hr as [Hr _]. apply list_elem_of_In in Hr.
    unfold requestIssues in Hin. apply in_map_iff in Hin as (message & <- & Hm).
    exists r. simpl. split; [done|]. split; [by apply list_elem_of_In|].
    repeat (split; [done|]).
    rewrite Hreqs in Hr. apply elem_of_lookup_imap in Hr as (i & e & -> & _).
    simpl in Hm. intros Hpayload.
    apply (issueCategories_phases (normalizeTimings (HarEntry.timings e))).
    rewrite <- categories_of_issues, <- Hpayload.
    apply list_elem_of_fmap. exists message. split; [done|by apply list_elem_of_In].
  - intros r message Hr Hm.
    exists (AnalysisIssue.mk (categorizeIssue message) (ParsedRequest.severity r) message
              (ParsedRequest.url r) (ParsedRequest.time r) 0).
    split; [|done]. apply list_elem_of_In, in_flat_map. exists r. split.
    + apply List.filter_In. split; [by apply list_elem_of_In|].
      destruct (ParsedRequest.issues r); [by inversion Hm|done].
    + unfold requestIssues. apply in_map_iff. exists message.
      split; [done|by apply list_elem_of_In].
Qed.

Definition slowDnsHar : HarFile.t := harOf [slowDnsEntry].

Lemma parseHarFile_issues_of_requests_witness :
  ∃ region,
    parseHarFile slowDnsHar "tw" "tw.har" = Ok region
    ∧ (∀ issue, issue ∈ RegionData.issues region →
         ∃ r, r ∈ RegionData.requests region
              ∧ AnalysisIssue.message issue ∈ ParsedRequest.issues r
              ∧ AnalysisIssue.url issue = ParsedRequest.url r
              ∧ AnalysisIssue.severity issue = ParsedRequest.severity r
              ∧ AnalysisIssue.value issue = ParsedRequest.time r
              ∧ AnalysisIssue.type issue = categorizeIssue (AnalysisIssue.message issue)
              ∧ AnalysisIssue.type issue ≠ large_payload)
    ∧ (∀ r message, r ∈ RegionData.requests region →
         message ∈ ParsedRequest.issues r →
         ∃ issue, issue ∈ RegionData.issues region
                  ∧ AnalysisIssue.message issue = message
                  ∧ AnalysisIssue.url issue = ParsedRequest.url r).
Proof.
  eexists. split; [reflexivity|].
  apply (parseHarFile_issues_of_requests slowDnsHar "tw" "tw.har"). reflexivity.
Defined.


(** ** What the comparator records *)

(** The entry that [urlMap] holds for a canonical URL and a region. *)
Definition recorded (urlMap : UrlMap) (key name : string) : option RegionTiming.t :=
  match Js.Map_get urlMap key with
  | Some regionMap => Js.Map_get regionMap name
  | None => None
  end.

Definition timingOf (request : ParsedRequest.t) : RegionTiming.t :=
  RegionTiming.mk (ParsedRequest.time request) (ParsedRequest.timings request).

Section ComparatorRecords.
Context `{Platform}.

(** One request changes the entry of its own URL and region only: the
    entry becomes the request when there was none or a faster one. *)
Lemma recordRequest_recorded name urlMap request key :
  getBaseUrl (ParsedRequest.url request) = Ok key →
  ∃ urlMap',
    recordRequest name urlMap request = Ok urlMap'
    ∧ (NoDup (map fst urlMap) → NoDup (map fst urlMap'))
    ∧ recorded urlMap' key name
      = Some match recorded urlMap key name with
             | Some e =>
                 if negb (Qle_bool (ParsedRequest.time request) (RegionTiming.time e))
                 then timingOf request else e
             | None => timingOf request
             end
    ∧ ∀ k n, (k ≠ key ∨ n ≠ name) → recorded urlMap' k n = recorded urlMap k n.
Proof.
  intros Hkey. unfold recordRequest. rewrite Hkey. simpl.
  set (urlMap1 := if negb (Js.Map_has urlMap key) then Js.Map_set urlMap key [] else urlMap).
  assert (Hnd1 : NoDup (map fst urlMap) → NoDup (map fst urlMap1)).
  { subst urlMap1. destruct (Js.Map_has urlMap key); simpl; [done|].
    apply Map_set_keys_NoDup. }
  assert (Hrec1 : ∀ k n, recorded urlMap1 k n = recorded urlMap k n).
  { intros k n. subst urlMap1. unfold recorded, Js.Map_has.
    destruct (Js.Map_get urlMap key) eqn:Hg; simpl; [done|].
    destruct (String.eqb_spec k key) as [->|Hne].
    - by rewrite Map_get_set, Hg.
    - by rewrite Map_get_set_ne. }
  assert (Hget : ∃ regionMap, Js.Map_get urlMap1 key = Some regionMap).
  { subst urlMap1. unfold Js.Map_has.
    destruct (Js.Map_get urlMap key) eqn:Hg; simpl; [eauto|].
    rewrite Map_get_set. eauto. }
  destruct Hget as [regionMap Hget]. rewrite Hget. simpl.
  assert (Hold : recorded urlMap key name = Js.Map_get regionMap name).
  { rewrite <- Hrec1. unfold recorded. by rewrite Hget. }
  rewrite Hold. fold (timingOf request).
  destruct (Js.Map_get regionMap name) as [e|] eqn:He.
  - destruct (negb (Qle_bool (ParsedRequest.time request) (RegionTiming.time e))) eqn:Hc.
    + eexists. split; [reflexivity|]. split; [|split].
      * intros Hnd. by apply Map_set_keys_NoDup, Hnd1.
      * unfold recorded. by rewrite !Map_get_set.
      * intros k n Hne. rewrite <- Hrec1. unfold recorded.
        destruct (String.eqb_spec k key) as [->|Hk].
        -- rewrite Map_get_set, Hget. destruct Hne as [Hne|Hne]; [done|].
           by rewrite Map_get_set_ne.
        -- by rewrite Map_get_set_ne.
    + eexists. split; [reflexivity|]. split; [done|]. split.
      * rewrite Hrec1, Hold. done.
      * intros k n _. apply Hrec1.
  - eexists. split; [reflexivity|]. split; [|split].
    + intros Hnd. by apply Map_set_keys_NoDup, Hnd1.
    + unfold recorded. by rewrite !Map_get_set.
    + intros k n Hne. rewrite <- Hrec1. unfold recorded.
      destruct (String.eqb_spec k key) as [->|Hk].
      * rewrite Map_get_set, Hget. destruct Hne as [Hne|Hne]; [done|].
        by rewrite Map_get_set_ne.
      * by rewrite Map_get_set_ne.
Qed.

(** The requests seen so far, each with the name of its region. *)
Definition namedRequests (regions : list RegionData.t) : list (string * ParsedRequest.t) :=
  flat_map (fun region => map (pair (RegionData.name region)) (RegionData.requests region))
    regions.

(** [urlMap] holds, for every URL and region, the slowest of the requests
    seen: each entry is the time and the timings of a seen request of that
    region and URL, and no seen request of that region and URL is slower. *)
Definition keepsSlowest (seen : list (string * ParsedRequest.t)) (urlMap : UrlMap) : Prop :=
  NoDup (map fst urlMap)
  ∧ (∀ key name t, recorded urlMap key name = Some t →
       ∃ request, (name, request) ∈ seen
                  ∧ getBaseUrl (ParsedRequest.url request) = Ok key
                  ∧ t = timingOf request)
  ∧ (∀ name request key, (name, request) ∈ seen →
       getBaseUrl (ParsedRequest.url request) = Ok key →
       ∃ t, recorded urlMap key name = Some t
            ∧ (ParsedRequest.time request <= RegionTiming.time t)%Q).

Lemma recordRequest_keepsSlowest seen name urlMap request :
  keepsSlowest seen urlMap →
  ∃ urlMap', recordRequest name urlMap request = Ok urlMap'
             ∧ keepsSlowest (seen ++ [(name, request)]) urlMap'.
Proof.
  intros (Hnd & Hsound & Hcover).
  destruct (getBaseUrl_Ok (ParsedRequest.url request)) as [key Hkey].
  destruct (recordRequest_recorded name urlMap request key Hkey)
    as (urlMap' & Hrun & Hnd' & Hsame & Hother).
  exists urlMap'. split; [done|]. split; [by apply Hnd'|]. split.
  - intros k n t Ht.
    destruct (String.eqb_spec k key) as [->|Hk];
      [destruct (String.eqb_spec n name) as [->|Hn]|].
    + rewrite Hsame in Ht. injection Ht as <-.
      destruct (recorded urlMap key name) as [e|] eqn:He.
      * destruct (negb (Qle_bool (ParsedRequest.time request) (RegionTiming.time e))).
        -- exists request. split; [|done]. apply elem_of_app. right. left.
        -- destruct (Hsound _ _ _ He) as (r & Hr & Hrest).
           exists r. split; [|done]. apply elem_of_app. by left.
      * exists request. split; [|done]. apply elem_of_app. right. left.
    + rewrite Hother in Ht by (by right).
      destruct (Hsound _ _ _ Ht) as (r & Hr & Hrest).
      exists r. split; [|done]. apply elem_of_app. by left.
    + rewrite Hother in Ht by (by left).
      destruct (Hsound _ _ _ Ht) as (r & Hr & Hrest).
      exists r. split; [|done]. apply elem_of_app. by left.
  - intros n r k Hin Hk.
    assert (Hgrow : ∀ t, recorded urlMap k n = Some t →
              ∃ t', recorded urlMap' k n = Some t'
                    ∧ (RegionTiming.time t <= RegionTiming.time t')%Q).
    { intros t Ht.
      destruct (String.eqb_spec k key) as [->|Hne];
        [destruct (String.eqb_spec n name) as [->|Hn]|].
      - rewrite Hsame, Ht.
        destruct (negb (Qle_bool (ParsedRequest.time request) (RegionTiming.time t)))
          eqn:Hc.
        + eexists. split; [done|]. simpl.
          apply negb_true_iff, Qle_bool_false_lt in Hc. lra.
        + eexists. split; [done|]. lra.
      - rewrite Hother by (by right). exists t. split; [done|lra].
      - rewrite Hother by (by left). exists t. split; [done|lra]. }
    apply elem_of_app in Hin as [Hin|Hin].
    + destruct (Hcover _ _ _ Hin Hk) as (t & Ht & Hle).
      destruct (Hgrow t Ht) as (t' & Ht' & Hle'). exists t'. split; [done|lra].
    + apply list_elem_of_singleton in Hin as [= -> ->].
      assert (k = key) as -> by congruence.
      rewrite Hsame. eexists. split; [done|].
      destruct (recorded urlMap key name) as [e|].
      * destruct (negb (Qle_bool (ParsedRequest.time request) (RegionTiming.time e)))
          eqn:Hc; simpl; [lra|].
        apply negb_false_iff, Qle_bool_iff in Hc. done.
      * simpl. lra.
Qed.

Lemma buildUrlMap_keepsSlowest regions :
  ∃ urlMap, buildUrlMap regions = Ok urlMap ∧ keepsSlowest (namedRequests regions) urlMap.
Proof.
  unfold buildUrlMap.
  destruct (for_of_prefix_invariant recordRegion
              (fun pre urlMap => keepsSlowest (namedRequests pre) urlMap) regions [] [])
    as (urlMap & Hrun & Hinv).
  - split; [constructor|]. split.
    + intros key name t Ht. unfold recorded in Ht. done.
    + intros name request key Hin. by inversion Hin.
  - intros pre region urlMap _ Hinv. unfold recordRegion.
    destruct (for_of_prefix_invariant (recordRequest (RegionData.name region))
                (fun done urlMap =>
                   keepsSlowest
                     (namedRequests pre ++ map (pair (RegionData.name region)) done)
                     urlMap)
                (RegionData.requests region) [] urlMap) as (urlMap' & Hrun & Hinv').
    + simpl. by rewrite app_nil_r.
    + intros done request um _ Hum.
      destruct (recordRequest_keepsSlowest _ (RegionData.name region) um request Hum)
        as (um' & Hstep & Hum').
      exists um'. split; [done|]. by rewrite map_app, app_assoc.
    + exists urlMap'. split; [done|]. simpl in Hinv'.
      unfold namedRequests. rewrite flat_map_app. simpl. by rewrite app_nil_r.
  - exists urlMap. by split.
Qed.

End ComparatorRecords.


Section ComparatorResults.
Context `{Platform}.

Lemma elem_of_namedRequests regions name request :
  (name, request) ∈ namedRequests regions
  ↔ ∃ region, region ∈ regions ∧ RegionData.name region = name
              ∧ request ∈ RegionData.requests region.
Proof.
  unfold namedRequests. rewrite list_elem_of_In, in_flat_map. split.
  - intros (region & Hregion & Hin). apply in_map_iff in Hin as (r & [= <- <-] & Hr).
    exists region. by rewrite !list_elem_of_In.
  - intros (region & Hregion & <- & Hr). exists region.
    rewrite <- list_elem_of_In. split; [done|].
    apply in_map_iff. exists request. by rewrite <- list_elem_of_In.
Qed.

(** The comparator run, step by step. *)
Lemma compareRegions_run regions :
  2 ≤ length regions →
  ∃ urlMap comparisons,
    buildUrlMap regions = Ok urlMap
    ∧ for_of compareUrl urlMap [] = Ok comparisons
    ∧ compareRegions regions = Ok (Js.sort byMaxDiffDesc comparisons).
Proof.
  intros Hge. unfold compareRegions.
  destruct (Nat.ltb_spec (length regions) 2) as [Hlt|_]; [lia|].
  destruct (buildUrlMap_sound regions) as (urlMap & Hbuild & _).
  destruct (compareUrl_loop urlMap) as (comparisons & Hloop & _).
  exists urlMap, comparisons. split; [done|]. split; [done|].
  rewrite Hbuild. simpl. by rewrite Hloop.
Qed.

Lemma find_ext {A} (p q : A → bool) (l : list A) :
  (∀ x, p x = q x) → List.find p l = List.find q l.
Proof.
  intros Hpq. induction l as [|a l IH]; simpl; [done|]. by rewrite Hpq, IH.
Qed.

Lemma Qeq_bool_Qeq_r (x y z : Q) : (y == z)%Q → Qeq_bool x y = Qeq_bool x z.
Proof.
  intros Hyz. destruct (Qeq_bool x z) eqn:E.
  - apply Qeq_bool_iff. apply Qeq_bool_iff in E. by rewrite Hyz.
  - destruct (Qeq_bool x y) eqn:E'; [|done].
    apply Qeq_bool_iff in E'. rewrite Hyz in E'. apply Qeq_bool_iff in E'. congruence.
Qed.

(** The slowest and the fastest region of a comparison are the first of
    its entries with the largest and with the smallest duration, and the
    spread is the difference of the two. *)
Definition namesExtremes (c : ComparisonResult.t) : Prop :=
  ∃ slowest fastest d,
    List.find (fun e => Qeq_bool (RegionResult.time e) (RegionResult.time slowest))
      (ComparisonResult.regions c) = Some slowest
    ∧ List.find (fun e => Qeq_bool (RegionResult.time e) (RegionResult.time fastest))
        (ComparisonResult.regions c) = Some fastest
    ∧ ComparisonResult.slowestRegion c = RegionResult.name slowest
    ∧ ComparisonResult.fastestRegion c = RegionResult.name fastest
    ∧ (∀ e, e ∈ ComparisonResult.regions c →
            (RegionResult.time fastest <= RegionResult.time e)%Q
            ∧ (RegionResult.time e <= RegionResult.time slowest)%Q)
    ∧ ComparisonResult.maxDiff c = Js.Fin d
    ∧ (d == RegionResult.time slowest - RegionResult.time fastest)%Q.

Lemma compareUrl_names comparisons key (regionMap : Js.Map RegionTiming.t) :
  ∃ comparisons',
    compareUrl comparisons (key, regionMap) = Ok comparisons'
    ∧ (comparisons' = comparisons
       ∨ ∃ c, comparisons' = comparisons ++ [c]
              ∧ ComparisonResult.url c = key ∧ namesExtremes c).
Proof.
  unfold compareUrl. simpl fst. simpl snd. unfold Js.Map_size.
  destruct (Nat.ltb_spec (length regionMap) 2) as [Hlt|Hge]; [eauto|].
  set (regionResults := regionResultsOf regionMap).
  change (map RegionResult.time regionResults) with (timesOf regionResults).
  destruct (significant _ _); [|eauto].
  destruct (timesOf_nonempty regionMap Hge) as (t & ts & Htimes).
  fold regionResults in Htimes.
  destruct (Math_max_nonempty t ts) as (M & HM & HMin & HMle).
  destruct (Math_min_nonempty t ts) as (m & Hm & Hmin & Hmle).
  rewrite <- Htimes in HM, Hm, HMin, Hmin, HMle, Hmle. rewrite HM, Hm.
  destruct (find_time_eq regionResults M HMin) as [slowest Hslow].
  destruct (find_time_eq regionResults m Hmin) as [fastest Hfast].
  rewrite Hslow, Hfast. simpl. eexists. split; [reflexivity|]. right.
  eexists. split; [reflexivity|]. split; [done|].
  destruct (find_first _ _ _ Hslow) as (HsM & _).
  destruct (find_first _ _ _ Hfast) as (Hfm & _).
  simpl in HsM, Hfm. apply Qeq_bool_iff in HsM, Hfm.
  exists slowest, fastest, (M - m)%Q. simpl.
  split; [|split].
  - rewrite <- Hslow. apply find_ext. intros e. simpl. by apply Qeq_bool_Qeq_r.
  - rewrite <- Hfast. apply find_ext. intros e. simpl. by apply Qeq_bool_Qeq_r.
  - split; [done|]. split; [done|]. split; [|split; [done|by rewrite HsM, Hfm]].
    intros e He.
    assert (Hin : RegionResult.time e ∈ timesOf regionResults)
      by (unfold timesOf; apply list_elem_of_fmap; eauto).
    pose proof (HMle _ Hin). pose proof (Hmle _ Hin). split; lra.
Qed.

Lemma compareUrl_loop_names (urlMap : UrlMap) comparisons :
  for_of compareUrl urlMap [] = Ok comparisons →
  Forall namesExtremes comparisons
  ∧ map ComparisonResult.url comparisons `sublist_of` map fst urlMap.
Proof.
  intros Hrun.
  destruct (for_of_prefix_invariant compareUrl
              (fun seen cs =>
                 Forall namesExtremes cs
                 ∧ map ComparisonResult.url cs `sublist_of` map fst seen)
              urlMap [] []) as (cs & Hrun' & Hinv).
  - split; [constructor|]. simpl. constructor.
  - intros pre [key rm] cs _ [Hnames Hsub].
    destruct (compareUrl_names cs key rm) as (cs' & Hstep & Hcases).
    exists cs'. split; [done|]. rewrite map_app. simpl.
    destruct Hcases as [->|(c & -> & Hurl & Hc)].
    + split; [done|]. by apply sublist_inserts_r.
    + split; [apply Forall_app; split; [done|by apply Forall_singleton]|].
      rewrite map_app. simpl. rewrite Hurl. by apply sublist_app.
  - simpl in Hinv. rewrite Hrun in Hrun'. by injection Hrun' as <-.
Qed.

Lemma compareRegions_cases regions :
  (length regions < 2 ∧ compareRegions regions = Ok [])
  ∨ ∃ urlMap comparisons,
      2 ≤ length regions
      ∧ buildUrlMap regions = Ok urlMap
      ∧ for_of compareUrl urlMap [] = Ok comparisons
      ∧ compareRegions regions = Ok (Js.sort byMaxDiffDesc comparisons).
Proof.
  destruct (Nat.ltb_spec (length regions) 2) as [Hlt|Hge].
  - left. split; [done|]. unfold compareRegions.
    by rewrite (proj2 (Nat.ltb_lt _ _) Hlt).
  - right. destruct (compareRegions_run regions Hge) as (urlMap & cs & Hrest).
    exists urlMap, cs. by split.
Qed.


(** X8. No canonical URL is compared twice. *)
Theorem compareRegions_urls_are_unique (regions : list RegionData.t) :
  ∃ comparisons,
    compareRegions regions = Ok comparisons
    ∧ NoDup (map ComparisonResult.url comparisons).
Proof.
  destruct (compareRegions_cases regions)
    as [[_ Hnone]|(urlMap & cs & _ & Hbuild & Hloop & Hrun)].
  - exists []. split; [done|constructor].
  - eexists. split; [exact Hrun|].
    change (map ComparisonResult.url) with (fmap (M:=list) ComparisonResult.url).
    rewrite (sort_Permutation byMaxDiffDesc cs).
    destruct (compareUrl_loop_names urlMap cs Hloop) as [_ Hsub].
    destruct (buildUrlMap_keepsSlowest regions) as (urlMap' & Hbuild' & Hnd & _).
    rewrite Hbuild in Hbuild'. injection Hbuild' as <-.
    by eapply sublist_NoDup.
Qed.

(** X9. The duration that a comparison lists for a region is the slowest
    occurrence of the URL in that region: it is the duration, with the
    timings, of one of the region's requests with that canonical URL, and
    no request of a region of that name with that canonical URL took
    longer. *)
Theorem compareRegions_keeps_slowest_occurrence (regions : list RegionData.t) :
  ∃ comparisons,
    compareRegions regions = Ok comparisons
    ∧ ∀ c entry, c ∈ comparisons → entry ∈ ComparisonResult.regions c →
        (∃ region request,
           region ∈ regions ∧ request ∈ RegionData.requests region
           ∧ RegionData.name region = RegionResult.name entry
           ∧ getBaseUrl (ParsedRequest.url request) = Ok (ComparisonResult.url c)
           ∧ ParsedRequest.time request = RegionResult.time entry
           ∧ ParsedRequest.timings request = RegionResult.timings entry)
        ∧ (∀ region request,
             region ∈ regions → request ∈ RegionData.requests region →
             RegionData.name region = RegionResult.name entry →
             getBaseUrl (ParsedRequest.url request) = Ok (ComparisonResult.url c) →
             (ParsedRequest.time request <= RegionResult.time entry)%Q).
Proof.
  destruct (compareRegions_cases regions)
    as [[_ Hnone]|(urlMap & cs & _ & Hbuild & Hloop & Hrun)].
  { exists []. split; [done|]. intros c entry Hc. by inversion Hc. }
  eexists. split; [exact Hrun|]. intros c entry Hc Hentry.
  apply elem_of_sort in Hc.
  destruct (buildUrlMap_keepsSlowest regions) as (um1 & Hb1 & Hnd & Hsound & Hcover).
  rewrite Hbuild in Hb1. injection Hb1 as <-.
  destruct (buildUrlMap_sound regions) as (um2 & Hb2 & Hinner).
  rewrite Hbuild in Hb2. injection Hb2 as <-.
  destruct (compareUrl_loop urlMap) as (cs' & Hloop' & Hcs & _).
  rewrite Hloop in Hloop'. injection Hloop' as <-.
  destruct (proj1 (Forall_forall _ _) Hcs c Hc) as (rm & Hin & _ & Hregions & _).
  rewrite Hregions in Hentry. unfold regionResultsOf in Hentry.
  apply list_elem_of_fmap in Hentry as ([name t] & -> & Hnt). simpl.
  destruct (Hinner _ _ Hin) as [Hnd_rm _].
  assert (Hrec : recorded urlMap (ComparisonResult.url c) name = Some t).
  { unfold recorded. rewrite (Map_elem_get urlMap _ rm Hnd Hin).
    by apply Map_elem_get. }
  split.
  - destruct (Hsound _ _ _ Hrec) as (request & Hseen & Hkey & ->).
    apply elem_of_namedRequests in Hseen as (region & Hregion & Hname & Hreq).
    exists region, request. done.
  - intros region request Hregion Hreq Hname Hkey.
    destruct (Hcover name request (ComparisonResult.url c)) as (t' & Ht' & Hle);
      [apply elem_of_namedRequests; eauto|done|].
    rewrite Hrec in Ht'. by injection Ht' as <-.
Qed.

End ComparatorResults.


(** ** Sorting lists whose comparator is an order on their elements *)

Section SortedOn.
Context {A : Type} (cmp : A → A → Js.number) (P : A → Prop).
Hypothesis cmp_total_on : ∀ a b, P a → P b → keepsOrder cmp a b ∨ keepsOrder cmp b a.
Hypothesis cmp_trans_on :
  ∀ a b c, P a → P b → P c → keepsOrder cmp a b → keepsOrder cmp b c → keepsOrder cmp a c.

Lemma sort_insert_sorted_on (x : A) (l : list A) :
  P x → Forall P l →
  StronglySorted (keepsOrder cmp) l →
  StronglySorted (keepsOrder cmp) (Js.sort_insert cmp x l).
Proof.
  intros Hx. induction l as [|y l IH]; simpl; intros HP Hs.
  - repeat constructor.
  - apply Forall_cons in HP as [Hy HP].
    apply StronglySorted_inv in Hs as [Hl Hyl].
    destruct (Js.gt (cmp x y) (Js.Fin 0)) eqn:E.
    + constructor; [by apply IH|].
      rewrite sort_insert_Permutation. constructor; [|done].
      destruct (cmp_total_on x y Hx Hy) as [Hxy|Hyx]; [|done].
      unfold keepsOrder in Hxy. congruence.
    + constructor; [by constructor|]. constructor; [done|].
      apply Forall_forall. intros z Hz.
      apply (cmp_trans_on x y z); [done|done| |done|].
      * by apply (proj1 (Forall_forall _ _) HP).
      * by apply (proj1 (Forall_forall _ _) Hyl).
Qed.

Lemma sort_sorted_on (l : list A) :
  Forall P l → StronglySorted (keepsOrder cmp) (Js.sort cmp l).
Proof.
  induction l as [|x l IH]; simpl; intros HP; [constructor|].
  apply Forall_cons in HP as [Hx HP].
  apply sort_insert_sorted_on; [done| |by apply IH].
  apply Forall_forall. intros y Hy. apply elem_of_sort in Hy.
  by apply (proj1 (Forall_forall _ _) HP).
Qed.

End SortedOn.

Lemma StronglySorted_weaken_on {A} (P : A → Prop) (R R' : A → A → Prop) (l : list A) :
  Forall P l → (∀ a b, P a → P b → R a b → R' a b) →
  StronglySorted R l → StronglySorted R' l.
Proof.
  intros HP HR Hs. induction Hs as [|x l Hs IH Hx]; constructor.
  - apply Forall_cons in HP as [_ HP]. by apply IH.
  - apply Forall_cons in HP as [Hpx HP].
    apply Forall_forall. intros y Hy.
    apply HR; [done| |].
    + by apply (proj1 (Forall_forall _ _) HP).
    + by apply (proj1 (Forall_forall _ _) Hx).
Qed.

Definition finiteSpread (c : ComparisonResult.t) : Prop :=
  ∃ d, ComparisonResult.maxDiff c = Js.Fin d.

(** [a] is listed before [b]: its spread is not the smaller one. *)
Definition spreadNotSmaller (a b : ComparisonResult.t) : Prop :=
  ∃ x y, ComparisonResult.maxDiff a = Js.Fin x
         ∧ ComparisonResult.maxDiff b = Js.Fin y ∧ (y <= x)%Q.

Lemma byMaxDiffDesc_keeps (a b : ComparisonResult.t) x y :
  ComparisonResult.maxDiff a = Js.Fin x → ComparisonResult.maxDiff b = Js.Fin y →
  keepsOrder byMaxDiffDesc a b ↔ (y <= x)%Q.
Proof.
  intros Ha Hb. unfold keepsOrder, byMaxDiffDesc. rewrite Ha, Hb. simpl Js.sub.
  rewrite gt_Fin_false. split; lra.
Qed.

Section ComparatorOrder.
Context `{Platform}.

(** X10. The comparisons come with the largest spread first. *)
Theorem compareRegions_largest_spread_first (regions : list RegionData.t) :
  ∃ comparisons,
    compareRegions regions = Ok comparisons
    ∧ StronglySorted spreadNotSmaller comparisons.
Proof.
  destruct (compareRegions_cases regions)
    as [[_ Hnone]|(urlMap & cs & _ & _ & Hloop & Hrun)].
  { exists []. split; [done|constructor]. }
  eexists. split; [exact Hrun|].
  destruct (compareUrl_loop_names urlMap cs Hloop) as [Hnames _].
  assert (Hfin : Forall finiteSpread cs).
  { eapply Forall_impl; [exact Hnames|].
    intros c (s & f & d & _ & _ & _ & _ & _ & Hd & _). by exists d. }
  apply (StronglySorted_weaken_on finiteSpread (keepsOrder byMaxDiffDesc)).
  - apply Forall_forall. intros c Hc. apply elem_of_sort in Hc.
    by apply (proj1 (Forall_forall _ _) Hfin).
  - intros a b [x Hx] [y Hy] Hkeep. exists x, y.
    split; [done|]. split; [done|]. by apply (byMaxDiffDesc_keeps a b x y).
  - apply (sort_sorted_on byMaxDiffDesc finiteSpread); [| |done].
    + intros a b [x Hx] [y Hy].
      rewrite (byMaxDiffDesc_keeps a b x y), (byMaxDiffDesc_keeps b a y x) by done.
      lra.
    + intros a b c [x Hx] [y Hy] [z Hz].
      rewrite (byMaxDiffDesc_keeps a b x y), (byMaxDiffDesc_keeps b c y z),
        (byMaxDiffDesc_keeps a c x z) by done.
      lra.
Qed.

End ComparatorOrder.


(** ** The four timing families of the synthesizer *)

Lemma collectIssues_elem select regions (i : IssueDetail.t) :
  i ∈ collectIssues select regions
  ↔ ∃ region request,
      region ∈ regions ∧ request ∈ RegionData.requests region
      ∧ select (RegionData.name region) request = Some i.
Proof.
  unfold collectIssues. rewrite list_elem_of_In, in_flat_map. split.
  - intros (region & Hregion & Hin). apply in_flat_map in Hin as (request & Hreq & Hin).
    exists region, request. rewrite !list_elem_of_In. split; [done|]. split; [done|].
    destruct (select (RegionData.name region) request); simpl in Hin; [|done].
    by destruct Hin as [->|[]].
  - intros (region & request & Hregion & Hreq & Hsel).
    exists region. rewrite <- list_elem_of_In. split; [done|].
    apply in_flat_map. exists request. rewrite <- list_elem_of_In. split; [done|].
    rewrite Hsel. by left.
Qed.

Lemma byValueDesc_keeps (a b : IssueDetail.t) :
  keepsOrder byValueDesc a b ↔ (IssueDetail.value b <= IssueDetail.value a)%Q.
Proof. unfold keepsOrder, byValueDesc. rewrite gt_Fin_false. split; lra. Qed.

(** The sorted issues start with an issue of the largest value. *)
Lemma sorted_issues_head (issues : list IssueDetail.t) :
  0 < length issues →
  ∃ top rest,
    Js.sort byValueDesc issues = top :: rest
    ∧ top ∈ issues
    ∧ ∀ i, i ∈ issues → (IssueDetail.value i <= IssueDetail.value top)%Q.
Proof.
  intros Hlen.
  pose proof (sort_Permutation byValueDesc issues) as Hperm.
  assert (Hsorted : StronglySorted (keepsOrder byValueDesc) (Js.sort byValueDesc issues)).
  { apply sort_sorted.
    - intros a b. rewrite !byValueDesc_keeps. lra.
    - intros a b c. rewrite !byValueDesc_keeps. lra. }
  destruct (Js.sort byValueDesc issues) as [|top rest] eqn:Hs.
  { apply Permutation_length in Hperm. simpl in Hperm. lia. }
  exists top, rest. split; [done|]. split; [rewrite <- Hperm; left|].
  intros i Hi. rewrite <- Hperm in Hi.
  apply elem_of_cons in Hi as [->|Hi]; [lra|].
  apply StronglySorted_inv in Hsorted as [_ Hrest].
  apply byValueDesc_keeps. by apply (proj1 (Forall_forall _ _) Hrest).
Qed.

(** What a family makes of its issues: nothing when there are none, and
    otherwise one recommendation of its category, whose priority is read
    off the largest value, whose affected URLs are those of the first 50
    issues by falling value, and whose affected regions are the regions of
    the issues, each once. *)
Definition familyOutcome (limit : Q) (category : Category.t)
    (issues : list IssueDetail.t) (part : list Recommendation.t) : Prop :=
  (issues = [] ∧ part = [])
  ∨ ∃ rec top,
      part = [rec]
      ∧ Recommendation.category rec = category
      ∧ top ∈ issues
      ∧ (∀ i, i ∈ issues → (IssueDetail.value i <= IssueDetail.value top)%Q)
      ∧ Recommendation.priority rec = priorityAbove limit (IssueDetail.value top)
      ∧ Recommendation.affectedUrls rec
        = map IssueDetail.url (Js.slice0 50 (Js.sort byValueDesc issues))
      ∧ Recommendation.affectedRegions rec
        = Js.Set_of (map IssueDetail.region (Js.sort byValueDesc issues)) [].

Section FamilyOutcomes.
Context `{Platform}.

Ltac family_outcome issues :=
  destruct (Nat.ltb_spec 0 (length issues)) as [Hlen|Hlen];
  [ destruct (sorted_issues_head issues Hlen) as (top & rest & Hsort & Htop & Hmax);
    rewrite Hsort; simpl non_null; cbn [bind]
  | exists []; split; [reflexivity|]; left; split; [|reflexivity];
    destruct issues; [reflexivity|simpl in Hlen; lia] ].

Ltac one_outcome top :=
  eexists; split; [reflexivity|]; right; eexists _, top;
  split; [reflexivity|]; simpl;
  match goal with Hsort : Js.sort _ _ = _ |- _ => rewrite ?Hsort end;
  repeat split; done.

Lemma dnsRecommendation_outcome issues :
  ∃ part, dnsRecommendation issues = Ok part
          ∧ familyOutcome 300 Category.dns issues part.
Proof.
  unfold dnsRecommendation. family_outcome issues.
  destruct (map_result_Ok (fun i => getDomain (IssueDetail.url i)) (top :: rest))
    as [domains ->]; [intros i; apply getDomain_Ok|].
  cbn [bind]. one_outcome top.
Qed.

Lemma connectRecommendation_outcome issues :
  ∃ part, connectRecommendation issues = Ok part
          ∧ familyOutcome 500 Category.connection issues part.
Proof. unfold connectRecommendation. family_outcome issues. one_outcome top. Qed.

Lemma ttfbRecommendation_outcome issues :
  ∃ part, ttfbRecommendation issues = Ok part
          ∧ familyOutcome 1500 Category.server issues part.
Proof.
  unfold ttfbRecommendation. family_outcome issues.
  destruct (map_result_Ok (fun i => getBaseUrl (IssueDetail.url i)) (top :: rest))
    as [keys ->]; [intros i; apply getBaseUrl_Ok|].
  cbn [bind]. one_outcome top.
Qed.

Lemma downloadRecommendation_outcome issues :
  ∃ part, downloadRecommendation issues = Ok part
          ∧ familyOutcome 3000 Category.payload issues part.
Proof. unfold downloadRecommendation. family_outcome issues. one_outcome top. Qed.

(** The output of the synthesizer, family by family. *)
Lemma generateRecommendations_parts regions comparisons :
  ∃ dnsPart connectPart ttfbPart downloadPart,
    generateRecommendations regions comparisons
    = Ok (dnsPart ++ connectPart ++ ttfbPart ++ downloadPart
          ++ regionRecommendation comparisons)
    ∧ familyOutcome 300 Category.dns (collectIssues selectDns regions) dnsPart
    ∧ familyOutcome 500 Category.connection (collectIssues selectConnect regions)
        connectPart
    ∧ familyOutcome 1500 Category.server (collectIssues selectTtfb regions) ttfbPart
    ∧ familyOutcome 3000 Category.payload (collectIssues selectDownload regions)
        downloadPart.
Proof.
  unfold generateRecommendations.
  destruct (dnsRecommendation_outcome (collectIssues selectDns regions)) as (p1 & -> & H1).
  destruct (connectRecommendation_outcome (collectIssues selectConnect regions))
    as (p2 & -> & H2).
  destruct (ttfbRecommendation_outcome (collectIssues selectTtfb regions))
    as (p3 & -> & H3).
  destruct (downloadRecommendation_outcome (collectIssues selectDownload regions))
    as (p4 & -> & H4).
  simpl. exists p1, p2, p3, p4. done.
Qed.

End FamilyOutcomes.


(** A request's value of a timing phase, when it has one. *)
Definition dnsOf (r : ParsedRequest.t) : option Q := HarTimings.dns (ParsedRequest.timings r).
Definition connectOf (r : ParsedRequest.t) : option Q :=
  HarTimings.connect (ParsedRequest.timings r).
Definition waitOf (r : ParsedRequest.t) : option Q :=
  Some (HarTimings.wait (ParsedRequest.timings r)).
Definition receiveOf (r : ParsedRequest.t) : option Q :=
  Some (HarTimings.receive (ParsedRequest.timings r)).

(** Some request of some region has the phase above [limit]. *)
Definition metricExceeds (metric : ParsedRequest.t → option Q) (limit : Q)
    (regions : list RegionData.t) : Prop :=
  ∃ region request q,
    region ∈ regions ∧ request ∈ RegionData.requests region
    ∧ metric request = Some q ∧ (limit < q)%Q.

(** The families of the timing phases: category, phase, the threshold
    above which a request counts, and the threshold above which the
    recommendation is of high priority. *)
Definition timingFamilies
    : list (Category.t * (ParsedRequest.t → option Q) * Q * Q) :=
  [ (Category.dns, dnsOf, 100%Q, 300%Q);
    (Category.connection, connectOf, 200%Q, 500%Q);
    (Category.server, waitOf, 500%Q, 1500%Q);
    (Category.payload, receiveOf, 1000%Q, 3000%Q) ].

(** [select] picks the requests whose [metric] is above [base]. *)
Definition selects (select : string → ParsedRequest.t → option IssueDetail.t)
    (metric : ParsedRequest.t → option Q) (base : Q) : Prop :=
  ∀ name request,
    match select name request with
    | Some i =>
        metric request = Some (IssueDetail.value i) ∧ (base < IssueDetail.value i)%Q
        ∧ IssueDetail.url i = ParsedRequest.url request ∧ IssueDetail.region i = name
    | None => ∀ q, metric request = Some q → (q <= base)%Q
    end.

Lemma truthy_above (q limit : Q) :
  (0 <= limit)%Q → Js.truthy q && negb (Qle_bool q limit) = negb (Qle_bool q limit).
Proof.
  intros Hlimit. unfold Js.truthy. destruct (Qle_bool q limit) eqn:E; simpl.
  - apply andb_false_r.
  - apply Qle_bool_false_lt in E.
    destruct (Qeq_bool q 0) eqn:Ez; [|done]. apply Qeq_bool_iff in Ez. lra.
Qed.

Lemma selectDns_selects : selects selectDns dnsOf 100.
Proof.
  intros name request. unfold selectDns, dnsOf.
  destruct (HarTimings.dns (ParsedRequest.timings request)) as [d|]; [|done].
  rewrite truthy_above by lra. destruct (Qle_bool d 100) eqn:E; simpl.
  - intros q [= <-]. by apply Qle_bool_iff.
  - apply Qle_bool_false_lt in E. done.
Qed.

Lemma selectConnect_selects : selects selectConnect connectOf 200.
Proof.
  intros name request. unfold selectConnect, connectOf.
  destruct (HarTimings.connect (ParsedRequest.timings request)) as [d|]; [|done].
  rewrite truthy_above by lra. destruct (Qle_bool d 200) eqn:E; simpl.
  - intros q [= <-]. by apply Qle_bool_iff.
  - apply Qle_bool_false_lt in E. done.
Qed.

Lemma selectTtfb_selects : selects selectTtfb waitOf 500.
Proof.
  intros name request. unfold selectTtfb, waitOf.
  destruct (Qle_bool (HarTimings.wait (ParsedRequest.timings request)) 500) eqn:E; simpl.
  - intros q [= <-]. by apply Qle_bool_iff.
  - apply Qle_bool_false_lt in E. done.
Qed.

Lemma selectDownload_selects : selects selectDownload receiveOf 1000.
Proof.
  intros name request. unfold selectDownload, receiveOf.
  destruct (Qle_bool (HarTimings.receive (ParsedRequest.timings request)) 1000) eqn:E;
    simpl.
  - intros q [= <-]. by apply Qle_bool_iff.
  - apply Qle_bool_false_lt in E. done.
Qed.

(** An issue above [limit] is collected exactly when a request is above
    [limit], for every limit at or above the threshold of the family. *)
Lemma collected_exceeds select metric base limit regions :
  selects select metric base → (base <= limit)%Q →
  (∃ i, i ∈ collectIssues select regions ∧ (limit < IssueDetail.value i)%Q)
  ↔ metricExceeds metric limit regions.
Proof.
  intros Hsel Hlimit. split.
  - intros (i & Hi & Hv). apply collectIssues_elem in Hi as (region & request & Hr & Hq & Hs).
    pose proof (Hsel (RegionData.name region) request) as Hspec. rewrite Hs in Hspec.
    destruct Hspec as (Hm & _). exists region, request, (IssueDetail.value i). done.
  - intros (region & request & q & Hr & Hq & Hm & Hv).
    pose proof (Hsel (RegionData.name region) request) as Hspec.
    destruct (select (RegionData.name region) request) as [i|] eqn:Hs.
    + destruct Hspec as (Hm' & _). exists i. split.
      * apply collectIssues_elem. eauto.
      * rewrite Hm in Hm'. injection Hm' as <-. done.
    + specialize (Hspec q Hm). lra.
Qed.

Lemma familyOutcome_category limit category issues part rec :
  familyOutcome limit category issues part → rec ∈ part →
  Recommendation.category rec = category.
Proof.
  intros [[_ ->]|(r & top & -> & Hcat & _)] Hin; [by inversion Hin|].
  by apply list_elem_of_singleton in Hin as ->.
Qed.

(** A family reports exactly when it has an issue, and with high priority
    exactly when an issue is above the escalation limit. *)
Lemma familyOutcome_presence limit category issues part :
  familyOutcome limit category issues part →
  ((∃ rec, rec ∈ part) ↔ ∃ i, i ∈ issues)
  ∧ ∀ rec, rec ∈ part →
      (Recommendation.priority rec = Priority.high
       ↔ ∃ i, i ∈ issues ∧ (limit < IssueDetail.value i)%Q)
      ∧ (Recommendation.priority rec = Priority.medium
         ↔ ∀ i, i ∈ issues → (IssueDetail.value i <= limit)%Q).
Proof.
  intros [[-> ->]|(r & top & -> & Hcat & Htop & Hmax & Hprio & _)].
  - split; [split; intros [x Hx]; by inversion Hx|]. intros rec Hrec. by inversion Hrec.
  - split; [split; intros _; [by exists top|exists r; left]|].
    intros rec Hrec. apply list_elem_of_singleton in Hrec as ->. rewrite Hprio.
    unfold priorityAbove. destruct (Qle_bool (IssueDetail.value top) limit) eqn:E; simpl.
    + apply Qle_bool_iff in E. split.
      * split; [done|]. intros (i & Hi & Hv). specialize (Hmax i Hi). lra.
      * split; [|done]. intros _ i Hi. specialize (Hmax i Hi). lra.
    + apply Qle_bool_false_lt in E. split.
      * split; [|done]. intros _. by exists top.
      * split; [done|]. intros Hall. specialize (Hall top Htop). lra.
Qed.

Lemma Set_of_spec (xs seen : list string) :
  NoDup (Js.Set_of xs seen)
  ∧ (∀ x, x ∈ Js.Set_of xs seen ↔ x ∈ xs ∧ x ∉ seen).
Proof.
  revert seen. induction xs as [|x xs IH]; intros seen; simpl.
  - split; [constructor|]. intros y. split; [by intros ?%elem_of_nil|].
    by intros [?%elem_of_nil _].
  - destruct (existsb (String.eqb x) seen) eqn:E.
    + apply existsb_exists in E as (y & Hy & Heq). apply String.eqb_eq in Heq as <-.
      apply list_elem_of_In in Hy.
      destruct (IH seen) as [Hnd Hin]. split; [done|]. intros y. rewrite Hin.
      rewrite elem_of_cons. split; [tauto|]. intros [[->|Hyxs] Hns]; tauto.
    + assert (Hx : x ∉ seen).
      { intros Hx. apply list_elem_of_In in Hx.
        assert (existsb (String.eqb x) seen = true); [|congruence].
        apply existsb_exists. exists x. split; [done|]. apply String.eqb_refl. }
      destruct (IH (x :: seen)) as [Hnd Hin]. split.
      * constructor; [|done]. rewrite Hin. rewrite elem_of_cons. tauto.
      * intros y. rewrite elem_of_cons, Hin, !elem_of_cons.
        destruct (decide (y = x)) as [->|Hne]; [tauto|]. tauto.
Qed.

Section SynthesizerOutput.
Context `{Platform}.

Lemma regionRecommendation_category comparisons rec :
  rec ∈ regionRecommendation comparisons → Recommendation.category rec = Category.cdn.
Proof.
  destruct (regionRecommendation_cases comparisons) as [[-> _]|(region & _ & _ & ->)];
    intros Hin; [by inversion Hin|].
  by apply list_elem_of_singleton in Hin as ->.
Qed.

(** X11. The recommendations come in the order DNS, connection, server,
    payload, region, with at most one of each category. *)
Theorem generateRecommendations_one_per_category
    (regions : list RegionData.t) (comparisons : list ComparisonResult.t) :
  ∃ recs,
    generateRecommendations regions comparisons = Ok recs
    ∧ map Recommendation.category recs
      `sublist_of` [Category.dns; Category.connection; Category.server;
                    Category.payload; Category.cdn].
Proof.
  destruct (generateRecommendations_parts regions comparisons)
    as (p1 & p2 & p3 & p4 & Hrun & H1 & H2 & H3 & H4).
  eexists. split; [exact Hrun|]. rewrite !map_app.
  assert (Hpart : ∀ limit category issues part,
            familyOutcome limit category issues part →
            map Recommendation.category part = []
            ∨ map Recommendation.category part = [category]).
  { intros limit category issues part [[_ ->]|(r & top & -> & Hcat & _)];
      [by left|right]. simpl. by rewrite Hcat. }
  assert (H5 : map Recommendation.category (regionRecommendation comparisons) = []
               ∨ map Recommendation.category (regionRecommendation comparisons)
                 = [Category.cdn]).
  { destruct (regionRecommendation_cases comparisons) as [[-> _]|(region & _ & _ & ->)];
      [by left|by right]. }
  destruct (Hpart _ _ _ _ H1) as [->| ->], (Hpart _ _ _ _ H2) as [->| ->],
    (Hpart _ _ _ _ H3) as [->| ->], (Hpart _ _ _ _ H4) as [->| ->], H5 as [->| ->];
    simpl; repeat constructor.
Qed.

Lemma elem_of_recommendations (p1 p2 p3 p4 p5 : list Recommendation.t) rec :
  rec ∈ p1 ++ p2 ++ p3 ++ p4 ++ p5 ↔ rec ∈ p1 ∨ rec ∈ p2 ∨ rec ∈ p3 ∨ rec ∈ p4 ∨ rec ∈ p5.
Proof. by rewrite !elem_of_app. Qed.

(** X12. A recommendation of a timing family is present exactly when some
    request of some region has the phase above the family's threshold, and
    it is of high priority exactly when some request has the phase above
    the escalation limit, of medium priority otherwise. *)
Theorem generateRecommendations_families
    (regions : list RegionData.t) (comparisons : list ComparisonResult.t) :
  ∃ recs,
    generateRecommendations regions comparisons = Ok recs
    ∧ Forall
        (fun family =>
           match family with
           | (category, metric, threshold, escalation) =>
               ((∃ rec, rec ∈ recs ∧ Recommendation.category rec = category)
                ↔ metricExceeds metric threshold regions)
               ∧ ∀ rec, rec ∈ recs → Recommendation.category rec = category →
                   (Recommendation.priority rec = Priority.high
                    ↔ metricExceeds metric escalation regions)
                   ∧ (Recommendation.priority rec = Priority.medium
                      ↔ ¬ metricExceeds metric escalation regions)
           end)
        timingFamilies.
Proof.
  destruct (generateRecommendations_parts regions comparisons)
    as (p1 & p2 & p3 & p4 & Hrun & H1 & H2 & H3 & H4).
  eexists. split; [exact Hrun|].
  assert (Hfamily : ∀ select metric base limit category part,
            selects select metric base → (base <= limit)%Q →
            familyOutcome limit category (collectIssues select regions) part →
            (∀ rec, rec ∈ p1 ++ p2 ++ p3 ++ p4 ++ regionRecommendation comparisons →
                    Recommendation.category rec = category → rec ∈ part) →
            (∀ rec, rec ∈ part →
                    rec ∈ p1 ++ p2 ++ p3 ++ p4 ++ regionRecommendation comparisons) →
            ((∃ rec, rec ∈ p1 ++ p2 ++ p3 ++ p4 ++ regionRecommendation comparisons
                     ∧ Recommendation.category rec = category)
             ↔ metricExceeds metric base regions)
            ∧ ∀ rec, rec ∈ p1 ++ p2 ++ p3 ++ p4 ++ regionRecommendation comparisons →
                Recommendation.category rec = category →
                (Recommendation.priority rec = Priority.high
                 ↔ metricExceeds metric limit regions)
                ∧ (Recommendation.priority rec = Priority.medium
                   ↔ ¬ metricExceeds metric limit regions)).
  { intros select metric base limit category part Hsel Hle Hout Hto Hfrom.
    destruct (familyOutcome_presence _ _ _ _ Hout) as [Hpresent Hprio]. split.
    - rewrite <- (collected_exceeds select metric base base regions Hsel) by lra.
      split.
      + intros (rec & Hrec & Hcat).
        destruct (proj1 Hpresent) as [i Hi]; [exists rec; by apply Hto|].
        exists i. split; [done|].
        apply collectIssues_elem in Hi as (region & request & _ & _ & Hs).
        pose proof (Hsel (RegionData.name region) request) as Hspec.
        rewrite Hs in Hspec. tauto.
      + intros (i & Hi & _). destruct (proj2 Hpresent) as [rec Hrec]; [by exists i|].
        exists rec. split; [by apply Hfrom|].
        by apply (familyOutcome_category _ _ _ _ _ Hout).
    - intros rec Hrec Hcat. destruct (Hprio rec (Hto rec Hrec Hcat)) as [Hhigh Hmedium].
      rewrite <- (collected_exceeds select metric base limit regions Hsel Hle).
      split; [done|]. rewrite Hmedium. split.
      + intros Hall (i & Hi & Hv). specialize (Hall i Hi). lra.
      + intros Hnone i Hi. destruct (Qlt_le_dec limit (IssueDetail.value i)); [|done].
        exfalso. apply Hnone. by exists i. }
  assert (Hc1 := fun rec => familyOutcome_category _ _ _ _ rec H1).
  assert (Hc2 := fun rec => familyOutcome_category _ _ _ _ rec H2).
  assert (Hc3 := fun rec => familyOutcome_category _ _ _ _ rec H3).
  assert (Hc4 := fun rec => familyOutcome_category _ _ _ _ rec H4).
  assert (Hc5 := regionRecommendation_category comparisons).
  unfold timingFamilies. rewrite !Forall_cons.
  split; [|split; [|split; [|split; [|by apply Forall_nil]]]].
  - apply (Hfamily selectDns dnsOf 100%Q 300%Q Category.dns p1 selectDns_selects);
      [lra|done| |].
    + intros rec Hrec Hcat. apply elem_of_recommendations in Hrec
        as [?|[Hr|[Hr|[Hr|Hr]]]]; [done|..];
        [apply Hc2 in Hr|apply Hc3 in Hr|apply Hc4 in Hr|apply Hc5 in Hr]; congruence.
    + intros rec Hrec. apply elem_of_recommendations. tauto.
  - apply (Hfamily selectConnect connectOf 200%Q 500%Q Category.connection p2
             selectConnect_selects); [lra|done| |].
    + intros rec Hrec Hcat. apply elem_of_recommendations in Hrec
        as [Hr|[?|[Hr|[Hr|Hr]]]]; [|done|..];
        [apply Hc1 in Hr|apply Hc3 in Hr|apply Hc4 in Hr|apply Hc5 in Hr]; congruence.
    + intros rec Hrec. apply elem_of_recommendations. tauto.
  - apply (Hfamily selectTtfb waitOf 500%Q 1500%Q Category.server p3 selectTtfb_selects);
      [lra|done| |].
    + intros rec Hrec Hcat. apply elem_of_recommendations in Hrec
        as [Hr|[Hr|[?|[Hr|Hr]]]]; [| |done|..];
        [apply Hc1 in Hr|apply Hc2 in Hr|apply Hc4 in Hr|apply Hc5 in Hr]; congruence.
    + intros rec Hrec. apply elem_of_recommendations. tauto.
  - apply (Hfamily selectDownload receiveOf 1000%Q 3000%Q Category.payload p4
             selectDownload_selects); [lra|done| |].
    + intros rec Hrec Hcat. apply elem_of_recommendations in Hrec
        as [Hr|[Hr|[Hr|[?|Hr]]]]; [| | |done|];
        [apply Hc1 in Hr|apply Hc2 in Hr|apply Hc3 in Hr|apply Hc5 in Hr]; congruence.
    + intros rec Hrec. apply elem_of_recommendations. tauto.
Qed.

End SynthesizerOutput.


(** A request of a supplied region, by its URL; a supplied region, by its
    name. *)
Definition requestedUrl (regions : list RegionData.t) (url : string) : Prop :=
  ∃ region request,
    region ∈ regions ∧ request ∈ RegionData.requests region
    ∧ ParsedRequest.url request = url.

Definition regionNamed (regions : list RegionData.t) (name : string) : Prop :=
  ∃ region, region ∈ regions ∧ RegionData.name region = name.

(** What a recommendation lists as affected: between one and fifty URLs,
    and one region or more without repetition. *)
Definition listsAffected (rec : Recommendation.t) : Prop :=
  1 ≤ length (Recommendation.affectedUrls rec) ≤ 50
  ∧ 1 ≤ length (Recommendation.affectedRegions rec)
  ∧ NoDup (Recommendation.affectedRegions rec).

Lemma familyOutcome_affected select metric base limit category regions part rec :
  selects select metric base →
  familyOutcome limit category (collectIssues select regions) part →
  rec ∈ part →
  listsAffected rec
  ∧ Forall (requestedUrl regions) (Recommendation.affectedUrls rec)
  ∧ Forall (regionNamed regions) (Recommendation.affectedRegions rec).
Proof.
  intros Hsel [[_ ->]|(r & top & -> & _ & Htop & _ & _ & Hurls & Hregions)] Hrec;
    [by inversion Hrec|].
  apply list_elem_of_singleton in Hrec as ->.
  set (issues := collectIssues select regions) in *.
  pose proof (Permutation_length (sort_Permutation byValueDesc issues)) as Hlen.
  assert (Hissues : 1 ≤ length issues).
  { destruct issues; [by inversion Htop|simpl; lia]. }
  assert (Hof : ∀ i, i ∈ Js.sort byValueDesc issues →
                     requestedUrl regions (IssueDetail.url i)
                     ∧ regionNamed regions (IssueDetail.region i)).
  { intros i Hi. apply elem_of_sort in Hi.
    apply collectIssues_elem in Hi as (region & request & Hregion & Hrequest & Hs).
    pose proof (Hsel (RegionData.name region) request) as Hspec. rewrite Hs in Hspec.
    destruct Hspec as (_ & _ & Hurl & Hname). split.
    - by exists region, request.
    - by exists region. }
  destruct (Set_of_spec (map IssueDetail.region (Js.sort byValueDesc issues)) [])
    as [Hnd Hin].
  unfold listsAffected. rewrite Hurls, Hregions. unfold Js.slice0.
  rewrite length_map, length_take. repeat split; [lia|lia| |done| |].
  - assert (Hr : IssueDetail.region top
                 ∈ Js.Set_of (map IssueDetail.region (Js.sort byValueDesc issues)) []).
    { apply Hin. split; [|by intros ?%elem_of_nil].
      apply list_elem_of_fmap. exists top. split; [done|]. by apply elem_of_sort. }
    destruct (Js.Set_of _ _); [by inversion Hr|simpl; lia].
  - apply Forall_forall. intros url Hurl.
    apply list_elem_of_fmap in Hurl as (i & -> & Hi).
    apply (Hof i). by apply (subseteq_take 50).
  - apply Forall_forall. intros name Hname. apply Hin in Hname as [Hname _].
    apply list_elem_of_fmap in Hname as (i & -> & Hi). by apply (Hof i).
Qed.

Section SynthesizerEvidence.
Context `{Platform}.

(** X13. Every recommendation lists between one and fifty affected URLs and one
    affected region or more, each region once; for the four timing
    families these are URLs of requests and names of regions of the
    input. *)
Theorem generateRecommendations_lists_affected
    (regions : list RegionData.t) (comparisons : list ComparisonResult.t) :
  ∃ recs,
    generateRecommendations regions comparisons = Ok recs
    ∧ ∀ rec, rec ∈ recs →
        listsAffected rec
        ∧ (Recommendation.category rec ≠ Category.cdn →
           Forall (requestedUrl regions) (Recommendation.affectedUrls rec)
           ∧ Forall (regionNamed regions) (Recommendation.affectedRegions rec)).
Proof.
  destruct (generateRecommendations_parts regions comparisons)
    as (p1 & p2 & p3 & p4 & Hrun & H1 & H2 & H3 & H4).
  eexists. split; [exact Hrun|]. intros rec Hrec.
  rewrite !elem_of_app in Hrec. destruct Hrec as [Hr|[Hr|[Hr|[Hr|Hr]]]].
  - destruct (familyOutcome_affected _ _ _ _ _ _ _ _ selectDns_selects H1 Hr). done.
  - destruct (familyOutcome_affected _ _ _ _ _ _ _ _ selectConnect_selects H2 Hr). done.
  - destruct (familyOutcome_affected _ _ _ _ _ _ _ _ selectTtfb_selects H3 Hr). done.
  - destruct (familyOutcome_affected _ _ _ _ _ _ _ _ selectDownload_selects H4 Hr). done.
  - destruct (regionRecommendation_cases comparisons)
      as [[Hnone _]|(region & Hcount & _ & Hone)].
    { rewrite Hnone in Hr. by inversion Hr. }
    rewrite Hone in Hr. apply list_elem_of_singleton in Hr as ->.
    split; [|done]. unfold listsAffected, regionRecommendationFor.
    cbn [Recommendation.affectedUrls Recommendation.affectedRegions length].
    unfold Js.slice0. rewrite length_map, length_take.
    unfold slowestCount in Hcount. repeat split; [lia|lia|lia|].
    apply NoDup_singleton.
Qed.

(** X14. No recommendation is made exactly when no request has a DNS phase
    above 100, a connect phase above 200, a wait phase above 500 or a
    receive phase above 1000, and no region is the slowest party of three
    comparisons. *)
Theorem generateRecommendations_nothing_to_report
    (regions : list RegionData.t) (comparisons : list ComparisonResult.t) :
  generateRecommendations regions comparisons = Ok []
  ↔ Forall
      (fun family =>
         match family with
         | (_, metric, threshold, _) => ¬ metricExceeds metric threshold regions
         end)
      timingFamilies
    ∧ ∀ region, slowestCount region comparisons < 3.
Proof.
  destruct (generateRecommendations_parts regions comparisons)
    as (p1 & p2 & p3 & p4 & Hrun & H1 & H2 & H3 & H4).
  rewrite Hrun.
  assert (Hfamily : ∀ select metric base limit category part,
            selects select metric base →
            familyOutcome limit category (collectIssues select regions) part →
            part = [] ↔ ¬ metricExceeds metric base regions).
  { intros select metric base limit category part Hsel Hout.
    rewrite <- (collected_exceeds select metric base base regions Hsel) by lra.
    destruct Hout as [[Hnone ->]|(r & top & -> & _ & Htop & _)].
    - split; [|done]. intros _ (i & Hi & _). rewrite Hnone in Hi. by inversion Hi.
    - split; [done|]. intros Hno. exfalso. apply Hno. exists top. split; [done|].
      apply collectIssues_elem in Htop as (region & request & _ & _ & Hs).
      pose proof (Hsel (RegionData.name region) request) as Hspec.
      rewrite Hs in Hspec. tauto. }
  assert (Hregion : regionRecommendation comparisons = []
                    ↔ ∀ region, slowestCount region comparisons < 3).
  { destruct (regionRecommendation_cases comparisons)
      as [[Hnone Hlt]|(region & Hcount & _ & Hone)]; [done|].
    rewrite Hone. split; [done|]. intros Hlt. specialize (Hlt region). lia. }
  unfold timingFamilies. rewrite !Forall_cons, Forall_nil.
  rewrite <- (Hfamily _ _ _ _ _ _ selectDns_selects H1).
  rewrite <- (Hfamily _ _ _ _ _ _ selectConnect_selects H2).
  rewrite <- (Hfamily _ _ _ _ _ _ selectTtfb_selects H3).
  rewrite <- (Hfamily _ _ _ _ _ _ selectDownload_selects H4).
  rewrite <- Hregion. split.
  - intros [= Hnil]. apply app_eq_nil in Hnil as [-> Hnil].
    apply app_eq_nil in Hnil as [-> Hnil]. apply app_eq_nil in Hnil as [-> Hnil].
    apply app_eq_nil in Hnil as [-> ->]. done.
  - intros ((-> & -> & -> & -> & _) & ->). done.
Qed.

(** X15. The analysis of a set of regions never throws: it returns the regions
    as given, the comparisons of the comparator and the recommendations
    made from them.  With fewer than two regions there are no comparisons
    and no recommendation of the region family. *)
Theorem analyzeHarFiles_never_throws (regions : list RegionData.t) :
  ∃ comparisons recommendations,
    compareRegions regions = Ok comparisons
    ∧ generateRecommendations regions comparisons = Ok recommendations
    ∧ analyzeHarFiles regions
      = Ok (AnalysisResult.mk regions comparisons recommendations)
    ∧ (length regions < 2 →
       comparisons = [] ∧ Forall notRegionFamily recommendations).
Proof.
  destruct (compareRegions_sound regions) as (comparisons & Hcompare & Hfew & _).
  destruct (generateRecommendations_parts regions comparisons)
    as (p1 & p2 & p3 & p4 & Hrun & H1 & H2 & H3 & H4).
  exists comparisons. eexists. split; [done|]. split; [exact Hrun|]. split.
  - unfold analyzeHarFiles. rewrite Hcompare. simpl. by rewrite Hrun.
  - intros Hlt. split; [by apply Hfew|]. rewrite (Hfew Hlt).
    change (regionRecommendation []) with (@nil Recommendation.t).
    rewrite app_nil_r, !Forall_app. unfold notRegionFamily.
    repeat split; apply Forall_forall; intros rec Hrec.
    + by rewrite (familyOutcome_category _ _ _ _ _ H1 Hrec).
    + by rewrite (familyOutcome_category _ _ _ _ _ H2 Hrec).
    + by rewrite (familyOutcome_category _ _ _ _ _ H3 Hrec).
    + by rewrite (familyOutcome_category _ _ _ _ _ H4 Hrec).
Qed.

End SynthesizerEvidence.


(** ** The milestones of the UX timeline *)

(** [a] is reached no later than [b]; both times are finite. *)
Definition notLater (a b : Milestone.t) : Prop :=
  ∃ x y, Milestone.time a = Js.Fin x ∧ Milestone.time b = Js.Fin y ∧ (x <= y)%Q.

(** The scripts and stylesheets that start within [window] ms after the
    end of the document. *)
Definition startsWithin (window : Q) (requests : list ParsedRequest.t)
    (r : ParsedRequest.t) : bool :=
  isScriptOrStylesheet r
  && Qle_bool (ParsedRequest.startTime r) (htmlEndTimeOf requests + window).

(** What a milestone says, by its type. *)
Definition milestoneMeaning (requests : list ParsedRequest.t) (m : Milestone.t) : Prop :=
  match Milestone.type m with
  | html_loaded =>
      ∃ html, List.find isDocument requests = Some html
              ∧ Milestone.time m = Js.Fin (endTime html)
              ∧ Milestone.requests m = [html]
  | render_blocking_done =>
      Milestone.requests m = List.filter (startsWithin 100 requests) requests
      ∧ ∃ last, last ∈ Milestone.requests m
                ∧ Milestone.time m = Js.Fin (endTime last)
                ∧ ∀ r, r ∈ Milestone.requests m → (endTime r <= endTime last)%Q
  | first_api_response =>
      ∃ api, Milestone.requests m = [api]
             ∧ api ∈ requests ∧ isApiRequest api = true
             ∧ Milestone.time m = Js.Fin (endTime api)
             ∧ ∀ r, r ∈ requests → isApiRequest r = true → (endTime api <= endTime r)%Q
  | critical_resources_done =>
      ∃ last x, Milestone.requests m = [last]
                ∧ last ∈ requests ∧ isCriticalResource last = true
                ∧ Milestone.time m = Js.Fin x ∧ (x == endTime last)%Q
                ∧ ∀ r, r ∈ requests → isCriticalResource r = true → (endTime r <= x)%Q
  end.

Lemma fold_earlierEnd (others : list ParsedRequest.t) (first : ParsedRequest.t) :
  fold_left earlierEnd others first ∈ first :: others
  ∧ ∀ r, r ∈ first :: others → (endTime (fold_left earlierEnd others first) <= endTime r)%Q.
Proof.
  revert first. induction others as [|o others IH]; intros first; simpl.
  - split; [left|]. intros r Hr. apply list_elem_of_singleton in Hr as ->. lra.
  - destruct (IH (earlierEnd first o)) as [Hin Hmin]. unfold earlierEnd in *.
    destruct (Qle_bool (endTime first) (endTime o)) eqn:E; simpl in *.
    + apply Qle_bool_iff in E. split.
      * apply elem_of_cons in Hin as [->|Hin]; [left|]. right. by right.
      * intros r Hr. apply elem_of_cons in Hr as [->|Hr]; [apply Hmin; left|].
        apply elem_of_cons in Hr as [->|Hr]; [|apply Hmin; by right].
        assert (Hf := Hmin first (list_elem_of_here _ _)). lra.
    + apply Qle_bool_false_lt in E. split.
      * right. done.
      * intros r Hr. apply elem_of_cons in Hr as [->|Hr]; [|by apply Hmin].
        assert (Ho := Hmin o (list_elem_of_here _ _)). lra.
Qed.

Lemma find_Qeq {A} (f : A → Q) (l : list A) (x : Q) :
  x ∈ map f l →
  ∃ a, List.find (fun a => Qeq_bool (f a) x) l = Some a ∧ a ∈ l ∧ (f a == x)%Q.
Proof.
  induction l as [|a l IH]; simpl; [by intros ?%elem_of_nil|].
  intros Hin. destruct (Qeq_bool (f a) x) eqn:E.
  - exists a. split; [done|]. split; [left|]. by apply Qeq_bool_iff.
  - apply elem_of_cons in Hin as [->|Hin].
    + assert (Qeq_bool (f a) (f a) = true) by (apply Qeq_bool_iff; reflexivity).
      congruence.
    + destruct (IH Hin) as (b & Hfind & Hb & Heq). exists b. split; [done|].
      split; [by right|done].
Qed.

Lemma Math_max_of {A} (f : A → Q) (a : A) (l : list A) :
  ∃ top, top ∈ a :: l ∧ Js.Math_max (map f (a :: l)) = Js.Fin (f top)
         ∧ ∀ r, r ∈ a :: l → (f r <= f top)%Q.
Proof.
  simpl map. destruct (Math_max_nonempty (f a) (map f l)) as (m & Hm & Hin & Hle).
  change (f a :: map f l) with (map f (a :: l)) in Hin, Hle.
  apply list_elem_of_fmap in Hin as (top & -> & Htop).
  exists top. split; [done|]. split; [done|]. intros r Hr. apply Hle.
  apply list_elem_of_fmap. by exists r.
Qed.

Lemma elem_of_filter_list {A} (p : A → bool) (l : list A) (x : A) :
  x ∈ List.filter p l ↔ x ∈ l ∧ p x = true.
Proof. rewrite !list_elem_of_In. apply filter_In. Qed.

(** The milestones before they are sorted: one part for each type. *)
Definition milestonePart (requests : list ParsedRequest.t) (type : MilestoneType)
    (present : Prop) (part : list Milestone.t) : Prop :=
  (¬ present ∧ part = [])
  ∨ (present ∧ ∃ m, part = [m] ∧ Milestone.type m = type ∧ milestoneMeaning requests m).

Definition hasRequest (p : ParsedRequest.t → bool) (requests : list ParsedRequest.t)
    : Prop :=
  ∃ r, r ∈ requests ∧ p r = true.

Lemma filter_nil_hasRequest (p : ParsedRequest.t → bool) requests :
  List.filter p requests = [] → ¬ hasRequest p requests.
Proof.
  intros Hnil (r & Hr & Hp).
  assert (Hin : r ∈ List.filter p requests) by (by apply elem_of_filter_list).
  rewrite Hnil in Hin. by inversion Hin.
Qed.

Lemma push_when {A} (c : bool) (l : list A) (x : A) :
  (if c then l ++ [x] else l) = l ++ (if c then [x] else []).
Proof. destruct c; [done|by rewrite app_nil_r]. Qed.

Lemma push_found {A B} (o : option B) (l : list A) (f : B → A) :
  match o with Some b => l ++ [f b] | None => l end
  = l ++ match o with Some b => [f b] | None => [] end.
Proof. destruct o; [done|by rewrite app_nil_r]. Qed.

Lemma push_first {A B} (bs : list B) (l : list A) (f : B → list B → A) :
  match bs with first :: others => l ++ [f first others] | [] => l end
  = l ++ match bs with first :: others => [f first others] | [] => [] end.
Proof. destruct bs; [by rewrite app_nil_r|done]. Qed.

Lemma identifyMilestones_parts (requests : list ParsedRequest.t) :
  ∃ p1 p2 p3 p4,
    identifyMilestones requests = Js.sort byTime (p1 ++ p2 ++ p3 ++ p4)
    ∧ milestonePart requests html_loaded (hasRequest isDocument requests) p1
    ∧ milestonePart requests render_blocking_done
        (hasRequest (startsWithin 100 requests) requests) p2
    ∧ milestonePart requests first_api_response (hasRequest isApiRequest requests) p3
    ∧ milestonePart requests critical_resources_done
        (hasRequest isCriticalResource requests) p4.
Proof.
  unfold identifyMilestones. cbv zeta.
  change (fun r => isScriptOrStylesheet r
                   && Qle_bool (ParsedRequest.startTime r) (htmlEndTimeOf requests + 100))
    with (startsWithin 100 requests).
  rewrite push_when.
  rewrite (push_first (List.filter isApiRequest requests) _
             (fun first others =>
                Milestone.mk first_api_response _
                  (Js.Fin (endTime (fold_left earlierEnd others first)))
                  [fold_left earlierEnd others first] _)).
  rewrite push_when.
  rewrite (push_found (List.find isDocument requests) []
             (fun html => Milestone.mk html_loaded _ (Js.Fin (endTime html)) [html] _)).
  rewrite <- !app_assoc. rewrite app_nil_l.
  eexists _, _, _, _. split; [reflexivity|].
  split; [|split; [|split]].
  - destruct (List.find isDocument requests) as [html|] eqn:Hfind.
    + right. apply find_some in Hfind as Hsome. destruct Hsome as [Hin Hdoc].
      split; [exists html; by rewrite list_elem_of_In|].
      eexists. split; [reflexivity|]. split; [done|].
      unfold milestoneMeaning. cbn [Milestone.type Milestone.time Milestone.requests].
      by exists html.
    + left. split; [|done]. intros (r & Hr & Hdoc).
      apply list_elem_of_In in Hr. by rewrite (find_none _ _ Hfind r Hr) in Hdoc.
  - destruct (List.filter (startsWithin 100 requests) requests) as [|a l] eqn:Hfilter.
    + left. split; [by apply filter_nil_hasRequest|done].
    + right. split.
      { exists a. apply elem_of_filter_list. rewrite Hfilter. left. }
      change (0 <? length (a :: l)) with true. cbv iota.
      destruct (Math_max_of endTime a l) as (top & Htop & Hmax & Hle).
      eexists. split; [reflexivity|]. split; [done|].
      unfold milestoneMeaning. cbn [Milestone.type Milestone.time Milestone.requests].
      split; [done|]. exists top. done.
  - destruct (List.filter isApiRequest requests) as [|first others] eqn:Hfilter.
    + left. split; [by apply filter_nil_hasRequest|done].
    + right. split.
      { exists first. apply elem_of_filter_list. rewrite Hfilter. left. }
      destruct (fold_earlierEnd others first) as [Hin Hmin]. rewrite <- Hfilter in Hin.
      apply elem_of_filter_list in Hin as [Hin Hapi].
      eexists. split; [reflexivity|]. split; [done|].
      unfold milestoneMeaning. cbn [Milestone.type Milestone.time Milestone.requests].
      eexists. split; [done|]. split; [done|].
      split; [done|]. split; [done|]. intros r Hr Hrapi. apply Hmin.
      rewrite <- Hfilter. by apply elem_of_filter_list.
  - destruct (List.filter isCriticalResource requests) as [|a l] eqn:Hfilter.
    + left. split; [by apply filter_nil_hasRequest|done].
    + right. split.
      { exists a. apply elem_of_filter_list. rewrite Hfilter. left. }
      change (0 <? length (a :: l)) with true. cbv iota.
      destruct (Math_max_of endTime a l) as (top & Htop & Hmax & Hle).
      rewrite Hmax. cbn [Js.strict_eq].
      destruct (find_Qeq endTime (a :: l) (endTime top)) as (r & Hfind & Hr & Heq).
      { apply list_elem_of_fmap. by exists top. }
      rewrite Hfind. eexists. split; [reflexivity|]. split; [done|].
      unfold milestoneMeaning. cbn [Milestone.type Milestone.time Milestone.requests].
      rewrite <- Hfilter in Hr. apply elem_of_filter_list in Hr as [Hr Hcrit].
      exists r, (endTime top). split; [done|]. split; [done|]. split; [done|].
      split; [done|]. split; [by symmetry|]. intros r' Hr' Hcrit'. apply Hle.
      rewrite <- Hfilter. by apply elem_of_filter_list.
Qed.

Lemma milestonePart_elem requests type present part m :
  milestonePart requests type present part → m ∈ part →
  Milestone.type m = type ∧ milestoneMeaning requests m ∧ part = [m].
Proof.
  intros [[_ ->]|(_ & m' & -> & Htype & Hmeaning)] Hin; [by inversion Hin|].
  by apply list_elem_of_singleton in Hin as ->.
Qed.

Lemma milestoneMeaning_finite requests m :
  milestoneMeaning requests m → ∃ x, Milestone.time m = Js.Fin x.
Proof.
  unfold milestoneMeaning. destruct (Milestone.type m).
  - intros (html & _ & -> & _). eauto.
  - intros (_ & last & _ & -> & _). eauto.
  - intros (api & _ & _ & _ & -> & _). eauto.
  - intros (last & x & _ & _ & _ & -> & _). eauto.
Qed.

Lemma byTime_keeps (a b : Milestone.t) x y :
  Milestone.time a = Js.Fin x → Milestone.time b = Js.Fin y →
  keepsOrder byTime a b ↔ (x <= y)%Q.
Proof.
  intros Ha Hb. unfold keepsOrder, byTime. rewrite Ha, Hb. simpl Js.sub.
  rewrite gt_Fin_false. split; lra.
Qed.

Lemma elem_of_milestones requests (p1 p2 p3 p4 : list Milestone.t) :
  milestonePart requests html_loaded (hasRequest isDocument requests) p1 →
  milestonePart requests render_blocking_done
    (hasRequest (startsWithin 100 requests) requests) p2 →
  milestonePart requests first_api_response (hasRequest isApiRequest requests) p3 →
  milestonePart requests critical_resources_done
    (hasRequest isCriticalResource requests) p4 →
  ∀ m, m ∈ p1 ++ p2 ++ p3 ++ p4 → milestoneMeaning requests m.
Proof.
  intros H1 H2 H3 H4 m. rewrite !elem_of_app. intros [Hm|[Hm|[Hm|Hm]]].
  - by destruct (milestonePart_elem _ _ _ _ _ H1 Hm) as (_ & ? & _).
  - by destruct (milestonePart_elem _ _ _ _ _ H2 Hm) as (_ & ? & _).
  - by destruct (milestonePart_elem _ _ _ _ _ H3 Hm) as (_ & ? & _).
  - by destruct (milestonePart_elem _ _ _ _ _ H4 Hm) as (_ & ? & _).
Qed.


(** X17. The milestones come in the order of their times, which are finite, and
    there is at most one milestone of each type. *)
Theorem identifyMilestones_sorted_by_time (requests : list ParsedRequest.t) :
  StronglySorted notLater (identifyMilestones requests)
  ∧ NoDup (map Milestone.type (identifyMilestones requests)).
Proof.
  destruct (identifyMilestones_parts requests)
    as (p1 & p2 & p3 & p4 & -> & H1 & H2 & H3 & H4).
  pose proof (elem_of_milestones requests p1 p2 p3 p4 H1 H2 H3 H4) as Hmeaning.
  assert (Hfinite : Forall (fun m => ∃ x, Milestone.time m = Js.Fin x)
                      (p1 ++ p2 ++ p3 ++ p4)).
  { apply Forall_forall. intros m Hm.
    by apply (milestoneMeaning_finite requests), Hmeaning. }
  split.
  - apply (StronglySorted_weaken_on (fun m => ∃ x, Milestone.time m = Js.Fin x)
             (keepsOrder byTime)).
    + apply Forall_forall. intros m Hm. apply elem_of_sort in Hm.
      by apply (proj1 (Forall_forall _ _) Hfinite).
    + intros a b [x Ha] [y Hb] Hkeep. exists x, y. split; [done|]. split; [done|].
      by apply (byTime_keeps a b x y Ha Hb).
    + apply (sort_sorted_on byTime (fun m => ∃ x, Milestone.time m = Js.Fin x));
        [| |done].
      * intros a b [x Ha] [y Hb]. rewrite (byTime_keeps a b x y Ha Hb).
        rewrite (byTime_keeps b a y x Hb Ha). lra.
      * intros a b c [x Ha] [y Hb] [z Hc]. rewrite (byTime_keeps a b x y Ha Hb).
        rewrite (byTime_keeps b c y z Hb Hc), (byTime_keeps a c x z Ha Hc). lra.
  - rewrite (sort_Permutation byTime (p1 ++ p2 ++ p3 ++ p4)). rewrite !map_app.
    assert (Hpart : ∀ type present part,
              milestonePart requests type present part →
              map Milestone.type part = [] ∨ map Milestone.type part = [type]).
    { intros type present part [[_ ->]|(_ & m & -> & <- & _)]; [by left|by right]. }
    destruct (Hpart _ _ _ H1) as [->| ->], (Hpart _ _ _ H2) as [->| ->],
      (Hpart _ _ _ H3) as [->| ->], (Hpart _ _ _ H4) as [->| ->];
      simpl;
      repeat (constructor;
              [rewrite ?elem_of_cons, ?elem_of_nil; intuition discriminate|]);
      constructor.
Qed.

Lemma critical_of_document r : isDocument r = true → isCriticalResource r = true.
Proof. unfold isDocument, isCriticalResource. by destruct (ParsedRequest.type r). Qed.

Lemma critical_of_script r : isScriptOrStylesheet r = true → isCriticalResource r = true.
Proof. unfold isScriptOrStylesheet, isCriticalResource. by destruct (ParsedRequest.type r). Qed.

Lemma critical_of_api r : isApiRequest r = true → isCriticalResource r = true.
Proof. unfold isApiRequest, isCriticalResource. by destruct (ParsedRequest.type r). Qed.

(** A milestone ends at the end of a critical resource of the input. *)
Lemma milestoneMeaning_critical requests m :
  milestoneMeaning requests m →
  ∃ r x, r ∈ requests ∧ isCriticalResource r = true
         ∧ Milestone.time m = Js.Fin x ∧ (x == endTime r)%Q.
Proof.
  unfold milestoneMeaning. destruct (Milestone.type m).
  - intros (html & Hfind & Htime & _). apply find_some in Hfind as [Hin Hdoc].
    exists html, (endTime html). rewrite list_elem_of_In.
    split; [done|]. split; [by apply critical_of_document|done].
  - intros (Hrs & last & Hlast & Htime & _). rewrite Hrs in Hlast.
    apply elem_of_filter_list in Hlast as [Hin Hp].
    apply andb_true_iff in Hp as [Hp _].
    exists last, (endTime last). split; [done|]. split; [by apply critical_of_script|done].
  - intros (api & _ & Hin & Hapi & Htime & _).
    exists api, (endTime api). split; [done|]. split; [by apply critical_of_api|done].
  - intros (last & x & _ & Hin & Hcrit & Htime & Heq & _). by exists last, x.
Qed.

(** X18. There are milestones exactly when the input has a critical resource (a
    document, a script, a stylesheet or an API request), and then the
    milestone of the critical resources is among them and no milestone is
    later than it. *)
Theorem critical_resources_done_is_last (requests : list ParsedRequest.t) :
  (identifyMilestones requests = [] ↔ ¬ hasRequest isCriticalResource requests)
  ∧ Forall
      (fun m =>
         ∃ final, final ∈ identifyMilestones requests
                 ∧ Milestone.type final = critical_resources_done
                 ∧ notLater m final)
      (identifyMilestones requests).
Proof.
  destruct (identifyMilestones_parts requests)
    as (p1 & p2 & p3 & p4 & -> & H1 & H2 & H3 & H4).
  pose proof (elem_of_milestones requests p1 p2 p3 p4 H1 H2 H3 H4) as Hmeaning.
  assert (Hlast : ∀ m, m ∈ p1 ++ p2 ++ p3 ++ p4 →
            hasRequest isCriticalResource requests
            ∧ ∃ final, final ∈ p1 ++ p2 ++ p3 ++ p4
                      ∧ Milestone.type final = critical_resources_done
                      ∧ notLater m final).
  { intros m Hm.
    destruct (milestoneMeaning_critical requests m (Hmeaning m Hm))
      as (r & x & Hr & Hcrit & Htime & Heq).
    assert (Hhas : hasRequest isCriticalResource requests) by (by exists r).
    split; [done|].
    destruct H4 as [[Hnone _]|(_ & final & -> & Htype & Hfinal)]; [done|].
    exists final. split; [rewrite !elem_of_app; do 3 right; left|]. split; [done|].
    unfold milestoneMeaning in Hfinal. rewrite Htype in Hfinal.
    destruct Hfinal as (last & y & _ & _ & _ & Hy & _ & Hle).
    exists x, y. split; [done|]. split; [done|]. rewrite Heq. by apply Hle. }
  split.
  - split.
    + intros Hnil Hhas.
      destruct H4 as [[Hnone _]|(_ & final & -> & _)]; [done|].
      assert (Hin : final ∈ Js.sort byTime (p1 ++ p2 ++ p3 ++ [final])).
      { apply elem_of_sort. rewrite !elem_of_app. do 3 right. left. }
      rewrite Hnil in Hin. by inversion Hin.
    + intros Hnone. destruct (p1 ++ p2 ++ p3 ++ p4) as [|m l] eqn:Hparts; [done|].
      destruct (Hlast m) as [Hhas _]; [left|done].
  - apply Forall_forall. intros m Hm. apply elem_of_sort in Hm.
    destruct (Hlast m Hm) as (_ & final & Hfinal & Htype & Hle).
    exists final. split; [by apply elem_of_sort|done].
Qed.


(** ** Blocking resources and waiting periods *)






Lemma elem_of_blockingResources requests b :
  b ∈ identifyBlockingResources requests →
  BlockingResource.request b ∈ requests
  ∧ startsWithin 50 requests (BlockingResource.request b) = true
  ∧ BlockingResource.blockingType b = ParsedRequest.type (BlockingResource.request b)
  ∧ BlockingResource.blockingDuration b = ParsedRequest.time (BlockingResource.request b)
  ∧ BlockingResource.impact b = impactOf (ParsedRequest.time (BlockingResource.request b)).
Proof.
  unfold identifyBlockingResources. cbv zeta. rewrite elem_of_sort.
  intros Hb. apply list_elem_of_fmap in Hb as (r & -> & Hr).
  apply elem_of_filter_list in Hr as [Hr Hp]. done.
Qed.


Lemma startsWithin_wider requests r :
  startsWithin 50 requests r = true → startsWithin 100 requests r = true.
Proof.
  unfold startsWithin. rewrite !andb_true_iff, !Qle_bool_iff. intros [Hs Hle].
  split; [done|lra].
Qed.

(** X20. Every blocking resource is one of the requests of the milestone at
    which the render-blocking resources are done. *)
Theorem blocking_resources_belong_to_milestone (requests : list ParsedRequest.t) :
  Forall
    (fun b =>
       ∃ m, m ∈ identifyMilestones requests
            ∧ Milestone.type m = render_blocking_done
            ∧ BlockingResource.request b ∈ Milestone.requests m)
    (identifyBlockingResources requests).
Proof.
  apply Forall_forall. intros b Hb.
  apply elem_of_blockingResources in Hb as (Hin & Hwithin & _).
  apply startsWithin_wider in Hwithin.
  destruct (identifyMilestones_parts requests)
    as (p1 & p2 & p3 & p4 & -> & _ & H2 & _).
  destruct H2 as [[Hnone _]|(_ & m & -> & Htype & Hmeaning)].
  { exfalso. apply Hnone. by exists (BlockingResource.request b). }
  exists m. split; [|split; [done|]].
  - apply elem_of_sort. rewrite !elem_of_app. right. left. left.
  - unfold milestoneMeaning in Hmeaning. rewrite Htype in Hmeaning.
    destruct Hmeaning as [-> _]. by apply elem_of_filter_list.
Qed.






(** ** The structure of the API chains *)

(** Each request of [tail] starts in the window after its predecessor,
    [current] being the predecessor of the first. *)
Fixpoint linked (current : ParsedRequest.t) (tail : list ParsedRequest.t) : Prop :=
  match tail with
  | [] => True
  | next :: tail' => inWindow current next ∧ linked next tail'
  end.

Lemma extends_linked candidates visited current tail visited' :
  extends candidates visited current tail visited' → linked current tail.
Proof. induction 1; simpl; done. Qed.

(** A chain as [buildChain] makes it from a start request and the
    requests that follow it. *)
Definition builtFrom (chain : ApiChain.t) : Prop :=
  ∃ start tail,
    chain = chainOf start (nodesOf None (start :: tail)) ∧ linked start tail.

Lemma chainWalk_built candidates :
  StronglySorted byStart candidates →
  ∀ todo chains visited,
    ∃ built,
      chainWalk candidates todo chains visited
      = Some (chains ++ List.filter moreThanOneNode built)
      ∧ Forall builtFrom built.
Proof.
  intros Hsorted todo. induction todo as [|r todo IH]; intros chains visited; simpl.
  - exists []. rewrite app_nil_r. split; [done|constructor].
  - destruct (visited_has visited (ParsedRequest.id r)) eqn:Hv; [apply IH|].
    apply visited_has_false in Hv.
    destruct (buildChain_extends candidates r visited Hsorted Hv)
      as (tail & visited' & -> & Hext).
    set (chain := chainOf r (nodesOf None (r :: tail))).
    destruct (IH (if Nat.ltb 1 (length (ApiChain.nodes chain))
                  then chains ++ [chain] else chains) visited')
      as (built & Hwalk & Hbuilt).
    exists (chain :: built). split.
    + rewrite Hwalk. simpl List.filter.
      change (moreThanOneNode chain) with (Nat.ltb 1 (length (ApiChain.nodes chain))).
      destruct (Nat.ltb 1 (length (ApiChain.nodes chain))); [|done].
      by rewrite <- app_assoc.
    + constructor; [|done]. exists r, tail. split; [done|].
      by apply extends_linked in Hext.
Qed.

Lemma analyzeApiChains_built requests :
  ∃ built,
    analyzeApiChains requests
    = Some (Js.sort byTotalDurationDesc (List.filter moreThanOneNode built))
    ∧ Forall builtFrom built.
Proof.
  unfold analyzeApiChains.
  destruct (chainWalk_built (sortedApiRequests requests)
              (sortedApiRequests_sorted requests) (sortedApiRequests requests) [] ∅)
    as (built & Hwalk & Hbuilt).
  destruct (Nat.eqb_spec (length (sortedApiRequests requests)) 0) as [Hnone|Hsome].
  - exists []. split; [done|constructor].
  - exists built. rewrite Hwalk. done.
Qed.

(** What holds of the reported chains holds of what the walk built. *)
Lemma analyzeApiChains_Forall (P : ApiChain.t → Prop) requests :
  (∀ chain, builtFrom chain → moreThanOneNode chain = true → P chain) →
  ∃ chains, analyzeApiChains requests = Some chains ∧ Forall P chains.
Proof.
  intros HP. destruct (analyzeApiChains_built requests) as (built & -> & Hbuilt).
  eexists. split; [reflexivity|]. apply Forall_forall. intros chain Hchain.
  apply elem_of_sort, elem_of_filter_list in Hchain as [Hin Hmore].
  apply HP; [|done]. by apply (proj1 (Forall_forall _ _) Hbuilt).
Qed.

Definition longerChain (a b : ApiChain.t) : Prop :=
  (ApiChain.totalDuration b <= ApiChain.totalDuration a)%Q.

Lemma byTotalDurationDesc_keeps (a b : ApiChain.t) :
  keepsOrder byTotalDurationDesc a b ↔ longerChain a b.
Proof.
  unfold keepsOrder, byTotalDurationDesc, longerChain. rewrite gt_Fin_false.
  split; lra.
Qed.

Lemma sortedChains_sorted (chains : list ApiChain.t) :
  StronglySorted longerChain (Js.sort byTotalDurationDesc chains).
Proof.
  apply (StronglySorted_weaken (keepsOrder byTotalDurationDesc)).
  - intros a b. apply byTotalDurationDesc_keeps.
  - apply sort_sorted.
    + intros a b. rewrite !byTotalDurationDesc_keeps. unfold longerChain. lra.
    + intros a b c. rewrite !byTotalDurationDesc_keeps. unfold longerChain. lra.
Qed.

(** X22. The chains are reported with the longest total duration first. *)
Theorem analyzeApiChains_longest_first (requests : list ParsedRequest.t) :
  ∃ chains,
    analyzeApiChains requests = Some chains ∧ StronglySorted longerChain chains.
Proof.
  destruct (analyzeApiChains_built requests) as (built & -> & _).
  eexists. split; [reflexivity|]. apply sortedChains_sorted.
Qed.





(** The bottleneck of a chain is one of its nodes, and no node of the
    chain has a request that takes longer. *)
Definition bottleneckIsSlowest (chain : ApiChain.t) : Prop :=
  ∃ slowest,
    ApiChain.bottleneck chain = Some slowest
    ∧ slowest ∈ ApiChain.nodes chain
    ∧ ∀ n, n ∈ ApiChain.nodes chain →
           (ParsedRequest.time (ApiChainNode.request n)
            <= ParsedRequest.time (ApiChainNode.request slowest))%Q.

Lemma fold_slower (nodes : list ApiChainNode.t) (first : ApiChainNode.t) :
  fold_left slower nodes first ∈ first :: nodes
  ∧ ∀ n, n ∈ first :: nodes →
         (ParsedRequest.time (ApiChainNode.request n)
          <= ParsedRequest.time (ApiChainNode.request (fold_left slower nodes first)))%Q.
Proof.
  revert first. induction nodes as [|o nodes IH]; intros first; simpl.
  - split; [left|]. intros n Hn. apply list_elem_of_singleton in Hn as ->. lra.
  - destruct (IH (slower first o)) as [Hin Hmax]. unfold slower in *.
    destruct (Qle_bool (ParsedRequest.time (ApiChainNode.request o))
                (ParsedRequest.time (ApiChainNode.request first))) eqn:E; simpl in *.
    + apply Qle_bool_iff in E. split.
      * apply elem_of_cons in Hin as [->|Hin]; [left|]. right. by right.
      * intros n Hn. apply elem_of_cons in Hn as [->|Hn]; [apply Hmax; left|].
        apply elem_of_cons in Hn as [->|Hn]; [|apply Hmax; by right].
        assert (Hf := Hmax first (list_elem_of_here _ _)). lra.
    + apply Qle_bool_false_lt in E. split.
      * right. done.
      * intros n Hn. apply elem_of_cons in Hn as [->|Hn]; [|by apply Hmax].
        assert (Ho := Hmax o (list_elem_of_here _ _)). lra.
Qed.

(** X24. The bottleneck of every reported chain is a node of the chain whose
    request takes at least as long as that of every node of the chain. *)
Theorem analyzeApiChains_bottleneck (requests : list ParsedRequest.t) :
  ∃ chains,
    analyzeApiChains requests = Some chains ∧ Forall bottleneckIsSlowest chains.
Proof.
  apply analyzeApiChains_Forall. intros chain (start & tail & -> & _) _.
  unfold bottleneckIsSlowest, chainOf. cbn [ApiChain.bottleneck ApiChain.nodes].
  simpl nodesOf. set (first := ApiChainNode.mk start _ _ None).
  set (rest := nodesOf (Some (ParsedRequest.id start)) tail).
  destruct (fold_slower (first :: rest) first) as [Hin Hmax].
  eexists. split; [reflexivity|]. split.
  - apply elem_of_cons in Hin as [->|Hin]; [left|done].
  - intros n Hn. apply Hmax. by right.
Qed.







(** ** The summary of the UX timeline *)





(** X27. The analysis of a region returns a result, whose parts are those of
    the five functions; the longest API chain of the summary is the total
    duration of the first chain reported, or 0 when there is no chain. *)
Theorem analyzeUXTimeline_longest_chain (region : RegionData.t) :
  ∃ chains,
    analyzeApiChains (RegionData.requests region) = Some chains
    ∧ analyzeUXTimeline region
      = Some
          (UXTimelineResult.mk
             (identifyMilestones (RegionData.requests region))
             (identifyBlockingResources (RegionData.requests region))
             chains
             (identifyWaitingPeriods (RegionData.requests region)
                (identifyBlockingResources (RegionData.requests region)))
             (calculateSummary
                (identifyMilestones (RegionData.requests region))
                (identifyBlockingResources (RegionData.requests region))
                chains (RegionData.requests region)))
    ∧ ∃ longest,
        Summary.longestApiChain
          (calculateSummary
             (identifyMilestones (RegionData.requests region))
             (identifyBlockingResources (RegionData.requests region))
             chains (RegionData.requests region))
        = Js.Fin longest
        ∧ match chains with
          | [] => longest = 0%Q
          | chain :: _ => (longest == ApiChain.totalDuration chain)%Q
          end.
Proof.
  destruct (analyzeApiChains_built (RegionData.requests region))
    as (built & Hrun & _).
  pose proof (sortedChains_sorted (List.filter moreThanOneNode built)) as Hsorted.
  eexists. split; [exact Hrun|]. split.
  - unfold analyzeUXTimeline. cbv zeta. by rewrite Hrun.
  - unfold calculateSummary. cbn [Summary.longestApiChain].
    destruct (Js.sort byTotalDurationDesc (List.filter moreThanOneNode built))
      as [|chain chains]; [by exists 0%Q|].
    change (0 <? length (chain :: chains)) with true. cbv iota.
    destruct (Math_max_of ApiChain.totalDuration chain chains)
      as (top & Htop & -> & Hmax).
    eexists. split; [reflexivity|].
    apply StronglySorted_inv in Hsorted as [_ Hfirst].
    assert (Hle : (ApiChain.totalDuration top <= ApiChain.totalDuration chain)%Q).
    { apply elem_of_cons in Htop as [->|Htop]; [lra|].
      by apply (proj1 (Forall_forall _ _) Hfirst). }
    assert (Hge := Hmax chain (list_elem_of_here _ _)). lra.
Qed.

(** * Sample runs *)

Example severity_at_the_thresholds :
  getSeverity 500 xhr = warning
  ∧ getSeverity 1000 fetch = critical
  ∧ getSeverity 499.5 xhr = normal
  ∧ getSeverity 1500 script = critical
  ∧ getSeverity 999.9 image = normal
  ∧ getSeverity 3000 media = critical.
Proof. repeat split; reflexivity. Qed.

Example base_url_of_samples :
  @getBaseUrl samplePlatform "https://example.com/api/data?v=1#top"
  = Ok "https://example.com/api/data"
  ∧ @getBaseUrl samplePlatform "/relative/path?x=1" = Ok "/relative/path?x=1".
Proof. split; reflexivity. Qed.

Example chain_of_two_calls :
  ∃ chain,
    analyzeApiChains (RegionData.requests chainedRegion) = Some [chain]
    ∧ chainIds chain = ["Taipei-0"; "Taipei-1"]
    ∧ ApiChain.totalDuration chain = 170%Q.
Proof. eexists. repeat split; reflexivity. Qed.

Example tokyo_is_reported :
  ∃ result recommendation,
    @analyzeHarFiles samplePlatform [taipeiRegion; tokyoRegion] = Ok result
    ∧ map ComparisonResult.url (AnalysisResult.comparisons result)
      = ["https://example.com/c"; "https://example.com/b"; "https://example.com/a"]
    ∧ map ComparisonResult.maxDiff (AnalysisResult.comparisons result)
      = [Js.Fin 500; Js.Fin 400; Js.Fin 300]
    ∧ AnalysisResult.recommendations result = [recommendation]
    ∧ Recommendation.priority recommendation = Priority.high
    ∧ Recommendation.affectedRegions recommendation = ["Tokyo"]
    ∧ Recommendation.title recommendation
      = "Tokyo 地區在 3 個請求中明顯較慢（平均慢 400ms）".
Proof. eexists _, _. repeat split; reflexivity. Qed.
